(** * Contour retopology operator: undo snapshots, ring segments, cut placement

    A shallow embedding of the modal operator [CGCOOKIE_OT_retopo_contour]
    of [__init__.py]: the undo cache ([create_undo_snapshot],
    [undo_action]), the ring-segment event of loop mode, the placement of a
    cut ([release_place_cut]) and the release of a drawn stroke
    ([new_path_from_draw]).

    Python objects have identity and are mutated in place, so cut lines and
    cut series live in two object stores indexed by location; the operator
    and the undo cache hold locations.  [copy.deepcopy] is modelled on these
    stores with its memo table. *)

From Stdlib Require Import ZArith.
From stdpp Require Import base tactics option list strings gmap.

(** ** Values supplied by the host and by the geometry code *)

(** The carriers the operator never looks into: floats, vectors and the
    geometric data that [contour_classes] computes from the surface. *)
Class ContourTypes := {
  fl : Type;          (* a Python float, e.g. [cut.shift] *)
  vert : Type;        (* a [mathutils.Vector] *)
  cut_geom : Type;    (* plane, centre of mass, visibility, screen coordinates *)
  path_geom : Type;   (* knots, cut nodes, backbone, bridge faces *)
  vert_list : Type;   (* an [ExistingVertList] *)
  context : Type;     (* the Blender context with the surface looked at *)
}.

(** A location in an object store: the identity of a Python object. *)
Abbreviation loc := nat.

Section DataModel.
Context `{ContourTypes}.

(** ** Objects *)

(** [ContourCutLine]: the attributes [__init__.py] reads or writes. *)
Record ContourCutLine := mkCut {
  head : option (Z * Z);
  tail : option (Z * Z);
  shift : fl;
  verts : list vert;
  verts_simple : list vert;
  cut_select : bool;
  cgeom : cut_geom;
}.

(** [ContourCutSeries], over the type [R] of what [cuts] holds: locations
    in the store, cut lines themselves when a series is read back. *)
Record ContourCutSeries (R : Type) := mkSeries {
  cuts : list R;
  segments : Z;
  ring_segments : Z;
  seg_lock : bool;
  ring_lock : bool;
  existing_head : option vert_list;
  existing_tail : option vert_list;
  select : bool;
  highlight : bool;
  raw_world : list vert;
  pgeom : path_geom;
}.
#[global] Arguments mkSeries {R}.
#[global] Arguments cuts {R}.
#[global] Arguments segments {R}.
#[global] Arguments ring_segments {R}.
#[global] Arguments seg_lock {R}.
#[global] Arguments ring_lock {R}.
#[global] Arguments existing_head {R}.
#[global] Arguments existing_tail {R}.
#[global] Arguments select {R}.
#[global] Arguments highlight {R}.
#[global] Arguments raw_world {R}.
#[global] Arguments pgeom {R}.

Definition with_cuts {R R'} (cs : list R') (p : ContourCutSeries R) : ContourCutSeries R' :=
  mkSeries cs (segments p) (ring_segments p) (seg_lock p) (ring_lock p)
    (existing_head p) (existing_tail p) (select p) (highlight p) (raw_world p) (pgeom p).

Definition with_segments {R} (n : Z) (p : ContourCutSeries R) : ContourCutSeries R :=
  mkSeries (cuts p) n (ring_segments p) (seg_lock p) (ring_lock p)
    (existing_head p) (existing_tail p) (select p) (highlight p) (raw_world p) (pgeom p).

Definition with_ring_segments {R} (n : Z) (p : ContourCutSeries R) : ContourCutSeries R :=
  mkSeries (cuts p) (segments p) n (seg_lock p) (ring_lock p)
    (existing_head p) (existing_tail p) (select p) (highlight p) (raw_world p) (pgeom p).

Definition with_seg_lock {R} (b : bool) (p : ContourCutSeries R) : ContourCutSeries R :=
  mkSeries (cuts p) (segments p) (ring_segments p) b (ring_lock p)
    (existing_head p) (existing_tail p) (select p) (highlight p) (raw_world p) (pgeom p).

Definition with_select {R} (b : bool) (p : ContourCutSeries R) : ContourCutSeries R :=
  mkSeries (cuts p) (segments p) (ring_segments p) (seg_lock p) (ring_lock p)
    (existing_head p) (existing_tail p) b (highlight p) (raw_world p) (pgeom p).

Definition with_highlight {R} (b : bool) (p : ContourCutSeries R) : ContourCutSeries R :=
  mkSeries (cuts p) (segments p) (ring_segments p) (seg_lock p) (ring_lock p)
    (existing_head p) (existing_tail p) (select p) b (raw_world p) (pgeom p).

Definition with_raw_world {R} (r : list vert) (p : ContourCutSeries R) : ContourCutSeries R :=
  mkSeries (cuts p) (segments p) (ring_segments p) (seg_lock p) (ring_lock p)
    (existing_head p) (existing_tail p) (select p) (highlight p) r (pgeom p).

Definition with_pgeom {R} (g : path_geom) (p : ContourCutSeries R) : ContourCutSeries R :=
  mkSeries (cuts p) (segments p) (ring_segments p) (seg_lock p) (ring_lock p)
    (existing_head p) (existing_tail p) (select p) (highlight p) (raw_world p) g.

Definition with_ends (c : ContourCutLine) (h t : option (Z * Z)) : ContourCutLine :=
  mkCut h t (shift c) (verts c) (verts_simple c) (cut_select c) (cgeom c).

Definition with_shift (x : fl) (c : ContourCutLine) : ContourCutLine :=
  mkCut (head c) (tail c) x (verts c) (verts_simple c) (cut_select c) (cgeom c).

Definition with_verts (vs : list vert) (c : ContourCutLine) : ContourCutLine :=
  mkCut (head c) (tail c) (shift c) vs (verts_simple c) (cut_select c) (cgeom c).

Definition with_verts_simple (vs : list vert) (c : ContourCutLine) : ContourCutLine :=
  mkCut (head c) (tail c) (shift c) (verts c) vs (cut_select c) (cgeom c).

Definition with_cut_select (b : bool) (c : ContourCutLine) : ContourCutLine :=
  mkCut (head c) (tail c) (shift c) (verts c) (verts_simple c) b (cgeom c).

Definition with_cgeom (g : cut_geom) (c : ContourCutLine) : ContourCutLine :=
  mkCut (head c) (tail c) (shift c) (verts c) (verts_simple c) (cut_select c) g.

(** ** The operator *)

Inductive Mode := LOOP | GUIDE.

Inductive ModalState :=
  WAITING | NAVIGATING | CUTTING | DRAWING | HOTKEY_TRANSFORM | WIDGET_TRANSFORM.

(** [self.snap]: [[]] after [invoke], [None] after the N key, or
    [[path, end_cut]] from [hover_guide_mode]; the end is a cut of the
    series or its existing head. *)
Inductive SnapRing := SnapCut (c : loc) | SnapHead.
Inductive Snap := SnapNone | SnapEmpty | SnapTo (series : loc) (ring : SnapRing).

(** The add-on preferences the embedded code reads. *)
Record Settings := mkSettings {
  undo_depth : nat;         (* IntProperty, min=0, max=100 *)
  vertex_count : Z;
  ring_count : Z;
  search_factor : fl;
  cull_factor : Z;
  smooth_factor : Z;
  feature_factor : Z;
}.

Record Operator := mkOperator {
  cut_paths : list loc;          (* series *)
  cut_lines : list loc;          (* cut lines not yet in a series *)
  selected : option loc;         (* a cut line *)
  selected_path : option loc;    (* a series *)
  draw_cache : list (Z * Z);
  op_segments : Z;               (* [self.segments] *)
  force_new : bool;
  drag : bool;
  snap : Snap;
  mode : Mode;
  modal_state : ModalState;
  settings : Settings;
}.

(** Modelled from the spec: [ContourStatePreserver] of [contour_classes],
    which is not part of the sources at hand.  The spec calls it the
    minimal operator state (selection, mode); the selection is kept as
    positions, of the selected series in [cut_paths] and of the selected
    cut in that series, so that it can be put back on the restored copy. *)
Record ContourStatePreserver := mkPreserver {
  sp_mode : Mode;
  sp_modal_state : ModalState;
  sp_selected_path : option nat;
  sp_selected : option nat;
}.

(** An entry of the undo cache: [(cut_data, state, action)]. *)
Definition UndoEntry : Type := list loc * ContourStatePreserver * string.

Definition cut_data (e : UndoEntry) : list loc := e.1.1.
Definition entry_state (e : UndoEntry) : ContourStatePreserver := e.1.2.
Definition entry_action (e : UndoEntry) : string := e.2.

(** The whole state: both object stores, the operator and the module
    global [contour_undo_cache], a Python list whose last element is the
    most recent snapshot. *)
Record World := mkWorld {
  paths : list (ContourCutSeries loc);
  lines : list ContourCutLine;
  op : Operator;
  contour_undo_cache : list UndoEntry;
}.

Definition with_paths (ps : list (ContourCutSeries loc)) (w : World) : World :=
  mkWorld ps (lines w) (op w) (contour_undo_cache w).
Definition with_lines (ls : list ContourCutLine) (w : World) : World :=
  mkWorld (paths w) ls (op w) (contour_undo_cache w).
Definition with_op (o : Operator) (w : World) : World :=
  mkWorld (paths w) (lines w) o (contour_undo_cache w).
Definition with_cache (u : list UndoEntry) (w : World) : World :=
  mkWorld (paths w) (lines w) (op w) u.

Definition with_cut_paths (l : list loc) (o : Operator) : Operator :=
  mkOperator l (cut_lines o) (selected o) (selected_path o) (draw_cache o)
    (op_segments o) (force_new o) (drag o) (snap o) (mode o) (modal_state o) (settings o).
Definition with_cut_lines (l : list loc) (o : Operator) : Operator :=
  mkOperator (cut_paths o) l (selected o) (selected_path o) (draw_cache o)
    (op_segments o) (force_new o) (drag o) (snap o) (mode o) (modal_state o) (settings o).
Definition with_selected (c : option loc) (o : Operator) : Operator :=
  mkOperator (cut_paths o) (cut_lines o) c (selected_path o) (draw_cache o)
    (op_segments o) (force_new o) (drag o) (snap o) (mode o) (modal_state o) (settings o).
Definition with_selected_path (p : option loc) (o : Operator) : Operator :=
  mkOperator (cut_paths o) (cut_lines o) (selected o) p (draw_cache o)
    (op_segments o) (force_new o) (drag o) (snap o) (mode o) (modal_state o) (settings o).
Definition with_draw_cache (d : list (Z * Z)) (o : Operator) : Operator :=
  mkOperator (cut_paths o) (cut_lines o) (selected o) (selected_path o) d
    (op_segments o) (force_new o) (drag o) (snap o) (mode o) (modal_state o) (settings o).
Definition with_force_new (b : bool) (o : Operator) : Operator :=
  mkOperator (cut_paths o) (cut_lines o) (selected o) (selected_path o) (draw_cache o)
    (op_segments o) b (drag o) (snap o) (mode o) (modal_state o) (settings o).
Definition with_drag (b : bool) (o : Operator) : Operator :=
  mkOperator (cut_paths o) (cut_lines o) (selected o) (selected_path o) (draw_cache o)
    (op_segments o) (force_new o) b (snap o) (mode o) (modal_state o) (settings o).
Definition with_mode (m : Mode) (o : Operator) : Operator :=
  mkOperator (cut_paths o) (cut_lines o) (selected o) (selected_path o) (draw_cache o)
    (op_segments o) (force_new o) (drag o) (snap o) m (modal_state o) (settings o).
Definition with_modal_state (m : ModalState) (o : Operator) : Operator :=
  mkOperator (cut_paths o) (cut_lines o) (selected o) (selected_path o) (draw_cache o)
    (op_segments o) (force_new o) (drag o) (snap o) (mode o) m (settings o).

(** ** Exceptions and the operator monad *)

Inductive exn :=
  IndexError | TypeError | AttributeError | ValueError | ZeroDivisionError | OverflowError.

(** A call either returns a value in a new state or raises, leaving the
    state as the statements before the raise made it. *)
Inductive res (A : Type) :=
  | Ret (a : A) (w : World)
  | Raise (e : exn) (w : World).
#[global] Arguments Ret {A}.
#[global] Arguments Raise {A}.

Definition M (A : Type) : Type := World → res A.

Definition ret {A} (a : A) : M A := λ w, Ret a w.
Definition raise {A} (e : exn) : M A := λ w, Raise e w.
Definition bind {A B} (m : M A) (k : A → M B) : M B :=
  λ w, match m w with
       | Ret a w' => k a w'
       | Raise e w' => Raise e w'
       end.
Definition get : M World := λ w, Ret w w.
Definition modify (f : World → World) : M unit := λ w, Ret tt (f w).
Definition modify_op (f : Operator → Operator) : M unit :=
  modify (λ w, with_op (f (op w)) w).

(** The state a call ends in, returning or raising. *)
Definition final {A} (r : res A) : World :=
  match r with Ret _ w => w | Raise _ w => w end.

Definition returns {A} (r : res A) : Prop :=
  match r with Ret _ _ => True | Raise _ _ => False end.

End DataModel.

Declare Scope op_scope.
Delimit Scope op_scope with op.
Notation "x <- m ;; k" := (bind m (λ x, k))
  (at level 100, m at next level, right associativity) : op_scope.
Notation "m ;;; k" := (bind m (λ _, k))
  (at level 100, right associativity) : op_scope.

Local Open Scope op_scope.

Section UndoCache.
Context `{ContourTypes}.

(** ** [copy.deepcopy] on the object stores *)

(** The stores being extended and the memo table of the running copy, one
    table per store.  An object met a second time is not copied again: the
    copy made the first time is returned. *)
Record CopyState := mkCopy {
  cp_paths : list (ContourCutSeries loc);
  cp_lines : list ContourCutLine;
  memo_paths : gmap loc loc;
  memo_lines : gmap loc loc;
}.

(** The copy of the cut line at [l]: a new object with the same attribute
    values.  A location without an object does not occur in Python; the
    model leaves it alone. *)
Definition deepcopy_line (l : loc) (s : CopyState) : loc * CopyState :=
  match memo_lines s !! l with
  | Some l' => (l', s)
  | None =>
      match cp_lines s !! l with
      | Some c =>
          let l' := length (cp_lines s) in
          (l', mkCopy (cp_paths s) (cp_lines s ++ [c]) (memo_paths s)
                 (<[l:=l']> (memo_lines s)))
      | None => (l, s)
      end
  end.

Fixpoint deepcopy_lines (ls : list loc) (s : CopyState) : list loc * CopyState :=
  match ls with
  | [] => ([], s)
  | l :: r =>
      let '(l', s1) := deepcopy_line l s in
      let '(r', s2) := deepcopy_lines r s1 in
      (l' :: r', s2)
  end.

(** The copy of the series at [l]: its cut lines are copied and the new
    series refers to the copies.  (A series is not reachable from its own
    cut lines, so it does not matter that Python enters the new object in
    the memo before it copies the attributes.) *)
Definition deepcopy_series (l : loc) (s : CopyState) : loc * CopyState :=
  match memo_paths s !! l with
  | Some l' => (l', s)
  | None =>
      match cp_paths s !! l with
      | Some p =>
          let '(cs, s1) := deepcopy_lines (cuts p) s in
          let l' := length (cp_paths s1) in
          (l', mkCopy (cp_paths s1 ++ [with_cuts cs p]) (cp_lines s1)
                 (<[l:=l']> (memo_paths s1)) (memo_lines s1))
      | None => (l, s)
      end
  end.

Fixpoint deepcopy_list (ls : list loc) (s : CopyState) : list loc * CopyState :=
  match ls with
  | [] => ([], s)
  | l :: r =>
      let '(l', s1) := deepcopy_series l s in
      let '(r', s2) := deepcopy_list r s1 in
      (l' :: r', s2)
  end.

(** [copy.deepcopy(self.cut_paths)]: a fresh memo for each call. *)
Definition deepcopy_cut_paths (w : World) : list loc * CopyState :=
  deepcopy_list (cut_paths (op w)) (mkCopy (paths w) (lines w) ∅ ∅).

(** ** Reading a graph back as a value *)

(** A series with its cut lines in place of their locations. *)
Definition read_series (ls : list ContourCutLine) (p : ContourCutSeries loc)
  : ContourCutSeries (option ContourCutLine) :=
  with_cuts ((λ c, ls !! c) <$> cuts p) p.

(** The list of series a list of locations stands for: what structural
    equality of two graphs compares. *)
Definition read_graph (ps : list (ContourCutSeries loc)) (ls : list ContourCutLine)
    (roots : list loc) : list (option (ContourCutSeries (option ContourCutLine))) :=
  (λ l, read_series ls <$> ps !! l) <$> roots.

Definition live_graph (w : World) :=
  read_graph (paths w) (lines w) (cut_paths (op w)).

Definition entry_graph (w : World) (e : UndoEntry) :=
  read_graph (paths w) (lines w) (cut_data e).

(** ** The state preserver *)

(** [list.index] without the [ValueError]: the spec's snapshot manager
    does not fail. *)
Definition index_of (l : loc) (ls : list loc) : option nat :=
  fst <$> list_find (λ x, x = l) ls.

(** Modelled from the spec: [ContourStatePreserver(self)], the minimal
    operator state. *)
Definition preserve_state (w : World) : ContourStatePreserver :=
  let o := op w in
  mkPreserver (mode o) (modal_state o)
    (p ← selected_path o; index_of p (cut_paths o))
    (p ← selected_path o; c ← selected o; s ← paths w !! p; index_of c (cuts s)).

(** Modelled from the spec: [op_state.push_state(self)] puts the preserved
    mode and selection back on the operator; it runs after [cut_paths] has
    been replaced, so the positions are looked up in the restored graph. *)
Definition push_state (sp : ContourStatePreserver) : M unit :=
  modify (λ w,
    let o := op w in
    let p := i ← sp_selected_path sp; cut_paths o !! i in
    let c := l ← p; j ← sp_selected sp; s ← paths w !! l; cuts s !! j in
    with_op (with_modal_state (sp_modal_state sp) (with_mode (sp_mode sp)
              (with_selected c (with_selected_path p o)))) w).

(** ** Python list primitives used on the cache *)

(** [l.pop()]: the last element and the list without it. *)
Definition list_pop {A} (l : list A) : option (list A * A) :=
  match rev l with
  | x :: r => Some (rev r, x)
  | [] => None
  end.

(** ** [create_undo_snapshot] and [undo_action] *)

Definition repeated_actions : list string :=
  ["LOOP_SHIFT"; "PATH_SHIFT"; "PATH_SEGMENTS"; "LOOP_SEGMENTS"]%string.

(** Lines 1746-1753: copy, append, and drop the oldest entry when the
    cache has grown beyond [undo_depth]. *)
Definition take_snapshot (action : string) (w : World) : World :=
  let '(data, s) := deepcopy_cut_paths w in
  (* [copy.deepcopy(ContourStatePreserver(self))]: the preserver holds
     numbers and strings only, its copy is equal to it *)
  let state := preserve_state w in
  let cache := contour_undo_cache w ++ [(data, state, action)] in
  let cache :=
    if bool_decide (undo_depth (settings (op w)) < length cache)
    then drop 1 cache else cache in
  mkWorld (cp_paths s) (cp_lines s) (op w) cache.

Definition create_undo_snapshot (action : string) : M unit :=
  λ w,
    if bool_decide (action ∈ repeated_actions) then
      (* [contour_undo_cache[-1][2]] *)
      match last (contour_undo_cache w) with
      | None => Raise IndexError w
      | Some e =>
          if bool_decide (action = entry_action e) then Ret tt w
          else Ret tt (take_snapshot action w)
      end
    else Ret tt (take_snapshot action w).

Definition undo_action : M unit :=
  λ w,
    if bool_decide (0 < length (contour_undo_cache w)) then
      match list_pop (contour_undo_cache w) with
      | Some (rest, e) =>
          push_state (entry_state e)
            (with_op (with_cut_paths (cut_data e) (op w)) (with_cache rest w))
      | None => Raise IndexError w
      end
    else Ret tt w.

End UndoCache.

(** ** The geometry of [contour_classes] *)

(** What a float is to [round]: a finite value has a nearest integer,
    an infinity and a NaN have none. *)
Inductive float_kind := Finite | Infinite | NaN.

(** [contour_classes] is imported by [__init__.py] and is not among the
    sources at hand.  What its methods compute from the surface is left
    open here: one function for each value a method derives. *)
Class ContourClasses `{ContourTypes} := {
  (* ContourCutLine *)
  hit_test : context → ContourCutLine → bool;
  hit_geom : context → ContourCutLine → cut_geom;
  cross_section : context → ContourCutLine → list vert * cut_geom;
  resample : Z → ContourCutLine → list vert;
  com_geom : ContourCutLine → cut_geom;
  screen_geom : context → ContourCutLine → cut_geom;
  visible_geom : context → ContourCutLine → cut_geom;
  (* float arithmetic: [new / old * shift] for a non-zero [old] *)
  shift_rescale : Z → Z → fl → fl;
  (* float arithmetic: [shift * old / new] for a non-zero [new]; there is
     no value, and Python raises [OverflowError], when a count is beyond
     the range of the floats *)
  shift_bulk : Z → Z → fl → option fl;
  (* the kind of a float, and the integer nearest to a finite one *)
  fl_kind : fl → float_kind;
  fl_nearest : fl → Z;
  (* ContourCutSeries *)
  default_segments : Z;
  default_ring_segments : Z;
  stroke_geom : context → list (Z * Z) → Settings → path_geom;
  ray_cast : context → path_geom → list vert;
  knots_geom : context → path_geom → path_geom;
  smooth_geom : context → path_geom → path_geom;
  nodes_geom : context → Z → path_geom → path_geom;
  snapped_geom : context → path_geom → path_geom;
  node_cuts : context → Z → path_geom → list ContourCutLine;
  bridge_geom : context → ContourCutSeries (option ContourCutLine) → path_geom;
  backbone_geom : context → ContourCutSeries (option ContourCutLine) → path_geom;
  backbone_cut_geom :
    context → ContourCutSeries (option ContourCutLine) → ContourCutLine → cut_geom;
  insertion_place :
    context → fl → ContourCutSeries (option ContourCutLine) → ContourCutLine → option nat;
  inserted_ring_segments :
    ContourCutSeries (option ContourCutLine) → ContourCutLine → Z;
  merged_ring_segments :
    ContourCutSeries (option ContourCutLine) → list ContourCutLine → Z;
  splice_cuts : SnapRing → list loc → list loc → list loc;
}.

(** An input event, as far as the embedded branches of [modal] read it. *)
Record Event := mkEvent {
  ev_type : string;
  ev_value : string;
  ev_ctrl : bool;
  ev_shift : bool;
  mouse_region_x : Z;
  mouse_region_y : Z;
}.

Section Methods.
Context `{ContourClasses}.

(** ** Access to the object stores *)

(** Reading an attribute of the object at a location.  Every Python
    reference leads to an object; [AttributeError] here is the model's
    answer for a location without one, the same a [None] gets. *)
Definition get_line (l : loc) : M ContourCutLine :=
  λ w, match lines w !! l with
       | Some c => Ret c w
       | None => Raise AttributeError w
       end.

Definition get_series (l : loc) : M (ContourCutSeries loc) :=
  λ w, match paths w !! l with
       | Some p => Ret p w
       | None => Raise AttributeError w
       end.

(** In-place mutation of the object at a location. *)
Definition update_line (l : loc) (f : ContourCutLine → ContourCutLine) : M unit :=
  modify (λ w, with_lines (alter f l (lines w)) w).

Definition update_series (l : loc)
    (f : ContourCutSeries loc → ContourCutSeries loc) : M unit :=
  modify (λ w, with_paths (alter f l (paths w)) w).

(** Object creation: the new object gets the next location of its store. *)
Definition new_line (c : ContourCutLine) : M loc :=
  λ w, Ret (length (lines w)) (with_lines (lines w ++ [c]) w).

Definition new_series (p : ContourCutSeries loc) : M loc :=
  λ w, Ret (length (paths w)) (with_paths (paths w ++ [p]) w).

Fixpoint for_each {A} (l : list A) (f : A → M unit) : M unit :=
  match l with
  | [] => ret tt
  | x :: r => f x ;;; for_each r f
  end.

Fixpoint new_lines (cs : list ContourCutLine) : M (list loc) :=
  match cs with
  | [] => ret []
  | c :: r => l <- new_line c ;; ls <- new_lines r ;; ret (l :: ls)
  end.

(** [l.remove(x)]: the first occurrence goes, [ValueError] without one.
    Objects without [__eq__] compare by identity. *)
Fixpoint list_remove (x : loc) (l : list loc) : option (list loc) :=
  match l with
  | [] => None
  | y :: r => if bool_decide (y = x) then Some r
              else cons y <$> list_remove x r
  end.

Definition cut_lines_remove (x : loc) : M unit :=
  λ w, match list_remove x (cut_lines (op w)) with
       | Some l => Ret tt (with_op (with_cut_lines l (op w)) w)
       | None => Raise ValueError w
       end.

(** ** Methods of [ContourCutLine] *)

(** The methods of [contour_classes] that the embedded code calls.  Each
    writes the attributes the spec gives it and nothing else: a method
    that derives geometry leaves counts, locks, cut lists, shifts and
    vertices as they are. *)

(** Modelled from the spec: [hit_object] casts the view ray of the line
    on the surface (4.1); it tells whether the ray hit and keeps the
    plane it found. *)
Definition hit_object (ctx : context) (l : loc) : M bool :=
  c <- get_line l ;;
  update_line l (with_cgeom (hit_geom ctx c)) ;;;
  ret (hit_test ctx c).

(** Modelled from the spec: [cut_object] intersects the plane of the line
    with the surface (4.1) and stores the boundary in [verts]. *)
Definition cut_object (ctx : context) (l : loc) : M unit :=
  update_line l (λ c, with_cgeom (cross_section ctx c).2
                        (with_verts (cross_section ctx c).1 c)).

(** Modelled from the spec: [simplify_cross(n)] is the loop normalizer
    (4.2): [verts_simple] is resampled from [verts] for [n] vertices at
    the current [shift]. *)
Definition simplify_cross (n : Z) (l : loc) : M unit :=
  update_line l (λ c, with_verts_simple (resample n c) c).

(** Modelled from the spec: [update_com] computes the centre of mass
    (4.2). *)
Definition update_com (l : loc) : M unit :=
  update_line l (λ c, with_cgeom (com_geom c) c).

(** Modelled from the spec: [update_screen_coords] is presentation. *)
Definition update_screen_coords (ctx : context) (l : loc) : M unit :=
  update_line l (λ c, with_cgeom (screen_geom ctx c) c).

(** Modelled from the spec: [do_select] of a cut line sets its selection
    flag. *)
Definition cut_do_select (l : loc) : M unit :=
  update_line l (with_cut_select true).

(** ** Methods of [ContourCutSeries] *)

(** Modelled from the spec: the constructor of [ContourCutSeries], the
    EMPTY state of 4.4: no cuts, no ends, nothing locked or selected. *)
Definition ContourCutSeries_init (ctx : context) (raw : list (Z * Z))
    (segs rsegs : option Z) (st : Settings) : ContourCutSeries loc :=
  mkSeries [] (default default_segments segs) (default default_ring_segments rsegs)
    false false None None false false [] (stroke_geom ctx raw st).

(** Modelled from the spec: [do_select], [deselect] and [unhighlight] of
    a series set its presentation flags (3, Path). *)
Definition do_select (l : loc) : M unit := update_series l (with_select true).
Definition deselect (l : loc) : M unit := update_series l (with_select false).
Definition unhighlight (l : loc) : M unit := update_series l (with_highlight false).

(** Modelled from the spec: [connect_cuts_to_make_mesh] stores the
    bridge faces between consecutive cuts (4.4). *)
Definition connect_cuts_to_make_mesh (ctx : context) (l : loc) : M unit :=
  w <- get ;;
  update_series l (λ p, with_pgeom (bridge_geom ctx (read_series (lines w) p)) p).

(** Modelled from the spec: [update_visibility] sets the visibility mask
    of each cut (4.4). *)
Definition update_visibility (ctx : context) (l : loc) : M unit :=
  p <- get_series l ;;
  for_each (cuts p) (λ c, update_line c (λ x, with_cgeom (visible_geom ctx x) x)).

(** Modelled from the spec: [backbone_from_cuts] recomputes the plane
    normal of each cut from the backbone through the centroids (4.4). *)
Definition backbone_from_cuts (ctx : context) (l : loc) : M unit :=
  p <- get_series l ;;
  w <- get ;;
  let v := read_series (lines w) p in
  for_each (cuts p) (λ c, update_line c (λ x, with_cgeom (backbone_cut_geom ctx v x) x)) ;;;
  update_series l (with_pgeom (backbone_geom ctx v)).

(** Modelled from the spec: [ray_cast_path] projects the stroke on the
    surface into [raw_world]; no point when the stroke misses it (4.4). *)
Definition ray_cast_path (ctx : context) (l : loc) : M unit :=
  update_series l (λ p, with_raw_world (ray_cast ctx (pgeom p)) p).

(** Modelled from the spec: [find_knots], [smooth_path],
    [create_cut_nodes] and [snap_to_object] work on the stroke of the
    series (4.4). *)
Definition find_knots (ctx : context) (l : loc) : M unit :=
  update_series l (λ p, with_pgeom (knots_geom ctx (pgeom p)) p).

Definition smooth_path (ctx : context) (l : loc) : M unit :=
  update_series l (λ p, with_pgeom (smooth_geom ctx (pgeom p)) p).

Definition create_cut_nodes (ctx : context) (l : loc) : M unit :=
  update_series l (λ p, with_pgeom (nodes_geom ctx (segments p) (pgeom p)) p).

Definition snap_to_object (ctx : context) (l : loc) : M unit :=
  update_series l (λ p, with_pgeom (snapped_geom ctx (pgeom p)) p).

(** Modelled from the spec: [cuts_on_path] makes a new cut line at each
    node, with the ring count of the series (4.4). *)
Definition cuts_on_path (ctx : context) (l : loc) : M unit :=
  p <- get_series l ;;
  cs <- new_lines (node_cuts ctx (ring_segments p) (pgeom p)) ;;
  update_series l (with_cuts cs).

(** Modelled from the spec: [insert_new_cut] of 4.4.  The test on the
    plane of the new cut is [insertion_place]; when it names a position
    the cut goes there, the ring count is derived again unless the series
    is ring-locked, and the call succeeds; otherwise it fails and the
    series is as before. *)
Definition insert_new_cut (ctx : context) (l : loc) (new_cut : loc) (search : fl)
  : M bool :=
  p <- get_series l ;;
  c <- get_line new_cut ;;
  w <- get ;;
  match insertion_place ctx search (read_series (lines w) p) c with
  | Some i =>
      update_series l (λ q,
        let q' := with_cuts (take i (cuts q) ++ new_cut :: drop i (cuts q)) q in
        if ring_lock q then q'
        else with_ring_segments
               (inserted_ring_segments (read_series (lines w) p) c) q') ;;;
      ret true
  | None => ret false
  end.

(** Modelled from the spec: [snap_merge_into_other] of 4.4.  The cuts of
    the drawn stroke are made with the ring count of the other series and
    spliced onto it at the anchor; every cut of the combined series is
    resampled to one shared ring count. *)
Definition snap_merge_into_other (ctx : context) (l : loc) (other : loc)
    (ring : SnapRing) : M unit :=
  p <- get_series l ;;
  q <- get_series other ;;
  w <- get ;;
  let new_cuts := node_cuts ctx (ring_segments q) (pgeom p) in
  let n := merged_ring_segments (read_series (lines w) q) new_cuts in
  cs <- new_lines new_cuts ;;
  let all := splice_cuts ring (cuts q) cs in
  update_series other (λ q, with_ring_segments n (with_cuts all q)) ;;;
  for_each all (simplify_cross n) ;;;
  connect_cuts_to_make_mesh ctx other.

End Methods.

Section Operator.
Context `{ContourClasses}.

(** ** Loop mode: the ring-segment event (lines 1350-1383 of [modal]) *)

(** The guard of the branch.  [and] binds tighter than [or]: the wheel
    needs [ctrl], and so does the numpad key once pressed. *)
Definition is_ring_segments_event (ev : Event) : bool :=
  (bool_decide (ev_type ev ∈ ["WHEELUPMOUSE"; "WHEELDOWNMOUSE"]%string) && ev_ctrl ev)
  || ((bool_decide (ev_type ev ∈ ["NUMPAD_PLUS"; "NUMPAD_MINUS"]%string)
       && bool_decide (ev_value ev = "PRESS"%string)) && ev_ctrl ev).

(** [1 - 2 * (event.type == 'WHEELDOWNMOUSE' or event.type == 'NUMPAD_MINUS')] *)
Definition ring_step (ev : Event) : Z :=
  1 - 2 * (if bool_decide (ev_type ev = "WHEELDOWNMOUSE"%string)
              || bool_decide (ev_type ev = "NUMPAD_MINUS"%string)
           then 1 else 0).

(** The ring count after the step, not below 3. *)
Definition stepped_ring_segments (old : Z) (ev : Event) : Z :=
  let n := (old + ring_step ev)%Z in
  if bool_decide (n < 3)%Z then 3%Z else n.

(** A cut line with its shift rescaled from [old] to [new] vertices and
    resampled to [new]. *)
Definition rescaled (old new : Z) (c : ContourCutLine) : ContourCutLine :=
  let c' := with_shift (shift_rescale new old (shift c)) c in
  with_verts_simple (resample new c') c'.

(** [round(x)] of a float: Python raises [ValueError] on a NaN and
    [OverflowError] on an infinity. *)
Definition py_round (x : fl) : exn + Z :=
  match fl_kind x with
  | Finite => inr (fl_nearest x)
  | Infinite => inl OverflowError
  | NaN => inl ValueError
  end.

(** Line 1361, [round(cut.shift * old_segments / ring_segments)]: the
    integer, or what the line raises. *)
Definition new_bulk_shift (old new : Z) (s : fl) : exn + Z :=
  if bool_decide (new = 0%Z) then inl ZeroDivisionError
  else match shift_bulk old new s with
       | Some x => py_round x
       | None => inl OverflowError
       end.

(** A value, or the exception raised in its place. *)
Definition value_of {A} (r : exn + A) : M A :=
  match r with
  | inl e => raise e
  | inr a => ret a
  end.

(** The body of the loop at lines 1360-1368 for one cut.  Line 1361 comes
    first and raises, before anything is written, when the scaled shift
    has no nearest integer.  Lines 1362 and 1366 are float arithmetic on
    the shift, the counts and the integer of line 1361, which has divided
    by the new count already; what they compute is only printed.
    Line 1364, [new_shift], divides by the old count. *)
Definition rescale_cut (old new : Z) (cut : loc) : M unit :=
  c <- get_line cut ;;
  _ <- value_of (new_bulk_shift old new (shift c)) ;;
  if bool_decide (old = 0%Z) then raise ZeroDivisionError
  else
    update_line cut (with_shift (shift_rescale new old (shift c))) ;;;
    simplify_cross new cut.

(** The cuts that line 1361 has a value for: the scaled shift is a finite
    float. *)
Definition roundable (old new : Z) (w : World) (cut : loc) : Prop :=
  ∃ x n, lines w !! cut = Some x ∧ new_bulk_shift old new (shift x) = inr n.

(** The branch is reached in loop mode, waiting, with a selected cut.
    The header message and its timer belong to the host and are not part
    of the state. *)
Definition modal_ring_segments (ctx : context) (ev : Event) : M unit :=
  create_undo_snapshot "RING_SEGMENTS" ;;;
  w <- get ;;
  match selected_path (op w) with
  | None => raise AttributeError
  | Some sp =>
      p <- get_series sp ;;
      if negb (ring_lock p) then
        let old_segments := ring_segments p in
        let new_segments := stepped_ring_segments old_segments ev in
        update_series sp (with_ring_segments new_segments) ;;;
        for_each (cuts p) (rescale_cut old_segments new_segments) ;;;
        backbone_from_cuts ctx sp ;;;
        connect_cuts_to_make_mesh ctx sp ;;;
        update_visibility ctx sp
      else
        ret tt
  end.

(** ** Loop mode: placing a cut ([release_place_cut], lines 890-968) *)

(** [width.length < 20] for [width] the head minus the tail.  Both ends
    are whole pixels, so the comparison of the length with 20 is the
    comparison of its square with 400. *)
Definition too_short (h t : Z * Z) : bool :=
  bool_decide ((h.1 - t.1) * (h.1 - t.1) + (h.2 - t.2) * (h.2 - t.2) < 400)%Z.

Definition set_selected (c : option loc) : M unit := modify_op (with_selected c).
Definition set_selected_path (p : option loc) : M unit := modify_op (with_selected_path p).

(** The loop at lines 931-945: the series are offered the cut in order,
    and the first that takes it ends the search.  The result tells
    whether the function has returned from inside the loop. *)
Fixpoint offer_cut (ctx : context) (sel : loc) (search : fl) (all ps : list loc)
  : M bool :=
  match ps with
  | [] => ret false
  | path :: rest =>
      ok <- insert_new_cut ctx path sel search ;;
      if ok then
        connect_cuts_to_make_mesh ctx path ;;;
        update_visibility ctx path ;;;
        update_series path (with_seg_lock true) ;;;
        do_select path ;;;
        unhighlight path ;;;
        set_selected_path (Some path) ;;;
        cut_lines_remove sel ;;;
        for_each all (λ other,
          if bool_decide (other ≠ path) then deselect other else ret tt) ;;;
        ret true
      else offer_cut ctx sel search all rest
  end.

(** Lines 947-968: a blank series for the cut.  The result of
    [insert_new_cut] at line 954 is not looked at. *)
Definition place_in_new_series (ctx : context) (sel : loc) : M unit :=
  w <- get ;;
  let st := settings (op w) in
  path <- new_series (ContourCutSeries_init ctx [] None None st) ;;
  _ <- insert_new_cut ctx path sel (search_factor st) ;;
  update_series path (with_seg_lock false) ;;;
  update_series path (with_segments 1) ;;;
  c <- get_line sel ;;
  update_series path (with_ring_segments (Z.of_nat (length (verts_simple c)))) ;;;
  connect_cuts_to_make_mesh ctx path ;;;
  update_visibility ctx path ;;;
  for_each (cut_paths (op w)) deselect ;;;
  modify_op (λ o, with_cut_paths (cut_paths o ++ [path]) o) ;;;
  set_selected_path (Some path) ;;;
  do_select path ;;;
  cut_lines_remove sel ;;;
  modify_op (with_force_new false).


(** Lines 930-968: the cut goes to the first series that takes it, or
    to a blank series of its own. *)
Definition attach_cut (ctx : context) (sel : loc) : M unit :=
  w <- get ;;
  placed <-
    (if bool_decide (cut_paths (op w) ≠ []) && negb (force_new (op w))
     then offer_cut ctx sel (search_factor (settings (op w)))
            (cut_paths (op w)) (cut_paths (op w))
     else ret false) ;;
  if placed then ret tt else place_in_new_series ctx sel.

Definition release_place_cut (ctx : context) (ev : Event) : M unit :=
  w <- get ;;
  match selected (op w) with
  | None => raise AttributeError
  | Some sel =>
      c <- get_line sel ;;
      match tail c with
      | None => raise AttributeError
      | Some _ =>
          let t := (mouse_region_x ev, mouse_region_y ev) in
          update_line sel (λ c, with_ends c (head c) (Some t)) ;;;
          match head c with
          | None => raise AttributeError
          | Some h =>
              if too_short h t then
                cut_lines_remove sel ;;; set_selected None
              else
                hit <- hit_object ctx sel ;;
                if negb hit then
                  cut_lines_remove sel ;;; set_selected None
                else
                  cut_object ctx sel ;;;
                  simplify_cross (op_segments (op w)) sel ;;;
                  update_com sel ;;;
                  update_screen_coords ctx sel ;;;
                  update_line sel (λ c, with_ends c None None) ;;;
                  c' <- get_line sel ;;
                  if bool_decide (length (verts c') = 0)
                     || bool_decide (length (verts_simple c') = 0)
                  then set_selected None
                  else attach_cut ctx sel
          end
      end
  end.

(** The release of the mouse button while cutting, lines 1404-1414. *)
Definition modal_cutting_release (ctx : context) (ev : Event) : M unit :=
  release_place_cut ctx ev ;;;
  modify_op (with_modal_state WAITING).

(** ** Guide mode: a drawn stroke ([new_path_from_draw], lines 833-873) *)

(** [self.snap != []] *)
Definition snap_is_empty (s : Snap) : bool :=
  match s with SnapEmpty => true | _ => false end.

Definition new_path_from_draw (ctx : context) : M (option loc) :=
  w <- get ;;
  let st := settings (op w) in
  path <- new_series (ContourCutSeries_init ctx (draw_cache (op w))
                        (Some (ring_count st)) (Some (vertex_count st)) st) ;;
  ray_cast_path ctx path ;;;
  p <- get_series path ;;
  if bool_decide (length (raw_world p) = 0) then ret None
  else
    find_knots ctx path ;;;
    if negb (snap_is_empty (snap (op w))) && negb (force_new (op w)) then
      match snap (op w) with
      | SnapTo merge_series merge_ring =>
          snap_merge_into_other ctx path merge_series merge_ring ;;;
          ret (Some merge_series)
      | _ => raise TypeError
      end
    else
      smooth_path ctx path ;;;
      create_cut_nodes ctx path ;;;
      snap_to_object ctx path ;;;
      cuts_on_path ctx path ;;;
      connect_cuts_to_make_mesh ctx path ;;;
      backbone_from_cuts ctx path ;;;
      update_visibility ctx path ;;;
      p' <- get_series path ;;
      match last (cuts p') with
      | Some c => cut_do_select c
      | None => ret tt
      end ;;;
      modify_op (λ o, with_cut_paths (cut_paths o ++ [path]) o) ;;;
      ret (Some path)
  .

(** The release of the mouse button while drawing, lines 1701-1723. *)
Definition modal_drawing_release (ctx : context) : M unit :=
  w <- get ;;
  (if bool_decide (10 < length (draw_cache (op w))) then
     for_each (cut_paths (op w)) deselect ;;;
     sp <- new_path_from_draw ctx ;;
     set_selected_path sp ;;;
     match sp with
     | Some path =>
         do_select path ;;;
         p <- get_series path ;;
         set_selected (last (cuts p)) ;;;
         match last (cuts p) with
         | Some c => cut_do_select c
         | None => ret tt
         end
     | None => ret tt
     end ;;;
     modify_op (with_drag false) ;;;
     modify_op (with_force_new false)
   else ret tt) ;;;
  modify_op (with_draw_cache []) ;;;
  modify_op (with_modal_state WAITING).

End Operator.

(** ** Ownership of objects, and mutation of the live graph *)

Section Ownership.
Context `{ContourTypes}.

(** The cut lines the series at [roots] refer to. *)
Definition series_lines (ps : list (ContourCutSeries loc)) (roots : list loc) : list loc :=
  roots ≫= λ l, match ps !! l with Some p => cuts p | None => [] end.

(** What a series and a cut line are apart from presentation and
    derived geometry: the attributes the embedded code decides on. *)
Definition series_core {R} (p : ContourCutSeries R) :=
  (cuts p, segments p, ring_segments p, seg_lock p, ring_lock p,
   existing_head p, existing_tail p, raw_world p).

Definition line_core (c : ContourCutLine) :=
  (head c, tail c, shift c, verts c, verts_simple c).

(** The two states hold the same objects up to selection flags and
    derived geometry. *)
Definition same_objects (w w' : World) : Prop :=
  series_core <$> paths w' = series_core <$> paths w
  ∧ line_core <$> lines w' = line_core <$> lines w.

(** The same, under the same operator and undo cache. *)
Definition same_cores (w w' : World) : Prop :=
  same_objects w w'
  ∧ op w' = op w
  ∧ contour_undo_cache w' = contour_undo_cache w.

(** An operation that always returns, in a state with the same cores. *)
Definition quiet (m : M unit) : Prop :=
  ∀ w, ∃ w', m w = Ret tt w' ∧ same_cores w w'.

(** The objects reachable from the undo cache. *)
Definition owned_series (w : World) : list loc :=
  contour_undo_cache w ≫= cut_data.

Definition owned_lines (w : World) : list loc :=
  series_lines (paths w) (owned_series w).

(** A cut line the running code may hold a reference to: it exists, and
    it is not one of the copies kept in the undo cache. *)
Definition free_line (w : World) (c : loc) : Prop :=
  c < length (lines w) ∧ c ∉ owned_lines w.

Definition free_series (w : World) (l : loc) : Prop :=
  l < length (paths w) ∧ l ∉ owned_series w.

#[local] Instance free_line_dec w c : Decision (free_line w c).
Proof. unfold free_line. apply _. Defined.

#[local] Instance free_series_dec w l : Decision (free_series w l).
Proof. unfold free_series. apply _. Defined.

(** One step of a mutating operation on the live graph: an attribute
    write on a series or a cut line, the creation of one, or a new list
    for [self.cut_paths]. *)
Inductive Mutation :=
  | WriteSeries (l : loc) (p : ContourCutSeries loc)
  | WriteLine (l : loc) (c : ContourCutLine)
  | NewSeries (p : ContourCutSeries loc)
  | NewLine (c : ContourCutLine)
  | SetCutPaths (ls : list loc).

(** The steps open to code that works on the live graph.  Only
    [create_undo_snapshot] and [undo_action] touch the undo cache, so the
    references such code can store are to free objects, and the objects it
    writes to are free. *)
Definition allowed (w : World) (m : Mutation) : bool :=
  match m with
  | WriteSeries l p =>
      bool_decide (free_series w l) && bool_decide (Forall (free_line w) (cuts p))
  | WriteLine l c => bool_decide (free_line w l)
  | NewSeries p => bool_decide (Forall (free_line w) (cuts p))
  | NewLine c => true
  | SetCutPaths ls =>
      bool_decide (Forall (free_series w) ls)
      && bool_decide (Forall (free_line w) (series_lines (paths w) ls))
  end.

Definition apply_mutation (m : Mutation) (w : World) : World :=
  match m with
  | WriteSeries l p => with_paths (<[l:=p]> (paths w)) w
  | WriteLine l c => with_lines (<[l:=c]> (lines w)) w
  | NewSeries p => with_paths (paths w ++ [p]) w
  | NewLine c => with_lines (lines w ++ [c]) w
  | SetCutPaths ls => with_op (with_cut_paths ls (op w)) w
  end.

(** A mutating operation: a sequence of allowed steps. *)
Fixpoint mutate (ms : list Mutation) (w : World) : option World :=
  match ms with
  | [] => Some w
  | m :: rest => if allowed w m then mutate rest (apply_mutation m w) else None
  end.

(** The live graph and the graphs of the cache entries, oldest first. *)
Definition regions (w : World) : list (list loc) :=
  cut_paths (op w) :: (cut_data <$> contour_undo_cache w).

(** Every reference in [roots] leads to an object. *)
Definition valid_roots (ps : list (ContourCutSeries loc)) (ls : list ContourCutLine)
    (roots : list loc) : Prop :=
  Forall (λ l, l < length ps) roots
  ∧ Forall (λ c, c < length ls) (series_lines ps roots).

Fixpoint pairwise_disjoint (rs : list (list loc)) : Prop :=
  match rs with
  | [] => True
  | r :: rest => Forall (λ r', r ## r') rest ∧ pairwise_disjoint rest
  end.

(** The graphs at [rs] have their objects in the stores and share none,
    neither series nor cut lines. *)
Definition separated_on (ps : list (ContourCutSeries loc)) (ls : list ContourCutLine)
    (rs : list (list loc)) : Prop :=
  Forall (valid_roots ps ls) rs
  ∧ pairwise_disjoint rs
  ∧ pairwise_disjoint (series_lines ps <$> rs).

(** The invariant of the undo cache: the live graph and the stored
    graphs are separated. *)
Definition separated (w : World) : Prop :=
  separated_on (paths w) (lines w) (regions w).

(** What holds of a running [deepcopy] of the stores [ps] and [ls]: the
    stores have only grown, and the memo tables send objects of [ps] and
    [ls] to new objects with the same attributes. *)
Record copy_inv (ps : list (ContourCutSeries loc)) (ls : list ContourCutLine)
    (s : CopyState) : Prop := {
  ci_paths : ps `prefix_of` cp_paths s;
  ci_lines : ls `prefix_of` cp_lines s;
  ci_memo_lines : ∀ c c', memo_lines s !! c = Some c' →
    length ls ≤ c' ∧ is_Some (ls !! c) ∧ cp_lines s !! c' = ls !! c;
  ci_memo_paths : ∀ l l', memo_paths s !! l = Some l' →
    length ps ≤ l' ∧ ∃ p cs, ps !! l = Some p
      ∧ cp_paths s !! l' = Some (with_cuts cs p)
      ∧ Forall2 (λ c c', memo_lines s !! c = Some c') (cuts p) cs;
}.

(** ** Histories *)

(** The call of [create_undo_snapshot] finds the label on top of the
    cache and takes no snapshot. *)
Definition coalesced (action : string) (w : World) : bool :=
  bool_decide (action ∈ repeated_actions)
  && match last (contour_undo_cache w) with
     | Some e => bool_decide (action = entry_action e)
     | None => false
     end.

(** A sequence of mutating operations, each with a snapshot taken before
    it under its label.  The run is defined when every snapshot call
    returns and pushes an entry and every step is allowed. *)
Fixpoint run_ops (ops : list (string * list Mutation)) (w : World) : option World :=
  match ops with
  | [] => Some w
  | (action, ms) :: rest =>
      if coalesced action w then None
      else match create_undo_snapshot action w with
           | Ret _ w1 => w2 ← mutate ms w1; run_ops rest w2
           | Raise _ _ => None
           end
  end.

(** The newest entries of the cache read as the graphs [gs], oldest
    first. *)
Definition recorded (w : World)
    (gs : list (list (option (ContourCutSeries (option ContourCutLine))))) : Prop :=
  ∃ pre ents, contour_undo_cache w = pre ++ ents ∧ entry_graph w <$> ents = gs.

(** [undo_action] called [k] times. *)
Fixpoint undo_times (k : nat) : M unit :=
  match k with
  | 0 => ret tt
  | S k' => undo_action ;;; undo_times k'
  end.

End Ownership.

(** ** Values of the host *)

(** Floats and vectors as Python and [mathutils] give them, and two
    values of [contour_classes] that the handlers below ask for. *)
Class HostValues `{ContourTypes} := {
  (* [==] on floats; a NaN differs from itself *)
  fl_eqb : fl → fl → bool;
  fl_add : fl → fl → fl;
  fl_0_05 : fl;               (* the literal [0.05] *)
  fl_neg_0_05 : fl;           (* the literal [-0.05] *)
  (* [mathutils.Vector]: [<], [>], [+], [Vector((0, 0, 0))], [tuple(v)] *)
  vert_lt : vert → vert → bool;
  vert_gt : vert → vert → bool;
  vert_add : vert → vert → vert;
  vert_zero : vert;
  vert_tuple : vert → list fl;
  (* [ContourCutLine(x, y)] and [len(existing_loop.verts_simple)] *)
  ContourCutLine_init : Z → Z → ContourCutLine;
  loop_size : vert_list → Z;
}.

(** ** More of [modal]: the keys of guide mode and of both modes *)

Section Handlers.
Context `{ContourClasses} `{!HostValues}.

Definition with_snap (s : Snap) (o : Operator) : Operator :=
  mkOperator (cut_paths o) (cut_lines o) (selected o) (selected_path o) (draw_cache o)
    (op_segments o) (force_new o) (drag o) s (mode o) (modal_state o) (settings o).

Definition with_existing_head {R} (h : option vert_list) (p : ContourCutSeries R)
  : ContourCutSeries R :=
  mkSeries (cuts p) (segments p) (ring_segments p) (seg_lock p) (ring_lock p)
    h (existing_tail p) (select p) (highlight p) (raw_world p) (pgeom p).

Definition with_ring_lock {R} (b : bool) (p : ContourCutSeries R) : ContourCutSeries R :=
  mkSeries (cuts p) (segments p) (ring_segments p) (seg_lock p) b
    (existing_head p) (existing_tail p) (select p) (highlight p) (raw_world p) (pgeom p).

(** Modelled from the spec: [highlight] of a series sets its presentation
    flag (3, Path). *)
Definition highlight_series (l : loc) : M unit := update_series l (with_highlight true).

(** Modelled from the spec: [deselect] of a cut line clears its selection
    flag. *)
Definition cut_deselect (l : loc) : M unit := update_line l (with_cut_select false).

(** The N key while waiting, the same in loop mode (lines 1192-1198) and
    in guide mode (lines 1572-1578):
    [self.force_new = self.force_new != True] and [self.snap = None]. *)
Definition modal_force_new : M unit :=
  modify_op (λ o, with_force_new (negb (force_new o)) o) ;;;
  modify_op (with_snap SnapNone).

(** TAB while waiting in loop mode, lines 1178-1190; the event matches no
    later branch and [modal] returns at line 1387. *)
Definition modal_loop_tab : M unit :=
  modify_op (with_mode GUIDE) ;;;
  set_selected None ;;;
  w <- get ;;
  match selected_path (op w) with
  | Some sp => highlight_series sp
  | None => ret tt
  end.

(** TAB while waiting in guide mode, lines 1552-1564. *)
Definition modal_guide_tab : M unit :=
  modify_op (with_mode LOOP) ;;;
  w <- get ;;
  match selected_path (op w) with
  | Some sp => unhighlight sp
  | None => ret tt
  end.

(** What is under the mouse, [self.hover_target], as the press in guide
    mode tells it apart: nothing, a cut series, or something else. *)
Inductive Hover := HoverNone | HoverSeries (l : loc) | HoverOther.

(** The press of the left button while waiting in guide mode,
    lines 1586-1599. *)
Definition modal_guide_press (hover : Hover) : M unit :=
  match hover with
  | HoverSeries h =>
      do_select h ;;;
      set_selected_path (Some h) ;;;
      w <- get ;;
      for_each (cut_paths (op w)) (λ path,
        if bool_decide (path ≠ h) then deselect path else ret tt)
  | _ =>
      create_undo_snapshot "DRAW_PATH" ;;;
      modify_op (with_modal_state DRAWING)
  end.

(** A move of the mouse while drawing, lines 1692-1699. *)
Definition modal_drawing_move (ev : Event) : M unit :=
  modify_op (λ o,
    with_draw_cache (draw_cache o ++ [(mouse_region_x ev, mouse_region_y ev)]) o).

(** X or DEL while waiting in guide mode, lines 1601-1611; without a
    selected series the branch is not entered. *)
Definition modal_guide_delete : M unit :=
  w <- get ;;
  match selected_path (op w) with
  | None => ret tt
  | Some sp =>
      create_undo_snapshot "DELETE" ;;;
      w1 <- get ;;
      match list_remove sp (cut_paths (op w1)) with
      | Some l =>
          modify_op (with_cut_paths l) ;;;
          set_selected_path None ;;;
          modify_op (with_modal_state WAITING)
      | None => raise ValueError
      end
  end.

(** [guide_arrow_shift], lines 1033-1044: every cut of the selected
    series is shifted by 0.05, to the left on LEFT_ARROW and to the right
    on any other event, and resampled. *)
Definition guide_arrow_shift (ctx : context) (ev : Event) : M unit :=
  w <- get ;;
  match selected_path (op w) with
  | None => raise AttributeError
  | Some sp =>
      p <- get_series sp ;;
      let step := if bool_decide (ev_type ev = "LEFT_ARROW"%string)
                  then fl_0_05 else fl_neg_0_05 in
      for_each (cuts p) (λ cut,
        update_line cut (λ c, with_shift (fl_add (shift c) step) c) ;;;
        q <- get_series sp ;;
        simplify_cross (ring_segments q) cut) ;;;
      connect_cuts_to_make_mesh ctx sp ;;;
      update_visibility ctx sp
  end.

(** LEFT_ARROW or RIGHT_ARROW pressed while waiting in guide mode,
    lines 1613-1621; without a selected series the branch is not
    entered. *)
Definition modal_guide_arrow (ctx : context) (ev : Event) : M unit :=
  w <- get ;;
  match selected_path (op w) with
  | None => ret tt
  | Some _ =>
      create_undo_snapshot "PATH_SHIFT" ;;;
      guide_arrow_shift ctx ev
  end.

(** The guard of the segment event of guide mode, lines 1623-1624: the
    wheel needs [ctrl], the numpad key only has to be pressed. *)
Definition is_path_segments_event (ev : Event) : bool :=
  (bool_decide (ev_type ev ∈ ["WHEELUPMOUSE"; "WHEELDOWNMOUSE"]%string) && ev_ctrl ev)
  || (bool_decide (ev_type ev ∈ ["NUMPAD_PLUS"; "NUMPAD_MINUS"]%string)
      && bool_decide (ev_value ev = "PRESS"%string)).

(** The segment count the event asks for: one more, or one less down
    to 3. *)
Definition stepped_segments (old : Z) (ev : Event) : Z :=
  if bool_decide (ev_type ev ∈ ["WHEELUPMOUSE"; "NUMPAD_PLUS"]%string) then (old + 1)%Z
  else if bool_decide (ev_type ev ∈ ["WHEELDOWNMOUSE"; "NUMPAD_MINUS"]%string)
          && bool_decide (3 < old)%Z then (old - 1)%Z
  else old.

(** The segment event of guide mode, lines 1623-1651; without a selected
    series the branch is not entered. *)
Definition modal_path_segments (ctx : context) (ev : Event) : M unit :=
  w <- get ;;
  match selected_path (op w) with
  | None => ret tt
  | Some sp =>
      p <- get_series sp ;;
      (if bool_decide (ev_type ev ∈ ["WHEELUPMOUSE"; "NUMPAD_PLUS"]%string) then
         if negb (seg_lock p) then
           create_undo_snapshot "PATH_SEGMENTS" ;;;
           update_series sp (λ q, with_segments (segments q + 1) q)
         else ret tt
       else if bool_decide (ev_type ev ∈ ["WHEELDOWNMOUSE"; "NUMPAD_MINUS"]%string)
               && bool_decide (3 < segments p)%Z then
         if negb (seg_lock p) then
           create_undo_snapshot "PATH_SEGMENTS" ;;;
           update_series sp (λ q, with_segments (segments q - 1) q)
         else ret tt
       else ret tt) ;;;
      p1 <- get_series sp ;;
      if negb (seg_lock p1) then
        create_cut_nodes ctx sp ;;;
        snap_to_object ctx sp ;;;
        cuts_on_path ctx sp ;;;
        connect_cuts_to_make_mesh ctx sp ;;;
        update_visibility ctx sp ;;;
        backbone_from_cuts ctx sp ;;;
        p2 <- get_series sp ;;
        match last (cuts p2) with
        | Some c => set_selected (Some c)
        | None => raise IndexError
        end
      else ret tt
  end.

(** [click_new_cut], lines 876-887. *)
Definition click_new_cut (ev : Event) : M loc :=
  new_cut <- new_line (ContourCutLine_init (mouse_region_x ev) (mouse_region_y ev)) ;;
  w <- get ;;
  for_each (cut_paths (op w)) (λ path,
    p <- get_series path ;;
    for_each (cuts p) cut_deselect) ;;;
  cut_do_select new_cut ;;;
  modify_op (λ o, with_cut_lines (cut_lines o ++ [new_cut]) o) ;;;
  ret new_cut.

(** The press of the left button while waiting in loop mode with nothing
    under the mouse, lines 1286-1293. *)
Definition modal_loop_press_cut (ev : Event) : M unit :=
  create_undo_snapshot "CUTTING" ;;;
  modify_op (with_modal_state CUTTING) ;;;
  c <- click_new_cut ev ;;
  set_selected (Some c).

(** [invoke] as far as it writes the operator and the cut series:
    lines 1774-1792, 1847-1863 and 1993-2037.  What it gets from the host
    is given: the preferences with their [recover] flag, the edge loop
    selected in edit mode when there is one that is used, and whether the
    mesh cache is valid.  The operator is a new object, so every attribute
    has the value [invoke] gives it.  The assignment at line 2037 binds a
    local name: the module's undo cache is not written. *)
Definition invoke_state (ctx : context) (st : Settings) (recover : bool)
    (existing_loop : option vert_list) (is_valid : bool) : M unit :=
  modify_op (λ _, mkOperator [] [] None None [] (vertex_count st)
                    false false SnapEmpty LOOP WAITING st) ;;;
  match existing_loop with
  | Some lp =>
      path <- new_series (ContourCutSeries_init ctx [] None None st) ;;
      update_series path (with_existing_head (Some lp)) ;;;
      update_series path (with_seg_lock false) ;;;
      update_series path (with_ring_lock true) ;;;
      update_series path (with_ring_segments (loop_size lp)) ;;;
      connect_cuts_to_make_mesh ctx path ;;;
      update_visibility ctx path ;;;
      modify_op (λ o, with_cut_paths (cut_paths o ++ [path]) o)
  | None => ret tt
  end ;;;
  w <- get ;;
  set_selected_path (last (cut_paths (op w))) ;;;
  if recover && is_valid then undo_action else ret tt.

End Handlers.

(** ** Sequences of calls on the undo cache *)

Section Sessions.
Context `{ContourTypes}.

(** What happens to the cache and the live graph in a session: a
    snapshot call, an undo, or a change of the live graph. *)
Inductive CacheCall :=
  | Snapshot (action : string)
  | Undo
  | Change (ms : list Mutation).

(** One call.  A call that raises and a change that is not allowed leave
    the state as it was. *)
Definition run_call (w : World) (c : CacheCall) : World :=
  match c with
  | Snapshot action => final (create_undo_snapshot action w)
  | Undo => final (undo_action w)
  | Change ms => default w (mutate ms w)
  end.

Definition run_calls (cs : list CacheCall) (w : World) : World :=
  foldl run_call w cs.

(** A gesture: changes that follow one another under one label, each
    with its call of [create_undo_snapshot] before it. *)
Fixpoint run_gesture (action : string) (mss : list (list Mutation)) (w : World)
  : option World :=
  match mss with
  | [] => Some w
  | ms :: rest =>
      match create_undo_snapshot action w with
      | Ret _ w1 => w2 ← mutate ms w1; run_gesture action rest w2
      | Raise _ _ => None
      end
  end.

(** The state [w'] has the cache of [w], and the objects of its entries
    are what they are in [w]. *)
Definition keeps_cache (w w' : World) : Prop :=
  contour_undo_cache w' = contour_undo_cache w
  ∧ settings (op w') = settings (op w)
  ∧ length (paths w) ≤ length (paths w')
  ∧ length (lines w) ≤ length (lines w')
  ∧ (∀ l, l ∈ owned_series w → paths w' !! l = paths w !! l)
  ∧ (∀ c, c ∈ owned_lines w → lines w' !! c = lines w !! c).

(** The series a handler may write after a snapshot that left the state
    [w1]: those of [cut_paths] then, and the objects made since. *)
Definition tracked (w1 : World) (l : loc) : Prop :=
  l ∈ cut_paths (op w1) ∨ length (paths w1) ≤ l.

(** What the handlers keep after a snapshot that left the state [w1]: the
    cache and the objects of its entries; a [cut_paths] of tracked series;
    and tracked series whose cuts are objects of no entry. *)
Definition apart_from (w1 w : World) : Prop :=
  keeps_cache w1 w
  ∧ (∀ l, l ∈ cut_paths (op w) → tracked w1 l)
  ∧ (∀ l p, tracked w1 l → paths w !! l = Some p →
       Forall (λ c, c ∉ owned_lines w1) (cuts p)).

(** A call that takes the states of [P] to results of [Q] when it
    returns. *)
Definition triple {A} (P : World → Prop) (m : M A) (Q : A → World → Prop) : Prop :=
  ∀ w a w', P w → m w = Ret a w' → Q a w'.

End Sessions.

(** ** The mesh cache of the module (lines 72-121) *)

Section MeshCacheModel.
Context `{ContourTypes}.

(** What the code reads of a mesh and of an object of the scene. *)
Record Mesh := mkMesh {
  me_name : string;
  me_vertices : list vert;      (* [v.co for v in me.vertices] *)
  me_edges : nat;               (* [len(me.edges)] *)
  me_polygons : nat;            (* [len(me.polygons)] *)
}.

Record BObject := mkBObject {
  ob_name : string;
  ob_type : string;
  ob_data : option Mesh;        (* [None]: data that is no mesh *)
  ob_modifiers : nat;           (* [len(ob.modifiers)] *)
}.

(** The value [object_validation] returns:
    [(ob.name, counts, bbox, vsum)]. *)
Definition Validation : Type :=
  string * (nat * nat * nat * nat) * (list fl * list fl) * list fl.

(** A value or the exception raised instead. *)
Inductive outcome (A : Type) :=
  | Value (a : A)
  | Error (e : exn).
#[global] Arguments Value {A}.
#[global] Arguments Error {A}.

End MeshCacheModel.

(** The part of Blender the mesh cache is cleared into: the bmesh that is
    freed, and [bpy.data.objects] and [bpy.data.meshes] with their
    membership by name and their [remove]. *)
Class BlenderData `{ContourTypes} := {
  bmesh_t : Type;
  host : Type;
  bm_free : bmesh_t → host → host;
  user_clear : BObject → host → host;
  objects_contains : string → host → bool;
  objects_remove : BObject → host → host;
  meshes_contains : string → host → bool;
  meshes_remove : Mesh → host → host;
}.

Section MeshCache.
Context `{ContourTypes} `{!HostValues} `{!BlenderData}.

(** [min] and [max] of Python on a sequence: the first item stays until
    one compares smaller, or greater; nothing for an empty sequence, where
    Python raises [ValueError]. *)
Definition py_min (vs : list vert) : option vert :=
  match vs with
  | [] => None
  | v :: r => Some (foldl (λ best x, if vert_lt x best then x else best) v r)
  end.

Definition py_max (vs : list vert) : option vert :=
  match vs with
  | [] => None
  | v :: r => Some (foldl (λ best x, if vert_gt x best then x else best) v r)
  end.

(** [object_validation], lines 72-80.  The counts come first and need
    mesh data; the bounding box needs a vertex. *)
Definition object_validation (ob : BObject) : outcome Validation :=
  match ob_data ob with
  | None => Error AttributeError
  | Some me =>
      let counts :=
        (length (me_vertices me), me_edges me, me_polygons me, ob_modifiers ob) in
      match py_min (me_vertices me), py_max (me_vertices me) with
      | Some lo, Some hi =>
          Value (ob_name ob, counts, (vert_tuple lo, vert_tuple hi),
                 vert_tuple (foldl vert_add vert_zero (me_vertices me)))
      | _, _ => Error ValueError
      end
  end.

(** [==] on tuples of floats, and on the tuples [object_validation]
    makes. *)
Fixpoint tuple_eqb (xs ys : list fl) : bool :=
  match xs, ys with
  | [], [] => true
  | x :: xs', y :: ys' => fl_eqb x y && tuple_eqb xs' ys'
  | _, _ => false
  end.

Definition validation_eqb (a b : Validation) : bool :=
  bool_decide (a.1.1.1 = b.1.1.1)
  && bool_decide (a.1.1.2 = b.1.1.2)
  && (tuple_eqb a.1.2.1 b.1.2.1 && tuple_eqb a.1.2.2 b.1.2.2)
  && tuple_eqb a.2 b.2.

(** The dictionary [contour_mesh_cache].  It is written under three keys
    only, each with values of one kind, so it is a record of three
    entries that are there or not.  Under ['tmp'] the value is an object
    or [None]. *)
Record MeshCache := mkMeshCache {
  mc_valid : option Validation;
  mc_bme : option bmesh_t;
  mc_tmp : option (option BObject);
}.

Definition empty_mesh_cache : MeshCache := mkMeshCache None None None.

(** [is_object_valid], lines 83-87. *)
Definition is_object_valid (ob : BObject) (c : MeshCache) : outcome bool :=
  match mc_valid c with
  | None => Value false
  | Some v =>
      match object_validation ob with
      | Value v' => Value (validation_eqb v v')
      | Error e => Error e
      end
  end.

(** [del contour_mesh_cache[key]] for each of the three keys. *)
Definition del_valid (c : MeshCache) : MeshCache := mkMeshCache None (mc_bme c) (mc_tmp c).
Definition del_bme (c : MeshCache) : MeshCache := mkMeshCache (mc_valid c) None (mc_tmp c).
Definition del_tmp (c : MeshCache) : MeshCache := mkMeshCache (mc_valid c) (mc_bme c) None.

(** [clear_mesh_cache], lines 99-121.  An entry goes when its key is
    there and its value is true: a tuple of four and a bmesh are, an
    object is, [None] is not. *)
Definition clear_mesh_cache (s : host * MeshCache) : host * MeshCache :=
  let '(h, c) := s in
  let c1 := match mc_valid c with Some _ => del_valid c | None => c end in
  let '(h1, c2) :=
    match mc_bme c1 with
    | Some bme_old => (bm_free bme_old h, del_bme c1)
    | None => (h, c1)
    end in
  match mc_tmp c2 with
  | Some (Some old_obj) =>
      let old_me := ob_data old_obj in
      let h2 := user_clear old_obj h1 in
      let h3 := if objects_contains (ob_name old_obj) h2
                then objects_remove old_obj h2 else h2 in
      let h4 := match old_me with
                | Some me => if meshes_contains (me_name me) h3
                             then meshes_remove me h3 else h3
                | None => h3
                end in
      (h4, del_tmp c2)
  | _ => (h1, c2)
  end.

(** [write_mesh_cache], lines 90-96. *)
Definition write_mesh_cache (orig_ob : BObject) (tmp_ob : option BObject)
    (bme : bmesh_t) (s : host * MeshCache) : outcome unit * (host * MeshCache) :=
  let '(h, c) := clear_mesh_cache s in
  match object_validation orig_ob with
  | Value v => (Value tt, (h, mkMeshCache (Some v) (Some bme) (Some tmp_ob)))
  | Error e => (Error e, (h, c))
  end.

(** The calls that write the mesh cache. *)
Inductive MeshCacheCall :=
  | ClearCache
  | WriteCache (orig_ob : BObject) (tmp_ob : option BObject) (bme : bmesh_t).

Definition run_mesh_call (s : host * MeshCache) (c : MeshCacheCall)
  : host * MeshCache :=
  match c with
  | ClearCache => clear_mesh_cache s
  | WriteCache o t b => (write_mesh_cache o t b s).2
  end.

(** ** [poll] and the surface [invoke] picks in edit mode *)

(** What [poll] and [invoke] read of the context. *)
Record BContext := mkBContext {
  ctx_mode : string;
  ctx_active_object : option BObject;
  ctx_object : option BObject;
  ctx_selected_objects : list BObject;
}.

(** [poll], lines 659-673. *)
Definition poll (c : BContext) : outcome bool :=
  if negb (bool_decide (ctx_mode c ∈ ["EDIT_MESH"; "OBJECT"]%string)) then Value false
  else
    match ctx_active_object c with
    | Some _ =>
        if bool_decide (ctx_mode c = "EDIT_MESH"%string) then
          Value (bool_decide (1 < length (ctx_selected_objects c)))
        else
          match ctx_object c with
          | Some ob => Value (bool_decide (ob_type ob = "MESH"%string))
          | None => Error AttributeError
          end
    | None => Value false
    end.

(** Lines 1798-1808 of [invoke]: in edit mode the active object is the
    destination, and the surface is the first selected object with
    another name. *)
Definition edit_mode_target (c : BContext) : outcome BObject :=
  match ctx_object c with
  | None => Error AttributeError
  | Some dest =>
      match filter (λ ob, ob_name ob ≠ ob_name dest) (ctx_selected_objects c) with
      | target :: _ => Value target
      | [] => Error IndexError
      end
  end.

End MeshCache.

(** ** A concrete geometry *)

(** Whole numbers for floats and vectors, and simple stand-ins for the
    geometric computations: enough to run the operator on examples.  A
    number of a thousand million or more in size stands for an infinity. *)
Module Demo.

Definition demo_types : ContourTypes :=
  {| fl := Z; vert := Z; cut_geom := nat; path_geom := nat;
     vert_list := unit; context := unit |}.

#[local] Existing Instance demo_types.

Definition demo_insertion_place (_ : unit) (search : Z)
    (p : ContourCutSeries (option ContourCutLine)) (c : ContourCutLine) : option nat :=
  if bool_decide (ring_segments p = Z.of_nat (length (verts_simple c)))
  then Some (length (cuts p)) else None.

Definition demo_classes : ContourClasses :=
  {| hit_test := λ _ c, bool_decide (0 ≤ shift c)%Z;
     hit_geom := λ _ c, 1;
     cross_section := λ _ c, (if bool_decide (shift c = 0)%Z then [] else [10; 20; 30; 40; 50]%Z, 2);
     resample := λ n c, take (Z.to_nat n) (verts c);
     com_geom := λ c, 3;
     screen_geom := λ _ c, 4;
     visible_geom := λ _ c, 5;
     shift_rescale := λ new old x, (new * x / old)%Z;
     shift_bulk := λ old new x, Some (x * old / new)%Z;
     fl_kind := λ x, if bool_decide (Z.abs x < 1000000000)%Z then Finite else Infinite;
     fl_nearest := λ x, x;
     default_segments := 10%Z;
     default_ring_segments := 10%Z;
     stroke_geom := λ _ raw _, length raw;
     ray_cast := λ _ g, repeat 0%Z (g - 11);
     knots_geom := λ _ g, g;
     smooth_geom := λ _ g, g;
     nodes_geom := λ _ _ g, g;
     snapped_geom := λ _ g, g;
     node_cuts := λ _ n g, [mkCut None None 0%Z [1; 2; 3]%Z [1; 2; 3]%Z false 0];
     bridge_geom := λ _ p, 6;
     backbone_geom := λ _ p, 7;
     backbone_cut_geom := λ _ p c, 8;
     insertion_place := demo_insertion_place;
     inserted_ring_segments := λ p c, ring_segments p;
     merged_ring_segments := λ p cs, ring_segments p;
     splice_cuts := λ _ old new, old ++ new |}.

Definition demo_settings (depth : nat) : Settings :=
  mkSettings depth 4 3 5%Z 4 5 4.

Definition demo_operator (depth : nat) : Operator :=
  mkOperator [] [] None None [] 4 false false SnapEmpty LOOP WAITING (demo_settings depth).

(** A cut line with its cross-section taken, and a series around cuts. *)
Definition demo_cut (s : Z) : ContourCutLine :=
  mkCut None None s [10; 20; 30; 40; 50]%Z [10; 20; 30; 40]%Z false 0.

Definition demo_series (cs : list loc) (n : Z) (locked : bool) : ContourCutSeries loc :=
  mkSeries cs 1 n false locked None None false false [] 0.

(** A session with nothing drawn yet. *)
Definition world0 (depth : nat) : World :=
  mkWorld [] [] (demo_operator depth) [].

(** One series of one cut, both selected, and an empty undo cache. *)
Definition world1 (depth : nat) (locked : bool) : World :=
  mkWorld [demo_series [0] 4 locked] [demo_cut 2]
    (with_selected (Some 0) (with_selected_path (Some 0)
       (with_cut_paths [0] (demo_operator depth)))) [].

(** Two operations: a cut placed in a new series, then the series
    deleted. *)
Definition place_then_delete : list (string * list Mutation) :=
  [("CUTTING"%string,
    [NewLine (demo_cut 1); NewSeries (demo_series [0] 4 false); SetCutPaths [0]]);
   ("DELETE"%string, [SetCutPaths []])].

Definition after_place_then_delete (depth : nat) : World :=
  default (world0 depth) (run_ops place_then_delete (world0 depth)).

(** A cache that holds more entries than the depth set afterwards. *)
Definition world_deep_cache : World :=
  mkWorld [] [] (demo_operator 1)
    [([], mkPreserver LOOP WAITING None None, "CUTTING"%string);
     ([], mkPreserver LOOP WAITING None None, "DELETE"%string)].

Definition demo_event (type : string) (x y : Z) : Event :=
  mkEvent type "PRESS" true false x y.

(** While cutting: a line from (0, 0), not yet in a series, next to the
    series of [world1]. *)
Definition world_cutting : World :=
  mkWorld [demo_series [0] 4 false]
    [demo_cut 2; mkCut (Some (0, 0)%Z) (Some (0, 0)%Z) (-1)%Z [] [] true 0]
    (with_modal_state CUTTING (with_cut_lines [1] (with_selected (Some 1)
       (with_selected_path (Some 0) (with_cut_paths [0] (demo_operator 10)))))) [].

(** While drawing in guide mode, [n] points recorded. *)
Definition world_drawing (n : nat) : World :=
  mkWorld [with_select true (demo_series [0] 4 false)] [demo_cut 2]
    (with_modal_state DRAWING (with_mode GUIDE (with_draw_cache (repeat (0, 0)%Z n)
       (with_selected_path (Some 0) (with_cut_paths [0] (demo_operator 10)))))) [].

(** A cut with its cross-section taken, at location 0 and among the
    unattached lines, and one series of one cut for each ring count in
    [rings].  The demo geometry lets a series take the cut when the ring
    count is the number of its simplified vertices, 4. *)
Definition world_placing (rings : list Z) : World :=
  mkWorld (imap (λ i n, demo_series [S i] n false) rings)
    (demo_cut 2 :: ((λ _, demo_cut 3) <$> rings))
    (with_cut_lines [0] (with_selected (Some 0)
       (with_cut_paths (seq 0 (length rings)) (demo_operator 10)))) [].

(** Whole numbers again for the values of the host: a shift counted in
    hundredths, a vector of one coordinate, a line born with both ends at
    the click. *)
Definition demo_host : HostValues :=
  {| fl_eqb := Z.eqb; fl_add := Z.add; fl_0_05 := 5%Z; fl_neg_0_05 := (-5)%Z;
     vert_lt := Z.ltb; vert_gt := Z.gtb; vert_add := Z.add; vert_zero := 0%Z;
     vert_tuple := λ v, [v];
     ContourCutLine_init := λ x y, mkCut (Some (x, y)) (Some (x, y)) 0%Z [] [] false 0;
     loop_size := λ _, 8%Z |}.

(** Blender as the journal of the calls made on it. *)
Definition demo_blender : BlenderData :=
  {| bmesh_t := nat; host := list string;
     bm_free := λ _ h, h ++ ["free"%string];
     user_clear := λ _ h, h ++ ["user_clear"%string];
     objects_contains := λ _ _, true;
     objects_remove := λ _ h, h ++ ["objects.remove"%string];
     meshes_contains := λ _ _, true;
     meshes_remove := λ _ h, h ++ ["meshes.remove"%string] |}.

Definition demo_object (name : string) (vs : list Z) : BObject :=
  mkBObject name "MESH" (Some (mkMesh (name +:+ "_mesh") vs 0 0)) 0.

(** Edit mode on the retopology mesh, with the form selected as well. *)
Definition demo_context : BContext :=
  mkBContext "EDIT_MESH" (Some (demo_object "retopo" [])) (Some (demo_object "retopo" []))
    [demo_object "retopo" []; demo_object "form" [1; 2; 3]%Z].

(** The state of [world1] with one snapshot in the cache. *)
Definition world1_snapped (depth : nat) : World :=
  take_snapshot "CUTTING" (world1 depth false).

(** The series of [world1], segment-locked. *)
Definition world_seg_locked : World :=
  with_paths [with_seg_lock true (demo_series [0] 4 false)] (world1 10 false).

(** While drawing, after the N key has set [snap] to [None]. *)
Definition world_snap_none (n : nat) : World :=
  with_op (with_snap SnapNone (op (world_drawing n))) (world_drawing n).

Definition demo_moves (n : nat) : list Event :=
  repeat (demo_event "MOUSEMOVE" 1 1) n.

(** Two changes of the shift of the cut of [world1]. *)
Definition shift_gesture : list (list Mutation) :=
  [[WriteLine 0 (demo_cut 3)]; [WriteLine 0 (demo_cut 4)]].

Definition demo_session : list CacheCall :=
  [Snapshot "CUTTING"; Change [WriteLine 0 (demo_cut 7)]; Snapshot "LOOP_SHIFT";
   Undo; Undo; Undo].

End Demo.

(** * Properties *)

(** ** Python list primitives *)

Section ListFacts.
Context {A : Type}.
Implicit Types (l : list A) (x : A).

Lemma list_pop_snoc l x : list_pop (l ++ [x]) = Some (l, x).
Proof. unfold list_pop. rewrite rev_app_distr. simpl. by rewrite rev_involutive. Qed.

Lemma list_pop_nil : list_pop (@nil A) = None.
Proof. reflexivity. Qed.

Lemma list_pop_Some l l' x : list_pop l = Some (l', x) → l = l' ++ [x].
Proof.
  destruct l as [|y l _] using rev_ind; [done|].
  rewrite list_pop_snoc. by intros [= <- <-].
Qed.

Lemma drop_1_snoc_length l x n :
  length l ≤ n → length (if bool_decide (n < length (l ++ [x])) then drop 1 (l ++ [x]) else l ++ [x]) ≤ n.
Proof.
  intros Hl. case_bool_decide as Hn; [|lia].
  rewrite length_drop, length_app. simpl. lia.
Qed.

End ListFacts.

Section CopyFacts.
Context `{ContourTypes}.
Implicit Types (ps : list (ContourCutSeries loc)) (ls : list ContourCutLine).
Implicit Types (s : CopyState) (l c : loc).

Lemma copy_inv_init ps ls : copy_inv ps ls (mkCopy ps ls ∅ ∅).
Proof. split; simpl; try done. Qed.

Lemma prefix_lookup {B} (l1 l2 : list B) i :
  l1 `prefix_of` l2 → i < length l1 → l2 !! i = l1 !! i.
Proof. intros [k ->] Hi. by rewrite lookup_app_l. Qed.

Lemma deepcopy_line_spec ps ls s c c' s' :
  copy_inv ps ls s → c < length ls → deepcopy_line c s = (c', s') →
  copy_inv ps ls s' ∧ memo_lines s' !! c = Some c'
  ∧ memo_lines s ⊆ memo_lines s' ∧ memo_paths s' = memo_paths s
  ∧ cp_paths s' = cp_paths s.
Proof.
  intros Hi Hc. unfold deepcopy_line.
  destruct (memo_lines s !! c) as [c0|] eqn:Hm.
  { intros [= <- <-]. done. }
  assert (cp_lines s !! c = ls !! c) as Hlk by (apply prefix_lookup; [apply Hi|done]).
  destruct (lookup_lt_is_Some_2 ls c Hc) as [x Hx].
  rewrite Hlk, Hx. intros [= <- <-]. simpl.
  destruct Hi as [Hp Hl Hml Hmp].
  assert (length ls ≤ length (cp_lines s)) as Hlen by (by apply prefix_length).
  split_and!; [split; simpl| | | |]; try done.
  - by apply prefix_app_r.
  - intros d d'. rewrite lookup_insert_Some. intros [[<- <-]|[Hne Hd]].
    + split_and!; [done|by eexists|].
      rewrite lookup_app_r, Nat.sub_diag by done. by rewrite Hx.
    + destruct (Hml _ _ Hd) as (?&?&Hd'). split_and!; [done..|].
      rewrite lookup_app_l; [done|]. apply lookup_lt_is_Some. rewrite Hd'. done.
  - intros l l' Hl'. destruct (Hmp _ _ Hl') as (?&p&cs&?&?&HF).
    split; [done|]. exists p, cs. split_and!; [done..|].
    eapply Forall2_impl; [exact HF|]. simpl. intros d d' Hd.
    rewrite lookup_insert_ne; [done|]. intros ->. congruence.
  - by rewrite lookup_insert_eq.
  - by apply insert_subseteq.
Qed.

Lemma deepcopy_lines_spec ps ls cs : ∀ s cs' s',
  copy_inv ps ls s → Forall (λ c, c < length ls) cs →
  deepcopy_lines cs s = (cs', s') →
  copy_inv ps ls s' ∧ Forall2 (λ c c', memo_lines s' !! c = Some c') cs cs'
  ∧ memo_lines s ⊆ memo_lines s' ∧ memo_paths s' = memo_paths s
  ∧ cp_paths s' = cp_paths s.
Proof.
  induction cs as [|c cs IH]; intros s cs' s' Hi Hv; simpl.
  { intros [= <- <-]. by split_and!. }
  apply Forall_cons in Hv as [Hc Hv].
  destruct (deepcopy_line c s) as [c1 s1] eqn:E1.
  destruct (deepcopy_lines cs s1) as [cs2 s2] eqn:E2.
  intros [= <- <-].
  destruct (deepcopy_line_spec _ _ _ _ _ _ Hi Hc E1) as (Hi1 & Hm1 & Hsub1 & Hp1 & Hq1).
  destruct (IH _ _ _ Hi1 Hv E2) as (Hi2 & HF & Hsub2 & Hp2 & Hq2).
  split_and!; try done.
  - constructor; [|done]. by eapply lookup_weaken.
  - by etrans.
  - congruence.
  - congruence.
Qed.

Lemma deepcopy_series_spec ps ls s l l' s' :
  copy_inv ps ls s → l < length ps →
  (∀ p, ps !! l = Some p → Forall (λ c, c < length ls) (cuts p)) →
  deepcopy_series l s = (l', s') →
  copy_inv ps ls s' ∧ memo_paths s' !! l = Some l'
  ∧ memo_lines s ⊆ memo_lines s' ∧ memo_paths s ⊆ memo_paths s'.
Proof.
  intros Hi Hl Hv. unfold deepcopy_series.
  destruct (memo_paths s !! l) as [l0|] eqn:Hm.
  { intros [= <- <-]. done. }
  assert (cp_paths s !! l = ps !! l) as Hlk by (apply prefix_lookup; [apply Hi|done]).
  destruct (lookup_lt_is_Some_2 ps l Hl) as [p Hp].
  rewrite Hlk, Hp.
  destruct (deepcopy_lines (cuts p) s) as [cs s1] eqn:E1.
  intros [= <- <-]. simpl.
  destruct (deepcopy_lines_spec _ _ _ _ _ _ Hi (Hv _ Hp) E1) as (Hi1 & HF & Hsub & Hmp1 & Hcp1).
  destruct Hi1 as [Hpp Hll Hml Hmpp].
  assert (length ps ≤ length (cp_paths s1)) as Hlen by (by apply prefix_length).
  split_and!; [split; simpl| | |]; try done.
  - by apply prefix_app_r.
  - intros k k'. rewrite lookup_insert_Some. intros [[<- <-]|[Hne Hk]].
    + split; [done|]. exists p, cs. split_and!; [done| |done].
      by rewrite lookup_app_r, Nat.sub_diag.
    + destruct (Hmpp _ _ Hk) as (?&q&qs&?&Hq&?). split; [done|].
      exists q, qs. split_and!; [done| |done].
      rewrite lookup_app_l; [done|]. apply lookup_lt_is_Some. by rewrite Hq.
  - by rewrite lookup_insert_eq.
  - rewrite Hmp1. by apply insert_subseteq.
Qed.

Lemma Forall2_memo_weaken (m m' : gmap loc loc) (xs ys : list loc) :
  m ⊆ m' → Forall2 (λ c c', m !! c = Some c') xs ys →
  Forall2 (λ c c', m' !! c = Some c') xs ys.
Proof.
  intros Hsub HF. eapply Forall2_impl; [exact HF|].
  simpl. intros. by eapply lookup_weaken.
Qed.

Lemma deepcopy_list_spec ps ls roots : ∀ s roots' s',
  copy_inv ps ls s → valid_roots ps ls roots →
  deepcopy_list roots s = (roots', s') →
  copy_inv ps ls s'
  ∧ Forall2 (λ l l', memo_paths s' !! l = Some l') roots roots'
  ∧ memo_lines s ⊆ memo_lines s' ∧ memo_paths s ⊆ memo_paths s'.
Proof.
  induction roots as [|l roots IH]; intros s roots' s' Hi [Hv1 Hv2]; simpl.
  { intros [= <- <-]. by split_and!. }
  apply Forall_cons in Hv1 as [Hl Hv1].
  unfold series_lines in Hv2. simpl in Hv2. apply Forall_app in Hv2 as [Hc Hv2].
  destruct (deepcopy_series l s) as [l1 s1] eqn:E1.
  destruct (deepcopy_list roots s1) as [r2 s2] eqn:E2.
  intros [= <- <-].
  assert (∀ p, ps !! l = Some p → Forall (λ c, c < length ls) (cuts p)) as Hcuts.
  { intros p Hp. by rewrite Hp in Hc. }
  destruct (deepcopy_series_spec _ _ _ _ _ _ Hi Hl Hcuts E1) as (Hi1 & Hm1 & Hs1 & Hs1').
  destruct (IH _ _ _ Hi1 (conj Hv1 Hv2) E2) as (Hi2 & HF & Hs2 & Hs2').
  split_and!; try done.
  - constructor; [|done]. by eapply lookup_weaken.
  - by etrans.
  - by etrans.
Qed.

End CopyFacts.

Section GraphFacts.
Context `{ContourTypes}.
Implicit Types (ps : list (ContourCutSeries loc)) (ls : list ContourCutLine).
Implicit Types (roots r : list loc) (rs : list (list loc)).

Lemma fmap_ext_elem_of {A B} (f g : A → B) (l : list A) :
  (∀ x, x ∈ l → f x = g x) → f <$> l = g <$> l.
Proof.
  intros Hfg. apply list_fmap_ext. intros i x Hx. apply Hfg.
  by eapply list_elem_of_lookup_2.
Qed.

Lemma Forall_sublist {A} (P : A → Prop) (l l' : list A) :
  l' `sublist_of` l → Forall P l → Forall P l'.
Proof.
  induction 1 as [|x l1 l2 Hs IH|x l1 l2 Hs IH]; [done|..].
  - intros [??]%Forall_cons. constructor; auto.
  - intros [??]%Forall_cons. auto.
Qed.

Lemma series_lines_nil ps : series_lines ps [] = [].
Proof. done. Qed.

Lemma series_lines_cons ps l roots :
  series_lines ps (l :: roots)
  = match ps !! l with Some p => cuts p | None => [] end ++ series_lines ps roots.
Proof. done. Qed.

Lemma series_lines_app ps r1 r2 :
  series_lines ps (r1 ++ r2) = series_lines ps r1 ++ series_lines ps r2.
Proof. unfold series_lines. by rewrite bind_app. Qed.

Lemma elem_of_series_lines ps roots c :
  c ∈ series_lines ps roots ↔ ∃ l p, l ∈ roots ∧ ps !! l = Some p ∧ c ∈ cuts p.
Proof.
  unfold series_lines. rewrite list_elem_of_bind. split.
  - intros (l & Hc & Hl). destruct (ps !! l) as [p|] eqn:E; [|by apply elem_of_nil in Hc].
    by exists l, p.
  - intros (l & p & Hl & Hp & Hc). exists l. by rewrite Hp.
Qed.

(** The series of [roots] are the same in [ps] and [ps']. *)
Lemma series_lines_ext ps ps' roots :
  (∀ l, l ∈ roots → ps' !! l = ps !! l) →
  series_lines ps' roots = series_lines ps roots.
Proof.
  induction roots as [|l roots IH]; intros Hext; [done|].
  rewrite !series_lines_cons, Hext by left.
  f_equal. apply IH. intros. apply Hext. by right.
Qed.

(** A graph reads the same when its own objects are the same. *)
Lemma read_graph_ext ps ls ps' ls' roots :
  (∀ l, l ∈ roots → ps' !! l = ps !! l) →
  (∀ c, c ∈ series_lines ps roots → ls' !! c = ls !! c) →
  read_graph ps' ls' roots = read_graph ps ls roots.
Proof.
  intros Hp Hl. unfold read_graph. apply fmap_ext_elem_of.
  intros l Hin. rewrite Hp by done.
  destruct (ps !! l) as [p|] eqn:E; [|done]. simpl. f_equal.
  unfold read_series. f_equal. apply fmap_ext_elem_of.
  intros c Hc. apply Hl. apply elem_of_series_lines. eauto.
Qed.

Lemma valid_roots_lookup ps ls roots l :
  valid_roots ps ls roots → l ∈ roots →
  ∃ p, ps !! l = Some p ∧ Forall (λ c, c < length ls) (cuts p).
Proof.
  intros [Hv1 Hv2] Hin.
  rewrite Forall_forall in Hv1. specialize (Hv1 _ Hin).
  destruct (lookup_lt_is_Some_2 ps l Hv1) as [p Hp]. exists p. split; [done|].
  rewrite Forall_forall in Hv2. apply Forall_forall. intros c Hc.
  apply Hv2. apply elem_of_series_lines. eauto.
Qed.

Lemma valid_roots_prefix ps ls ps' ls' roots :
  ps `prefix_of` ps' → ls `prefix_of` ls' →
  valid_roots ps ls roots →
  valid_roots ps' ls' roots ∧ series_lines ps' roots = series_lines ps roots.
Proof.
  intros Hp Hl Hv.
  assert (series_lines ps' roots = series_lines ps roots) as Heq.
  { apply series_lines_ext. intros l Hin. apply prefix_lookup; [done|].
    destruct Hv as [Hv _]. rewrite Forall_forall in Hv. by apply Hv. }
  split; [|done]. destruct Hv as [Hv1 Hv2]. split.
  - eapply Forall_impl; [exact Hv1|]. simpl. intros l ?.
    apply prefix_length in Hp. lia.
  - rewrite Heq. eapply Forall_impl; [exact Hv2|]. simpl. intros c ?.
    apply prefix_length in Hl. lia.
Qed.

(** Reading a valid graph is not affected by growth of the stores. *)
Lemma read_graph_prefix ps ls ps' ls' roots :
  ps `prefix_of` ps' → ls `prefix_of` ls' →
  valid_roots ps ls roots →
  read_graph ps' ls' roots = read_graph ps ls roots.
Proof.
  intros Hp Hl [Hv1 Hv2]. apply read_graph_ext.
  - intros l Hin. apply prefix_lookup; [done|].
    rewrite Forall_forall in Hv1. by apply Hv1.
  - intros c Hin. apply prefix_lookup; [done|].
    rewrite Forall_forall in Hv2. by apply Hv2.
Qed.

(** *** Pairwise disjoint regions *)

Lemma pairwise_disjoint_app rs1 rs2 :
  pairwise_disjoint (rs1 ++ rs2) ↔
  pairwise_disjoint rs1 ∧ pairwise_disjoint rs2
  ∧ Forall (λ r1, Forall (λ r2, r1 ## r2) rs2) rs1.
Proof.
  induction rs1 as [|r rs1 IH]; simpl.
  { split; [intros; split_and!; [done|done|constructor]|by intros (_&?&_)]. }
  rewrite Forall_app, Forall_cons, IH. tauto.
Qed.

Lemma pairwise_disjoint_sublist rs rs' :
  rs' `sublist_of` rs → pairwise_disjoint rs → pairwise_disjoint rs'.
Proof.
  induction 1 as [|r rs1 rs2 Hs IH|r rs1 rs2 Hs IH]; simpl; [done|..].
  - intros [HF Hp]. split; [|by apply IH]. by eapply Forall_sublist.
  - intros [_ Hp]. by apply IH.
Qed.

Lemma pairwise_disjoint_rotate rs d :
  pairwise_disjoint (rs ++ [d]) → pairwise_disjoint (d :: rs).
Proof.
  rewrite pairwise_disjoint_app. intros (Hp & _ & HF). simpl. split; [|done].
  eapply Forall_impl; [exact HF|]. simpl. intros r Hr.
  rewrite Forall_singleton in Hr. intros x ??. by eapply Hr.
Qed.

End GraphFacts.

Section SnapshotFacts.
Context `{ContourTypes}.
Implicit Types (ps : list (ContourCutSeries loc)) (ls : list ContourCutLine).
Implicit Types (roots r : list loc) (rs : list (list loc)) (w : World).

(** *** The result of a copy *)

Lemma copy_inv_memo_lines ps ls s (xs ys : list loc) :
  copy_inv ps ls s →
  Forall2 (λ c c', memo_lines s !! c = Some c') xs ys →
  ((λ c, cp_lines s !! c) <$> ys) = ((λ c, ls !! c) <$> xs)
  ∧ Forall (λ c, length ls ≤ c < length (cp_lines s)) ys.
Proof.
  intros Hi. induction 1 as [|c c' cs1 cs2 Hc _ [IH1 IH2]]; [done|].
  destruct (ci_memo_lines _ _ _ Hi _ _ Hc) as (? & Hs & Heq). split.
  - rewrite !fmap_cons. by rewrite Heq, IH1.
  - constructor; [|done]. split; [done|]. apply lookup_lt_is_Some. by rewrite Heq.
Qed.

Lemma copy_inv_memo_path ps ls s l l' :
  copy_inv ps ls s → memo_paths s !! l = Some l' →
  length ps ≤ l'
  ∧ (read_series (cp_lines s) <$> cp_paths s !! l') = (read_series ls <$> ps !! l)
  ∧ ∃ p', cp_paths s !! l' = Some p'
      ∧ Forall (λ c, length ls ≤ c < length (cp_lines s)) (cuts p').
Proof.
  intros Hi Hm. destruct (ci_memo_paths _ _ _ Hi _ _ Hm) as (Hge & p & cs & Hp & Hp' & HF).
  destruct (copy_inv_memo_lines _ _ _ _ _ Hi HF) as [Heq Hrange].
  split; [done|]. rewrite Hp, Hp'. simpl. split.
  - f_equal. unfold read_series. simpl. rewrite Heq. reflexivity.
  - eexists. split; [done|]. done.
Qed.

Lemma deepcopy_list_result ps ls roots roots' s' :
  valid_roots ps ls roots →
  deepcopy_list roots (mkCopy ps ls ∅ ∅) = (roots', s') →
  ps `prefix_of` cp_paths s' ∧ ls `prefix_of` cp_lines s'
  ∧ read_graph (cp_paths s') (cp_lines s') roots' = read_graph ps ls roots
  ∧ valid_roots (cp_paths s') (cp_lines s') roots'
  ∧ Forall (λ l, length ps ≤ l) roots'
  ∧ Forall (λ c, length ls ≤ c) (series_lines (cp_paths s') roots').
Proof.
  intros Hv E.
  destruct (deepcopy_list_spec _ _ _ _ _ _ (copy_inv_init ps ls) Hv E) as (Hi & HF & _ & _).
  clear Hv E.
  split_and!; [apply Hi|apply Hi|..].
  - unfold read_graph.
    induction HF as [|l l' r1 r2 Hl _ IH]; [done|]. simpl. f_equal; [|done].
    by destruct (copy_inv_memo_path _ _ _ _ _ Hi Hl) as (_ & -> & _).
  - split.
    + induction HF as [|l l' r1 r2 Hl _ IH]; constructor; [|done].
      destruct (copy_inv_memo_path _ _ _ _ _ Hi Hl) as (_ & _ & p' & Hp' & _).
      apply lookup_lt_is_Some. by rewrite Hp'.
    + induction HF as [|l l' r1 r2 Hl _ IH]; [constructor|].
      rewrite series_lines_cons. apply Forall_app. split; [|done].
      destruct (copy_inv_memo_path _ _ _ _ _ Hi Hl) as (_ & _ & p' & -> & HF').
      eapply Forall_impl; [exact HF'|]. simpl. lia.
  - induction HF as [|l l' r1 r2 Hl _ IH]; constructor; [|done].
    by destruct (copy_inv_memo_path _ _ _ _ _ Hi Hl) as (? & _).
  - induction HF as [|l l' r1 r2 Hl _ IH]; [constructor|].
    rewrite series_lines_cons. apply Forall_app. split; [|done].
    destruct (copy_inv_memo_path _ _ _ _ _ Hi Hl) as (_ & _ & p' & -> & HF').
    eapply Forall_impl; [exact HF'|]. simpl. lia.
Qed.

(** A copy only adds objects, whatever the stores hold. *)
Lemma deepcopy_line_prefix c s :
  cp_paths (deepcopy_line c s).2 = cp_paths s
  ∧ cp_lines s `prefix_of` cp_lines (deepcopy_line c s).2.
Proof.
  unfold deepcopy_line. destruct (memo_lines s !! c); [done|].
  destruct (cp_lines s !! c); [|done]. simpl. split; [done|]. by apply prefix_app_r.
Qed.

Lemma deepcopy_lines_prefix cs : ∀ s,
  cp_paths (deepcopy_lines cs s).2 = cp_paths s
  ∧ cp_lines s `prefix_of` cp_lines (deepcopy_lines cs s).2.
Proof.
  induction cs as [|c cs IH]; intros s; simpl; [done|].
  pose proof (deepcopy_line_prefix c s) as [E1 P1].
  destruct (deepcopy_line c s) as [c1 s1]. simpl in *.
  pose proof (IH s1) as [E2 P2].
  destruct (deepcopy_lines cs s1) as [cs2 s2]. simpl in *.
  split; [congruence|by etrans].
Qed.

Lemma deepcopy_series_prefix l s :
  cp_paths s `prefix_of` cp_paths (deepcopy_series l s).2
  ∧ cp_lines s `prefix_of` cp_lines (deepcopy_series l s).2.
Proof.
  unfold deepcopy_series. destruct (memo_paths s !! l); [done|].
  destruct (cp_paths s !! l) as [p|]; [|done].
  pose proof (deepcopy_lines_prefix (cuts p) s) as [E1 P1].
  destruct (deepcopy_lines (cuts p) s) as [cs s1]. simpl in *.
  rewrite E1. split; [by apply prefix_app_r|done].
Qed.

Lemma deepcopy_list_prefix roots : ∀ s,
  cp_paths s `prefix_of` cp_paths (deepcopy_list roots s).2
  ∧ cp_lines s `prefix_of` cp_lines (deepcopy_list roots s).2.
Proof.
  induction roots as [|l roots IH]; intros s; simpl; [done|].
  pose proof (deepcopy_series_prefix l s) as [E1 P1].
  destruct (deepcopy_series l s) as [l1 s1]. simpl in *.
  pose proof (IH s1) as [E2 P2].
  destruct (deepcopy_list roots s1) as [r2 s2]. simpl in *.
  split; by etrans.
Qed.

(** *** [take_snapshot] *)

(** The cache after the append and the eviction. *)
Lemma take_snapshot_unfold action w :
  take_snapshot action w =
    let s := (deepcopy_cut_paths w).2 in
    let cache := contour_undo_cache w
                 ++ [((deepcopy_cut_paths w).1, preserve_state w, action)] in
    mkWorld (cp_paths s) (cp_lines s) (op w)
      (if bool_decide (undo_depth (settings (op w)) < length cache)
       then drop 1 cache else cache).
Proof. unfold take_snapshot. by destruct (deepcopy_cut_paths w). Qed.

Lemma take_snapshot_op action w : op (take_snapshot action w) = op w.
Proof. by rewrite take_snapshot_unfold. Qed.

Lemma take_snapshot_paths action w :
  paths w `prefix_of` paths (take_snapshot action w).
Proof. rewrite take_snapshot_unfold. apply (deepcopy_list_prefix _ (mkCopy _ _ _ _)). Qed.

Lemma take_snapshot_lines action w :
  lines w `prefix_of` lines (take_snapshot action w).
Proof. rewrite take_snapshot_unfold. apply (deepcopy_list_prefix _ (mkCopy _ _ _ _)). Qed.

(** Objects that exist before a snapshot are the same after it. *)
Lemma take_snapshot_lookup_paths action w l :
  l < length (paths w) → paths (take_snapshot action w) !! l = paths w !! l.
Proof. intros. apply prefix_lookup; [apply take_snapshot_paths|done]. Qed.

Lemma take_snapshot_lookup_lines action w c :
  c < length (lines w) → lines (take_snapshot action w) !! c = lines w !! c.
Proof. intros. apply prefix_lookup; [apply take_snapshot_lines|done]. Qed.

End SnapshotFacts.

Section SeparationFacts.
Context `{ContourTypes}.
Implicit Types (ps : list (ContourCutSeries loc)) (ls : list ContourCutLine).
Implicit Types (roots r d : list loc) (rs : list (list loc)) (w : World).

Lemma separated_on_sublist ps ls rs rs' :
  rs' `sublist_of` rs → separated_on ps ls rs → separated_on ps ls rs'.
Proof.
  intros Hs (Hv & Hd1 & Hd2). split_and!.
  - by eapply Forall_sublist.
  - by eapply pairwise_disjoint_sublist.
  - eapply pairwise_disjoint_sublist; [|exact Hd2]. by apply fmap_sublist.
Qed.

Lemma series_lines_fmap_prefix ps ls ps' rs :
  ps `prefix_of` ps' → Forall (valid_roots ps ls) rs →
  series_lines ps' <$> rs = series_lines ps <$> rs.
Proof.
  intros Hp Hv. apply fmap_ext_elem_of. intros r Hr.
  rewrite Forall_forall in Hv. specialize (Hv _ Hr).
  apply series_lines_ext. intros l Hl. apply prefix_lookup; [done|].
  destruct Hv as [Hv _]. rewrite Forall_forall in Hv. by apply Hv.
Qed.

Lemma separated_on_prefix ps ls ps' ls' rs :
  ps `prefix_of` ps' → ls `prefix_of` ls' →
  separated_on ps ls rs → separated_on ps' ls' rs.
Proof.
  intros Hp Hl (Hv & Hd1 & Hd2). split_and!; [|done|].
  - eapply Forall_impl; [exact Hv|]. intros r Hr.
    by apply (valid_roots_prefix ps ls).
  - by erewrite series_lines_fmap_prefix.
Qed.

(** A graph made of new objects only is apart from the graphs that were
    there before. *)
Lemma separated_on_snoc ps ls ps' ls' rs d :
  ps `prefix_of` ps' → ls `prefix_of` ls' →
  separated_on ps ls rs →
  valid_roots ps' ls' d →
  Forall (λ l, length ps ≤ l) d →
  Forall (λ c, length ls ≤ c) (series_lines ps' d) →
  separated_on ps' ls' (rs ++ [d]).
Proof.
  intros Hp Hl Hsep Hvd Hd1 Hd2.
  pose proof (separated_on_prefix _ _ _ _ _ Hp Hl Hsep) as (Hv' & Hp1 & Hp2).
  destruct Hsep as (Hv & _ & _).
  split_and!.
  - apply Forall_app. split; [done|]. by apply Forall_singleton.
  - apply pairwise_disjoint_app. split_and!; [done|repeat constructor|].
    eapply Forall_impl; [exact Hv|]. intros r [Hr _]. apply Forall_singleton.
    intros l Hin1 Hin2. rewrite Forall_forall in Hr, Hd1.
    specialize (Hr _ Hin1). specialize (Hd1 _ Hin2). lia.
  - rewrite fmap_app. apply pairwise_disjoint_app.
    split_and!; [done|repeat constructor|].
    rewrite (series_lines_fmap_prefix ps ls ps' rs) by done.
    apply Forall_fmap. eapply Forall_impl; [exact Hv|]. intros r [_ Hr]. simpl.
    apply Forall_singleton.
    intros c Hin1 Hin2. rewrite Forall_forall in Hr, Hd2.
    specialize (Hr _ Hin1). specialize (Hd2 _ Hin2). lia.
Qed.

Lemma regions_take_snapshot action w :
  regions (take_snapshot action w)
    `sublist_of` regions w ++ [(deepcopy_cut_paths w).1].
Proof.
  rewrite take_snapshot_unfold. unfold regions. simpl.
  apply sublist_skip. case_bool_decide.
  - rewrite fmap_drop, fmap_app. apply sublist_drop.
  - by rewrite fmap_app.
Qed.

(** The invariant survives a snapshot. *)
Lemma take_snapshot_separated action w :
  separated w → separated (take_snapshot action w).
Proof.
  intros Hsep. unfold separated.
  eapply separated_on_sublist; [apply regions_take_snapshot|].
  assert (valid_roots (paths w) (lines w) (cut_paths (op w))) as Hlive.
  { destruct Hsep as (Hv & _). by apply Forall_cons in Hv as [? _]. }
  destruct (deepcopy_cut_paths w) as [data s] eqn:E.
  destruct (deepcopy_list_result _ _ _ _ _ Hlive E) as (Hp & Hl & _ & Hvd & Hd1 & Hd2).
  rewrite take_snapshot_unfold, E. simpl.
  by apply (separated_on_snoc (paths w) (lines w) _ _ (regions w) data).
Qed.

(** *** [undo_action] *)

Lemma undo_action_empty w :
  contour_undo_cache w = [] → undo_action w = Ret tt w.
Proof. unfold undo_action. by intros ->. Qed.

Lemma undo_action_snoc w rest e :
  contour_undo_cache w = rest ++ [e] →
  ∃ w', undo_action w = Ret tt w'
    ∧ paths w' = paths w ∧ lines w' = lines w
    ∧ contour_undo_cache w' = rest
    ∧ cut_paths (op w') = cut_data e
    ∧ settings (op w') = settings (op w).
Proof.
  intros Hc. unfold undo_action. rewrite Hc, list_pop_snoc.
  rewrite bool_decide_true by (rewrite length_app; simpl; lia).
  eexists. split; [reflexivity|]. done.
Qed.

Lemma undo_action_separated w w' :
  separated w → undo_action w = Ret tt w' → separated w'.
Proof.
  intros Hsep.
  destruct (contour_undo_cache w) as [|e0 rest0 _] eqn:Hc using rev_ind.
  { rewrite undo_action_empty by done. by intros [= <-]. }
  destruct (undo_action_snoc _ _ _ Hc) as (w1 & -> & Hp & Hl & Hc1 & Hcp & _).
  intros [= <-]. unfold separated, regions in *.
  rewrite Hp, Hl, Hc1, Hcp. rewrite Hc, fmap_app in Hsep. simpl in Hsep.
  destruct Hsep as (Hv & Hd1 & Hd2). split_and!.
  - apply Forall_cons in Hv as [_ Hv]. apply Forall_app in Hv as [Hv1 Hv2].
    rewrite Forall_singleton in Hv2. by constructor.
  - apply pairwise_disjoint_rotate. by destruct Hd1.
  - rewrite fmap_cons. apply pairwise_disjoint_rotate.
    rewrite fmap_cons, fmap_app in Hd2. by destruct Hd2.
Qed.

End SeparationFacts.

Section MutationFacts.
Context `{ContourTypes}.
Implicit Types (ps : list (ContourCutSeries loc)) (ls : list ContourCutLine).
Implicit Types (roots r d : list loc) (rs : list (list loc)) (w : World).
Implicit Types (e : UndoEntry) (m : Mutation).

Lemma elem_of_owned_series w l :
  l ∈ owned_series w ↔ ∃ e, e ∈ contour_undo_cache w ∧ l ∈ cut_data e.
Proof.
  unfold owned_series. rewrite list_elem_of_bind.
  split; intros (e & ? & ?); by exists e.
Qed.

Lemma elem_of_owned_lines w c :
  c ∈ owned_lines w ↔
  ∃ e, e ∈ contour_undo_cache w ∧ c ∈ series_lines (paths w) (cut_data e).
Proof.
  unfold owned_lines. rewrite elem_of_series_lines. split.
  - intros (l & p & (e & He & Hl)%elem_of_owned_series & Hp & Hc).
    exists e. split; [done|]. apply elem_of_series_lines. eauto.
  - intros (e & He & (l & p & Hl & Hp & Hc)%elem_of_series_lines).
    exists l, p. split_and!; [|done..]. apply elem_of_owned_series. eauto.
Qed.

(** What the invariant says of the live graph and of one entry. *)
Lemma separated_live w :
  separated w →
  valid_roots (paths w) (lines w) (cut_paths (op w))
  ∧ cut_paths (op w) ## owned_series w
  ∧ series_lines (paths w) (cut_paths (op w)) ## owned_lines w.
Proof.
  intros (Hv & Hd1 & Hd2). unfold regions in *.
  apply Forall_cons in Hv as [Hv _]. destruct Hd1 as [Hd1 _].
  rewrite fmap_cons in Hd2. destruct Hd2 as [Hd2 _].
  split_and!; [done|..].
  - intros l Hl (e & He & Hle)%elem_of_owned_series.
    rewrite Forall_fmap, Forall_forall in Hd1. by apply (Hd1 e He l).
  - intros c Hc (e & He & Hce)%elem_of_owned_lines.
    rewrite <-list_fmap_compose, Forall_fmap, Forall_forall in Hd2.
    by apply (Hd2 e He c).
Qed.

Lemma separated_entry w e :
  separated w → e ∈ contour_undo_cache w →
  valid_roots (paths w) (lines w) (cut_data e).
Proof.
  intros (Hv & _) He. unfold regions in Hv. apply Forall_cons in Hv as [_ Hv].
  rewrite Forall_fmap, Forall_forall in Hv. by apply Hv.
Qed.

(** Every object reachable from [cut_paths] is free: the code that
    walks the live graph never arrives at a stored copy. *)
Lemma separated_live_free w :
  separated w →
  Forall (free_series w) (cut_paths (op w))
  ∧ Forall (free_line w) (series_lines (paths w) (cut_paths (op w))).
Proof.
  intros ([Hv1 Hv2] & Hd1 & Hd2)%separated_live.
  split; apply Forall_forall.
  - intros l Hl. split; [by eapply Forall_forall in Hv1|]. intros ?. by eapply Hd1.
  - intros c Hc. split; [by eapply Forall_forall in Hv2|]. intros ?. by eapply Hd2.
Qed.

(** The frame of the undo cache: a new state that agrees with the old
    one on the objects of the cache, and whose live graph is made of
    other objects, keeps the invariant and every stored graph. *)
Lemma separated_frame w w' :
  separated w →
  contour_undo_cache w' = contour_undo_cache w →
  length (paths w) ≤ length (paths w') →
  length (lines w) ≤ length (lines w') →
  (∀ l, l ∈ owned_series w → paths w' !! l = paths w !! l) →
  (∀ c, c ∈ owned_lines w → lines w' !! c = lines w !! c) →
  valid_roots (paths w') (lines w') (cut_paths (op w')) →
  cut_paths (op w') ## owned_series w →
  series_lines (paths w') (cut_paths (op w')) ## owned_lines w →
  separated w'
  ∧ ∀ e, e ∈ contour_undo_cache w → entry_graph w' e = entry_graph w e.
Proof.
  intros Hsep Hc Hlp Hll Hps Hls Hv Hd1 Hd2.
  assert (∀ e, e ∈ contour_undo_cache w →
            series_lines (paths w') (cut_data e) = series_lines (paths w) (cut_data e))
    as Hsl.
  { intros e He. apply series_lines_ext. intros l Hl. apply Hps.
    apply elem_of_owned_series. eauto. }
  split.
  - destruct Hsep as (Hv0 & Hp1 & Hp2). unfold separated, separated_on, regions in *.
    rewrite Hc. rewrite fmap_cons in Hp2 |- *.
    apply Forall_cons in Hv0 as [_ Hv0]. destruct Hp1 as [_ Hp1]. destruct Hp2 as [_ Hp2].
    assert (series_lines (paths w') <$> (cut_data <$> contour_undo_cache w)
            = series_lines (paths w) <$> (cut_data <$> contour_undo_cache w)) as Heq.
    { rewrite <-!list_fmap_compose. apply fmap_ext_elem_of. intros e He. by apply Hsl. }
    split_and!.
    + constructor; [done|]. rewrite Forall_fmap. apply Forall_forall. intros e He.
      rewrite Forall_fmap, Forall_forall in Hv0. destruct (Hv0 e He) as [Hv1 Hv2].
      split; simpl.
      * eapply Forall_impl; [exact Hv1|]. simpl. lia.
      * rewrite Hsl by done. eapply Forall_impl; [exact Hv2|]. simpl. lia.
    + split; [|done]. rewrite Forall_fmap. apply Forall_forall. intros e He.
      intros l Hl1 Hl2. apply (Hd1 l Hl1). apply elem_of_owned_series. eauto.
    + rewrite Heq. split; [|done].
      rewrite <-list_fmap_compose, Forall_fmap. apply Forall_forall. intros e He.
      intros c Hc1 Hc2. apply (Hd2 c Hc1). apply elem_of_owned_lines. eauto.
  - intros e He. unfold entry_graph. apply read_graph_ext.
    + intros l Hl. apply Hps. apply elem_of_owned_series. eauto.
    + intros c Hcin. apply Hls. apply elem_of_owned_lines. eauto.
Qed.

Lemma with_cut_paths_id (o : Operator) : with_cut_paths (cut_paths o) o = o.
Proof. by destruct o. Qed.

(** The cuts of the live graph after a write to the series at [l]. *)
Lemma series_lines_insert ps l p roots c :
  c ∈ series_lines (<[l:=p]> ps) roots →
  c ∈ cuts p ∨ c ∈ series_lines ps roots.
Proof.
  rewrite !elem_of_series_lines. intros (l0 & q & Hl0 & Hq & Hc).
  destruct (decide (l = l0)) as [->|Hne].
  - left. apply lookup_lt_Some in Hq as Hlt. rewrite length_insert in Hlt.
    rewrite list_lookup_insert_eq in Hq by done. by injection Hq as <-.
  - right. rewrite list_lookup_insert_ne in Hq by done. eauto.
Qed.

(** One allowed step keeps the cache, the invariant and the stored
    graphs. *)
Lemma allowed_frame w m :
  separated w → allowed w m = true →
  contour_undo_cache (apply_mutation m w) = contour_undo_cache w
  ∧ settings (op (apply_mutation m w)) = settings (op w)
  ∧ separated (apply_mutation m w)
  ∧ ∀ e, e ∈ contour_undo_cache w →
         entry_graph (apply_mutation m w) e = entry_graph w e.
Proof.
  intros Hsep Hm.
  destruct (separated_live _ Hsep) as ([Hv1 Hv2] & Hd1 & Hd2).
  assert (∀ l, l ∈ owned_series w → l < length (paths w)) as Hos.
  { intros l (e & He & Hl)%elem_of_owned_series.
    destruct (separated_entry _ _ Hsep He) as [Hv _]. by eapply Forall_forall in Hv. }
  assert (∀ c, c ∈ owned_lines w → c < length (lines w)) as Hol.
  { intros c (e & He & Hl)%elem_of_owned_lines.
    destruct (separated_entry _ _ Hsep He) as [_ Hv]. by eapply Forall_forall in Hv. }
  split; [by destruct m|]. split; [by destruct m|].
  apply separated_frame; try done; destruct m as [l p|l c|p|c|ls0]; simpl in *;
    rewrite ?length_insert, ?length_app; try lia; try done.
  - (* WriteSeries: the cache does not own [l] *)
    intros l0 Hl0. apply andb_prop in Hm as [[_ Hl]%bool_decide_eq_true _].
    apply list_lookup_insert_ne. by intros ->.
  - (* NewSeries *)
    intros l0 Hl0. apply lookup_app_l. auto.
  - (* WriteLine *)
    intros c0 Hc0. apply bool_decide_eq_true in Hm as [_ Hl].
    apply list_lookup_insert_ne. by intros ->.
  - (* NewLine *)
    intros c0 Hc0. apply lookup_app_l. auto.
  - (* WriteSeries: the live graph is valid *)
    apply andb_prop in Hm as [_ Hp%bool_decide_eq_true]. split.
    + by rewrite length_insert.
    + apply Forall_forall. intros c0 [Hc0|Hc0]%series_lines_insert.
      * rewrite Forall_forall in Hp. by apply Hp.
      * by eapply Forall_forall in Hv2.
  - split; [done|]. eapply Forall_impl; [exact Hv2|]. simpl.
    intros. rewrite length_insert. lia.
  - split.
    + eapply Forall_impl; [exact Hv1|]. simpl. intros. rewrite length_app. lia.
    + rewrite (series_lines_ext (paths w)); [done|].
      intros l Hl. apply lookup_app_l. by eapply Forall_forall in Hv1.
  - split; [done|]. eapply Forall_impl; [exact Hv2|]. simpl.
    intros. rewrite length_app. lia.
  - apply andb_prop in Hm as [Ha%bool_decide_eq_true Hb%bool_decide_eq_true]. split.
    + eapply Forall_impl; [exact Ha|]. by intros l [? _].
    + eapply Forall_impl; [exact Hb|]. by intros l [? _].
  - (* SetCutPaths: the new list is apart from the cache *)
    apply andb_prop in Hm as [Ha%bool_decide_eq_true _].
    intros l Hl1 Hl2. rewrite Forall_forall in Ha. by destruct (Ha l Hl1).
  - (* WriteSeries: the cuts of the live graph are apart from the cache *)
    apply andb_prop in Hm as [_ Hp%bool_decide_eq_true].
    intros c0 [Hc0|Hc0]%series_lines_insert Hown.
    + rewrite Forall_forall in Hp. by destruct (Hp c0 Hc0).
    + by apply (Hd2 c0).
  - rewrite (series_lines_ext (paths w)); [done|].
    intros l Hl. apply lookup_app_l. by eapply Forall_forall in Hv1.
  - apply andb_prop in Hm as [_ Hb%bool_decide_eq_true].
    intros c0 Hc1 Hc2. rewrite Forall_forall in Hb. by destruct (Hb c0 Hc1).
Qed.

Lemma entry_graph_stores w w' e :
  paths w' = paths w → lines w' = lines w → entry_graph w' e = entry_graph w e.
Proof. unfold entry_graph. by intros -> ->. Qed.

(** A mutating operation keeps the cache, the invariant and every
    stored graph. *)
Lemma mutate_frame ms : ∀ w w',
  separated w → mutate ms w = Some w' →
  contour_undo_cache w' = contour_undo_cache w
  ∧ settings (op w') = settings (op w)
  ∧ separated w'
  ∧ ∀ e, e ∈ contour_undo_cache w → entry_graph w' e = entry_graph w e.
Proof.
  induction ms as [|m ms IH]; intros w w' Hsep; simpl.
  { intros [= <-]. done. }
  destruct (allowed w m) eqn:Hm; [|done]. intros Hrun.
  destruct (allowed_frame _ _ Hsep Hm) as (Hc1 & Hs1 & Hsep1 & Hg1).
  destruct (IH _ _ Hsep1 Hrun) as (Hc2 & Hs2 & Hsep2 & Hg2).
  split_and!; [congruence|congruence|done|].
  intros e He. rewrite Hg2 by (by rewrite Hc1). by apply Hg1.
Qed.

End MutationFacts.

Section HistoryFacts.
Context `{ContourTypes}.
Implicit Types (ps : list (ContourCutSeries loc)) (ls : list ContourCutLine).
Implicit Types (w : World) (e : UndoEntry) (action : string).

(** *** The two outcomes of [create_undo_snapshot] that return *)

Lemma create_undo_snapshot_coalesced action w :
  coalesced action w = true → create_undo_snapshot action w = Ret tt w.
Proof.
  unfold coalesced, create_undo_snapshot.
  intros [Hin Hl]%andb_prop. rewrite Hin.
  destruct (last (contour_undo_cache w)); [|done]. by rewrite Hl.
Qed.

Lemma create_undo_snapshot_pushes action w w1 :
  coalesced action w = false →
  create_undo_snapshot action w = Ret tt w1 →
  w1 = take_snapshot action w.
Proof.
  unfold coalesced, create_undo_snapshot.
  destruct (bool_decide (action ∈ repeated_actions)); simpl.
  - destruct (last (contour_undo_cache w)); [|done].
    intros ->. by intros [= <-].
  - by intros _ [= <-].
Qed.

(** The entry a snapshot appends reads as the live graph, and the live
    graph and the older entries read as before. *)
Lemma take_snapshot_graphs action w :
  separated w →
  live_graph (take_snapshot action w) = live_graph w
  ∧ read_graph (paths (take_snapshot action w)) (lines (take_snapshot action w))
      (deepcopy_cut_paths w).1 = live_graph w
  ∧ ∀ e, e ∈ contour_undo_cache w →
         entry_graph (take_snapshot action w) e = entry_graph w e.
Proof.
  intros Hsep.
  destruct (separated_live _ Hsep) as (Hlive & _ & _).
  pose proof (take_snapshot_paths action w) as Hp.
  pose proof (take_snapshot_lines action w) as Hl.
  split_and!.
  - unfold live_graph. rewrite take_snapshot_op. by apply read_graph_prefix.
  - rewrite take_snapshot_unfold. simpl.
    destruct (deepcopy_cut_paths w) as [data s] eqn:E. simpl.
    by destruct (deepcopy_list_result _ _ _ _ _ Hlive E) as (_ & _ & -> & _).
  - intros e He. unfold entry_graph. apply read_graph_prefix; [done..|].
    by apply separated_entry.
Qed.

Lemma take_snapshot_cache action w :
  contour_undo_cache (take_snapshot action w) =
    if bool_decide (undo_depth (settings (op w))
                    < length (contour_undo_cache w
                              ++ [((deepcopy_cut_paths w).1, preserve_state w, action)]))
    then drop 1 (contour_undo_cache w
                 ++ [((deepcopy_cut_paths w).1, preserve_state w, action)])
    else contour_undo_cache w
         ++ [((deepcopy_cut_paths w).1, preserve_state w, action)].
Proof. by rewrite take_snapshot_unfold. Qed.

Lemma recorded_nil w : recorded w [].
Proof. exists (contour_undo_cache w), []. by rewrite app_nil_r. Qed.

(** A snapshot that pushes records the live graph on top of what was
    recorded, as long as the depth leaves room for it. *)
Lemma take_snapshot_recorded action w gs :
  separated w → recorded w gs →
  length gs < undo_depth (settings (op w)) →
  recorded (take_snapshot action w) (gs ++ [live_graph w]).
Proof.
  intros Hsep (pre & ents & Hc & Hg) Hlen.
  destruct (take_snapshot_graphs action w Hsep) as (_ & Hnew & Hold).
  set (e := ((deepcopy_cut_paths w).1, preserve_state w, action)).
  assert (entry_graph (take_snapshot action w) <$> (ents ++ [e])
          = gs ++ [live_graph w]) as Hread.
  { rewrite fmap_app. f_equal.
    - rewrite <-Hg. apply fmap_ext_elem_of. intros e0 He0. apply Hold.
      rewrite Hc. apply elem_of_app. by right.
    - simpl. f_equal. exact Hnew. }
  assert (length ents = length gs) as Hle by (by rewrite <-Hg, length_fmap).
  unfold recorded. rewrite take_snapshot_cache. fold e.
  rewrite Hc, <-(assoc_L (++)).
  destruct (bool_decide _) eqn:Hev.
  - apply bool_decide_eq_true in Hev. destruct pre as [|x pre].
    { rewrite app_nil_l, length_app in Hev. simpl in Hev. lia. }
    exists pre, (ents ++ [e]). split; [done|]. exact Hread.
  - exists pre, (ents ++ [e]). split; [done|]. exact Hread.
Qed.

Lemma recorded_stores w w' gs :
  contour_undo_cache w' = contour_undo_cache w →
  (∀ e, e ∈ contour_undo_cache w → entry_graph w' e = entry_graph w e) →
  recorded w gs → recorded w' gs.
Proof.
  intros Hc Hg (pre & ents & Hc' & Hgs). exists pre, ents.
  split; [congruence|]. rewrite <-Hgs. apply fmap_ext_elem_of.
  intros e He. apply Hg. rewrite Hc'. apply elem_of_app. by right.
Qed.

(** One undo gives back the newest recorded graph. *)
Lemma undo_action_recorded w gs g :
  separated w → recorded w (gs ++ [g]) →
  ∃ w', undo_action w = Ret tt w'
    ∧ live_graph w' = g ∧ recorded w' gs ∧ separated w'
    ∧ settings (op w') = settings (op w).
Proof.
  intros Hsep (pre & ents & Hc & Hg).
  destruct ents as [|e ents _] using rev_ind.
  { by destruct gs. }
  rewrite fmap_app in Hg. simpl in Hg. apply app_inj_tail in Hg as [Hg1 Hg2].
  rewrite (assoc_L (++)) in Hc.
  destruct (undo_action_snoc _ _ _ Hc) as (w' & Hu & Hp & Hl & Hc' & Hcp & Hs).
  exists w'. split_and!; [done| | | |done].
  - unfold live_graph. by rewrite Hp, Hl, Hcp.
  - exists pre, ents. split; [done|]. rewrite <-Hg1.
    apply fmap_ext_elem_of. intros. by apply entry_graph_stores.
  - by eapply undo_action_separated.
Qed.

(** Undoing everything recorded gives back the oldest recorded graph. *)
Lemma undo_times_recorded gs : ∀ w,
  separated w → recorded w gs →
  ∃ w', undo_times (length gs) w = Ret tt w'
    ∧ live_graph w' = default (live_graph w) (hd_error gs) ∧ separated w'.
Proof.
  induction gs as [|g gs IH] using rev_ind; intros w Hsep Hrec.
  { exists w. done. }
  destruct (undo_action_recorded _ _ _ Hsep Hrec) as (w1 & Hu & Hg & Hrec1 & Hsep1 & _).
  destruct (IH _ Hsep1 Hrec1) as (w2 & Hu2 & Hg2 & Hsep2).
  exists w2. rewrite length_app, Nat.add_comm. simpl.
  unfold bind. rewrite Hu. split_and!; [done| |done].
  rewrite Hg2, Hg. by destruct gs.
Qed.

(** A run records the graph before each of its operations. *)
Lemma run_ops_recorded ops : ∀ w w' gs,
  separated w → recorded w gs →
  length gs + length ops ≤ undo_depth (settings (op w)) →
  run_ops ops w = Some w' →
  separated w' ∧ settings (op w') = settings (op w)
  ∧ ∃ gs', length gs' = length ops ∧ recorded w' (gs ++ gs')
      ∧ hd_error gs' = (if ops is [] then None else Some (live_graph w))
      ∧ (ops = [] → w' = w).
Proof.
  induction ops as [|[action ms] ops IH]; intros w w' gs Hsep Hrec Hlen; simpl.
  { intros [= <-]. split_and!; [done..|]. exists []. by rewrite app_nil_r. }
  destruct (coalesced action w) eqn:Hco; [done|].
  destruct (create_undo_snapshot action w) as [[] w1|] eqn:Hsnap; [|done].
  apply create_undo_snapshot_pushes in Hsnap as ->; [|done].
  destruct (mutate ms (take_snapshot action w)) as [w2|] eqn:Hmut; [|done]. simpl.
  intros Hrun. simpl in Hlen.
  pose proof (take_snapshot_separated action w Hsep) as Hsep1.
  pose proof (take_snapshot_recorded action w gs Hsep Hrec ltac:(lia)) as Hrec1.
  destruct (mutate_frame _ _ _ Hsep1 Hmut) as (Hc2 & Hs2 & Hsep2 & Hg2).
  pose proof (recorded_stores _ _ _ Hc2 Hg2 Hrec1) as Hrec2.
  rewrite take_snapshot_op in Hs2.
  destruct (IH w2 w' (gs ++ [live_graph w]) Hsep2 Hrec2) as (Hsep' & Hs' & gs' & Hl' & Hrec' & _);
    [rewrite length_app, Hs2; simpl; lia|done|].
  split_and!; [done|congruence|].
  exists (live_graph w :: gs'). split_and!; [simpl; lia| |done|done].
  by rewrite <-(assoc_L (++)) in Hrec'.
Qed.

(** The invariant holds all along a run. *)
Lemma run_ops_separated ops : ∀ w w',
  separated w → run_ops ops w = Some w' →
  separated w' ∧ settings (op w') = settings (op w).
Proof.
  induction ops as [|[action ms] ops IH]; intros w w' Hsep; simpl.
  { by intros [= <-]. }
  destruct (coalesced action w) eqn:Hco; [done|].
  destruct (create_undo_snapshot action w) as [[] w1|] eqn:Hsnap; [|done].
  apply create_undo_snapshot_pushes in Hsnap as ->; [|done].
  destruct (mutate ms (take_snapshot action w)) as [w2|] eqn:Hmut; [|done]. simpl.
  intros Hrun.
  pose proof (take_snapshot_separated action w Hsep) as Hsep1.
  destruct (mutate_frame _ _ _ Hsep1 Hmut) as (_ & Hs2 & Hsep2 & _).
  rewrite take_snapshot_op in Hs2.
  destruct (IH _ _ Hsep2 Hrun) as [? ?]. split; [done|congruence].
Qed.

End HistoryFacts.

Section UndoClaims.
Context `{ContourTypes}.
Implicit Types (w : World) (e : UndoEntry) (action : string).

(** C1 (amended).  Take any history of mutating operations, each with a
    snapshot pushed before it.  If the last [k] operations are no more
    than [undo_depth], then [undo_action] applied [k] times returns and
    leaves [cut_paths] standing for the graph it stood for [k] operations
    earlier: the two read back as equal lists of series with equal cut
    lines. *)
Theorem undo_restores_within_depth (w0 wm wn : World)
    (before ops : list (string * list Mutation)) :
  separated w0 →
  run_ops before w0 = Some wm →
  run_ops ops wm = Some wn →
  length ops ≤ undo_depth (settings (op w0)) →
  ∃ w', undo_times (length ops) wn = Ret tt w' ∧ live_graph w' = live_graph wm.
Proof.
  intros Hsep Hbefore Hops Hdepth.
  destruct (run_ops_separated _ _ _ Hsep Hbefore) as [Hsepm Hsm].
  destruct (run_ops_recorded ops wm wn [] Hsepm (recorded_nil wm)) as
    (Hsepn & _ & gs & Hlen & Hrec & Hhd & Hnil); [rewrite Hsm; simpl; lia|done|].
  rewrite app_nil_l in Hrec.
  destruct (undo_times_recorded gs wn Hsepn Hrec) as (w' & Hu & Hg & _).
  exists w'. rewrite <-Hlen. split; [done|]. rewrite Hg, Hhd.
  destruct ops; [by rewrite Hnil|done].
Qed.

(** C4.  After a snapshot, every series and cut line reachable from
    [cut_paths] is free, that is, none is an object of a cache entry; and
    whatever sequence of writes to free objects, object creations and
    rebindings of [cut_paths] follows, the cache holds the same entries
    and each of them reads back as the same graph. *)
Theorem snapshot_isolated action (w w1 : World) :
  separated w →
  create_undo_snapshot action w = Ret tt w1 →
  (Forall (free_series w1) (cut_paths (op w1))
   ∧ Forall (free_line w1) (series_lines (paths w1) (cut_paths (op w1))))
  ∧ ∀ ms w2, mutate ms w1 = Some w2 →
      contour_undo_cache w2 = contour_undo_cache w1
      ∧ ∀ e, e ∈ contour_undo_cache w1 → entry_graph w2 e = entry_graph w1 e.
Proof.
  intros Hsep Hsnap.
  assert (separated w1) as Hsep1.
  { destruct (coalesced action w) eqn:Hco.
    - rewrite create_undo_snapshot_coalesced in Hsnap by done. by injection Hsnap as <-.
    - apply create_undo_snapshot_pushes in Hsnap as ->; [|done].
      by apply take_snapshot_separated. }
  split; [by apply separated_live_free|].
  intros ms w2 Hmut.
  by destruct (mutate_frame _ _ _ Hsep1 Hmut) as (? & _ & _ & ?).
Qed.

(** C6 (amended).  A call that pushes an entry drops the oldest entry
    exactly when the cache, with the new entry, is longer than
    [undo_depth], and it drops only that one; so the cache is no longer
    than [undo_depth] afterwards if it was no longer before. *)
Theorem snapshot_evicts_oldest action (w w1 : World) :
  coalesced action w = false →
  create_undo_snapshot action w = Ret tt w1 →
  ∃ e, entry_action e = action
    ∧ contour_undo_cache w1 =
        (if bool_decide (undo_depth (settings (op w)) < S (length (contour_undo_cache w)))
         then drop 1 (contour_undo_cache w ++ [e])
         else contour_undo_cache w ++ [e])
    ∧ (length (contour_undo_cache w) ≤ undo_depth (settings (op w)) →
       length (contour_undo_cache w1) ≤ undo_depth (settings (op w1))).
Proof.
  intros Hco Hsnap. apply create_undo_snapshot_pushes in Hsnap as ->; [|done].
  eexists (_, _, action). split; [done|].
  rewrite take_snapshot_op, take_snapshot_cache, length_app. simpl.
  rewrite Nat.add_1_r. split; [done|]. intros Hlen.
  case_bool_decide; [|rewrite length_app; simpl; lia].
  rewrite length_drop, length_app. simpl. lia.
Qed.

(** [undo_action] on an empty cache changes nothing. *)
Lemma undo_action_empty_noop w :
  contour_undo_cache w = [] → undo_action w = Ret tt w.
Proof. apply undo_action_empty. Qed.

(** A repeated label found on top of the cache: no snapshot. *)
Lemma repeated_label_on_top action w rest e :
  action ∈ repeated_actions →
  contour_undo_cache w = rest ++ [e] → entry_action e = action →
  create_undo_snapshot action w = Ret tt w.
Proof.
  intros Hin Hc He. apply create_undo_snapshot_coalesced.
  unfold coalesced. rewrite Hc, last_snoc, He.
  by rewrite !bool_decide_eq_true_2.
Qed.

(** Any other call on a cache that is not empty, and any call under a
    label that is not a repeated one: the snapshot is taken, and its
    entry reads back as the live graph. *)
Lemma unrepeated_label_pushes action w :
  separated w →
  (action ∉ repeated_actions
   ∨ ∃ rest e, contour_undo_cache w = rest ++ [e] ∧ entry_action e ≠ action) →
  create_undo_snapshot action w = Ret tt (take_snapshot action w)
  ∧ read_graph (paths (take_snapshot action w)) (lines (take_snapshot action w))
      (deepcopy_cut_paths w).1 = live_graph w
  ∧ live_graph (take_snapshot action w) = live_graph w.
Proof.
  intros Hsep Hcase.
  destruct (take_snapshot_graphs action w Hsep) as (Hlive & Hnew & _).
  split; [|done]. unfold create_undo_snapshot.
  destruct Hcase as [Hnot|(rest & e & Hc & Hne)].
  - by rewrite bool_decide_eq_false_2.
  - rewrite Hc, last_snoc. case_bool_decide; [|done].
    by rewrite bool_decide_eq_false_2.
Qed.

End UndoClaims.

Section MethodFacts.
Context `{ContourClasses}.
Implicit Types (w : World) (l c : loc).

Lemma bind_Ret {A B} (m : M A) (k : A → M B) w a w1 :
  m w = Ret a w1 → bind m k w = k a w1.
Proof. unfold bind. by intros ->. Qed.

Lemma bind_Raise {A B} (m : M A) (k : A → M B) w e w1 :
  m w = Raise e w1 → bind m k w = Raise e w1.
Proof. unfold bind. by intros ->. Qed.

(** *** States that differ in presentation and geometry only *)

Lemma same_objects_refl w : same_objects w w.
Proof. done. Qed.

Lemma same_objects_trans w1 w2 w3 :
  same_objects w1 w2 → same_objects w2 w3 → same_objects w1 w3.
Proof. intros (?&?) (?&?). split; congruence. Qed.

Lemma same_objects_stores w w' :
  paths w' = paths w → lines w' = lines w → same_objects w w'.
Proof. intros Hp Hl. unfold same_objects. by rewrite Hp, Hl. Qed.

Lemma same_cores_refl w : same_cores w w.
Proof. done. Qed.

Lemma same_cores_trans w1 w2 w3 :
  same_cores w1 w2 → same_cores w2 w3 → same_cores w1 w3.
Proof.
  intros (?&?&?) (?&?&?). split_and!; [by eapply same_objects_trans|congruence..].
Qed.

Lemma same_objects_series w w' l p :
  same_objects w w' → paths w !! l = Some p →
  ∃ q, paths w' !! l = Some q ∧ series_core q = series_core p.
Proof.
  intros (Hp & _) Hl.
  assert ((series_core <$> paths w') !! l = Some (series_core p)) as Hq.
  { by rewrite Hp, list_lookup_fmap, Hl. }
  rewrite list_lookup_fmap in Hq. destruct (paths w' !! l) as [q|]; [|done].
  exists q. split; [done|]. simpl in Hq. congruence.
Qed.

Lemma same_objects_line w w' c x :
  same_objects w w' → lines w !! c = Some x →
  ∃ y, lines w' !! c = Some y ∧ line_core y = line_core x.
Proof.
  intros (_ & Hl) Hc.
  assert ((line_core <$> lines w') !! c = Some (line_core x)) as Hq.
  { by rewrite Hl, list_lookup_fmap, Hc. }
  rewrite list_lookup_fmap in Hq. destruct (lines w' !! c) as [y|]; [|done].
  exists y. split; [done|]. simpl in Hq. congruence.
Qed.

Lemma same_objects_length w w' :
  same_objects w w' → length (paths w') = length (paths w).
Proof. intros [Hp _]. by rewrite <-(length_fmap series_core), Hp, length_fmap. Qed.

Lemma same_cores_series w w' l p :
  same_cores w w' → paths w !! l = Some p →
  ∃ q, paths w' !! l = Some q ∧ series_core q = series_core p.
Proof. intros [? _]. by apply same_objects_series. Qed.

Lemma same_cores_line w w' c x :
  same_cores w w' → lines w !! c = Some x →
  ∃ y, lines w' !! c = Some y ∧ line_core y = line_core x.
Proof. intros [? _]. by apply same_objects_line. Qed.

Lemma fmap_alter_same {A B} (g : A → B) (f : A → A) (xs : list A) i :
  (∀ x, g (f x) = g x) → g <$> alter f i xs = g <$> xs.
Proof.
  intros Hf. rewrite (list_fmap_alter g f id).
  - by apply list_alter_id.
  - apply Forall_forall. intros x _. apply Hf.
Qed.

Lemma update_line_quiet c f :
  (∀ x, line_core (f x) = line_core x) → quiet (update_line c f).
Proof.
  intros Hf w. eexists. split; [reflexivity|].
  split_and!; [split|..]; simpl; [done| |done|done]. by apply fmap_alter_same.
Qed.

Lemma update_series_quiet l f :
  (∀ p, series_core (f p) = series_core p) → quiet (update_series l f).
Proof.
  intros Hf w. eexists. split; [reflexivity|].
  split_and!; [split|..]; simpl; [|done..]. by apply fmap_alter_same.
Qed.

Lemma ret_quiet : quiet (ret tt).
Proof. intros w. by exists w. Qed.

Lemma bind_quiet (m : M unit) (k : M unit) :
  quiet m → quiet k → quiet (m ;;; k).
Proof.
  intros Hm Hk w. destruct (Hm w) as (w1 & E1 & C1). destruct (Hk w1) as (w2 & E2 & C2).
  exists w2. split; [by rewrite (bind_Ret _ _ _ _ _ E1)|]. by eapply same_cores_trans.
Qed.

Lemma for_each_quiet {A} (xs : list A) (f : A → M unit) :
  (∀ x, quiet (f x)) → quiet (for_each xs f).
Proof.
  intros Hf. induction xs as [|x xs IH]; simpl; [apply ret_quiet|].
  by apply bind_quiet.
Qed.

Lemma do_select_quiet l : quiet (do_select l).
Proof. by apply update_series_quiet. Qed.

Lemma deselect_quiet l : quiet (deselect l).
Proof. by apply update_series_quiet. Qed.

Lemma unhighlight_quiet l : quiet (unhighlight l).
Proof. by apply update_series_quiet. Qed.

Lemma cut_do_select_quiet c : quiet (cut_do_select c).
Proof. by apply update_line_quiet. Qed.

Lemma connect_cuts_to_make_mesh_quiet ctx l : quiet (connect_cuts_to_make_mesh ctx l).
Proof.
  intros w. unfold connect_cuts_to_make_mesh.
  rewrite (bind_Ret get _ w w w eq_refl). by apply update_series_quiet.
Qed.

(** The geometry of a series that exists. *)
Lemma update_visibility_quiet ctx l w :
  is_Some (paths w !! l) →
  ∃ w', update_visibility ctx l w = Ret tt w' ∧ same_cores w w'.
Proof.
  intros [p Hp]. unfold update_visibility.
  rewrite (bind_Ret (get_series l) _ w p w) by (unfold get_series; by rewrite Hp).
  apply for_each_quiet. intros c. by apply update_line_quiet.
Qed.

Lemma backbone_from_cuts_quiet ctx l w :
  is_Some (paths w !! l) →
  ∃ w', backbone_from_cuts ctx l w = Ret tt w' ∧ same_cores w w'.
Proof.
  intros [p Hp]. unfold backbone_from_cuts.
  rewrite (bind_Ret (get_series l) _ w p w) by (unfold get_series; by rewrite Hp).
  rewrite (bind_Ret get _ w w w eq_refl).
  apply bind_quiet.
  - apply for_each_quiet. intros c. by apply update_line_quiet.
  - by apply update_series_quiet.
Qed.

End MethodFacts.

Section RingSegments.
Context `{ContourClasses}.
Implicit Types (w : World) (l c sp : loc) (ev : Event).

(** The label of the ring-segment event is not among the repeated ones
    (the set names LOOP_SEGMENTS): every such event takes a snapshot. *)
Lemma ring_segments_snapshot w :
  create_undo_snapshot "RING_SEGMENTS" w = Ret tt (take_snapshot "RING_SEGMENTS" w).
Proof. reflexivity. Qed.

Lemma stepped_ring_segments_ge old ev : (3 ≤ stepped_ring_segments old ev)%Z.
Proof. unfold stepped_ring_segments. case_bool_decide; lia. Qed.

Lemma ring_step_cases ev : ring_step ev = 1%Z ∨ ring_step ev = (-1)%Z.
Proof. unfold ring_step. destruct (_ || _); [right|left]; reflexivity. Qed.

(** The event up to the test of the lock. *)
Lemma modal_ring_segments_unfold ctx ev w sp p :
  selected_path (op w) = Some sp → paths w !! sp = Some p →
  modal_ring_segments ctx ev w =
    let w1 := take_snapshot "RING_SEGMENTS" w in
    if negb (ring_lock p) then
      (update_series sp (with_ring_segments (stepped_ring_segments (ring_segments p) ev)) ;;;
       for_each (cuts p)
         (rescale_cut (ring_segments p) (stepped_ring_segments (ring_segments p) ev)) ;;;
       backbone_from_cuts ctx sp ;;;
       connect_cuts_to_make_mesh ctx sp ;;;
       update_visibility ctx sp) w1
    else Ret tt w1.
Proof.
  intros Hsel Hp. unfold modal_ring_segments.
  rewrite (bind_Ret _ _ _ _ _ (ring_segments_snapshot w)).
  rewrite (bind_Ret get _ _ _ _ eq_refl).
  rewrite take_snapshot_op, Hsel.
  assert (paths (take_snapshot "RING_SEGMENTS" w) !! sp = Some p) as Hp1.
  { rewrite take_snapshot_lookup_paths; [done|]. by eapply lookup_lt_Some. }
  rewrite (bind_Ret (get_series sp) _ _ p _) by (unfold get_series; by rewrite Hp1).
  simpl. by destruct (ring_lock p).
Qed.

(** C5.  On a ring-locked selected series the ring-segment event returns
    without a write to any object that was there: the series, with its
    ring count, and every cut line, with its shift and its vertices, are
    what they were, and so is the operator.  (The snapshot taken first
    only adds objects.) *)
Theorem locked_ring_segments_refused ctx ev w sp p :
  selected_path (op w) = Some sp →
  paths w !! sp = Some p →
  ring_lock p = true →
  ∃ w', modal_ring_segments ctx ev w = Ret tt w'
    ∧ op w' = op w
    ∧ paths w' !! sp = Some p
    ∧ (∀ l q, paths w !! l = Some q → paths w' !! l = Some q)
    ∧ (∀ c x, lines w !! c = Some x → lines w' !! c = Some x).
Proof.
  intros Hsel Hp Hlock.
  rewrite (modal_ring_segments_unfold ctx ev w sp p Hsel Hp), Hlock. simpl.
  eexists. split; [reflexivity|].
  assert (∀ l q, paths w !! l = Some q →
                 paths (take_snapshot "RING_SEGMENTS" w) !! l = Some q) as Hps.
  { intros l q Hq. rewrite take_snapshot_lookup_paths; [done|]. by eapply lookup_lt_Some. }
  split_and!; [apply take_snapshot_op|by apply Hps|done|].
  intros c x Hx. rewrite take_snapshot_lookup_lines; [done|]. by eapply lookup_lt_Some.
Qed.

(** *** The loop over the cuts *)

Lemma rescale_cut_paths old new c w :
  paths (final (rescale_cut old new c w)) = paths w.
Proof.
  unfold rescale_cut, bind, get_line. destruct (lines w !! c); [|done].
  destruct (new_bulk_shift _ _ _); simpl; [done|].
  by case_bool_decide.
Qed.

Lemma rescale_loop_paths old new cs : ∀ w,
  paths (final (for_each cs (rescale_cut old new) w)) = paths w.
Proof.
  induction cs as [|c cs IH]; intros w; simpl; [done|].
  unfold bind. pose proof (rescale_cut_paths old new c w) as Hc.
  destruct (rescale_cut old new c w) as [[] w1|e w1]; simpl in *; [|done].
  by rewrite IH.
Qed.

(** Line 1361 on the kinds of floats. *)
Lemma new_bulk_shift_kind old new s x :
  new ≠ 0%Z → shift_bulk old new s = Some x →
  new_bulk_shift old new s =
    match fl_kind x with
    | Finite => inr (fl_nearest x)
    | Infinite => inl OverflowError
    | NaN => inl ValueError
    end.
Proof.
  intros Hnew Hx. unfold new_bulk_shift.
  by rewrite bool_decide_eq_false_2, Hx by done.
Qed.

(** A cut whose scaled shift has no nearest integer: line 1361 raises and
    nothing has been written. *)
Lemma rescale_cut_raises old new c w x e :
  lines w !! c = Some x → new_bulk_shift old new (shift x) = inl e →
  rescale_cut old new c w = Raise e w.
Proof.
  intros Hx He. unfold rescale_cut.
  rewrite (bind_Ret (get_line c) _ w x w) by (unfold get_line; by rewrite Hx).
  unfold bind. by rewrite He.
Qed.

Lemma rescale_cut_ok old new c w x n :
  old ≠ 0%Z → lines w !! c = Some x →
  new_bulk_shift old new (shift x) = inr n →
  rescale_cut old new c w = Ret tt (with_lines (<[c:=rescaled old new x]> (lines w)) w).
Proof.
  intros Hold Hx Hn. unfold rescale_cut.
  rewrite (bind_Ret (get_line c) _ w x w) by (unfold get_line; by rewrite Hx).
  rewrite (bind_Ret (value_of _) _ w n w) by (by rewrite Hn).
  rewrite bool_decide_eq_false_2 by done.
  unfold bind, update_line, simplify_cross, update_line, modify. simpl. f_equal.
  unfold with_lines. simpl. f_equal.
  rewrite list_alter_alter_eq. rewrite list_insert_alter.
  apply list_eq. intros j. rewrite !list_lookup_alter.
  case_decide as Hj; [|done]. subst j. by rewrite Hx.
Qed.

Lemma rescale_loop_ok old new cs : ∀ w,
  old ≠ 0%Z → NoDup cs → Forall (roundable old new w) cs →
  ∃ w', for_each cs (rescale_cut old new) w = Ret tt w'
    ∧ paths w' = paths w ∧ op w' = op w
    ∧ contour_undo_cache w' = contour_undo_cache w
    ∧ (∀ c x, c ∈ cs → lines w !! c = Some x →
              lines w' !! c = Some (rescaled old new x))
    ∧ (∀ c, c ∉ cs → lines w' !! c = lines w !! c).
Proof.
  induction cs as [|c cs IH]; intros w Hold Hnd Hall; simpl.
  { exists w. split_and!; try done. intros c x Hc. by apply elem_of_nil in Hc. }
  apply NoDup_cons in Hnd as [Hc Hnd].
  apply Forall_cons in Hall as [(x & n & Hx & Hn) Hall].
  rewrite (bind_Ret _ _ _ _ _ (rescale_cut_ok old new c w x n Hold Hx Hn)).
  set (w1 := with_lines (<[c:=rescaled old new x]> (lines w)) w).
  destruct (IH w1 Hold Hnd) as (w' & E & Hp & Ho & Hu & Hin & Hout).
  { apply Forall_forall. intros c' Hc'.
    destruct (proj1 (Forall_forall _ _) Hall c' Hc') as (x' & n' & Hx' & Hn').
    exists x', n'. split; [|done]. simpl.
    rewrite list_lookup_insert_ne; [done|]. by intros ->. }
  exists w'. split_and!; [done..| |].
  - intros c' x' [->|Hc']%elem_of_cons Hx'.
    + rewrite Hout by done. simpl. rewrite list_lookup_insert_eq by (by eapply lookup_lt_Some).
      congruence.
    + apply Hin; [done|]. simpl. rewrite list_lookup_insert_ne; [done|].
      intros ->. done.
  - intros c' Hc'. apply not_elem_of_cons in Hc' as [Hne Hc'].
    rewrite Hout by done. simpl. by rewrite list_lookup_insert_ne.
Qed.

Lemma for_each_app_raise {A} (f : A → M unit) xs x ys e : ∀ w w1 w2,
  for_each xs f w = Ret tt w1 → f x w1 = Raise e w2 →
  for_each (xs ++ x :: ys) f w = Raise e w2.
Proof.
  induction xs as [|y xs IH]; intros w w1 w2; simpl.
  - intros [= <-] E. unfold bind. by rewrite E.
  - unfold bind. destruct (f y w) as [[] w3|]; [|done]. apply IH.
Qed.

(** The loop stops at the first cut that line 1361 raises for: the cuts
    before it are rescaled, that cut and the series are as they were. *)
Lemma rescale_loop_raises old new cs1 c0 cs2 x e w :
  old ≠ 0%Z → NoDup (cs1 ++ [c0]) → Forall (roundable old new w) cs1 →
  lines w !! c0 = Some x → new_bulk_shift old new (shift x) = inl e →
  ∃ w', for_each (cs1 ++ c0 :: cs2) (rescale_cut old new) w = Raise e w'
    ∧ paths w' = paths w ∧ lines w' !! c0 = Some x.
Proof.
  intros Hold [Hnd [Hdis _]]%NoDup_app Hall Hx He.
  destruct (rescale_loop_ok old new cs1 w Hold Hnd Hall) as
    (w1 & E1 & Hp1 & _ & _ & _ & Hout).
  assert (c0 ∉ cs1) as Hc0.
  { intros Hin. apply (Hdis c0 Hin), list_elem_of_here. }
  assert (lines w1 !! c0 = Some x) as Hx1 by (by rewrite Hout).
  exists w1. split; [|done].
  eapply for_each_app_raise; [exact E1|].
  by apply (rescale_cut_raises old new c0 w1 x e).
Qed.

(** C10.  On a selected series that is not ring-locked, the ring count
    after the event is the stepped count, which is at least 3 and is 3
    when a decrease is asked at 3; this holds in whatever state the event
    ends.  When the cuts of the series are distinct objects, the old
    count is not zero and line 1361 has a value for every cut (no scaled
    shift is a NaN or infinite), the event returns, and every cut of the
    series has its shift rescaled by new over old and its simplified
    vertices resampled to the new count from that shift, the raw vertices
    being the same.  When line 1361 raises for a cut, the event raises
    the same at the first such cut, with the new ring count written and
    that cut as it was: a NaN gives [ValueError], an infinity
    [OverflowError]. *)
Theorem unlocked_ring_segments_stepped ctx ev w sp p :
  selected_path (op w) = Some sp →
  paths w !! sp = Some p →
  ring_lock p = false →
  let old := ring_segments p in
  let new := stepped_ring_segments old ev in
  (3 ≤ new)%Z
  ∧ (old = 3%Z → ring_step ev = (-1)%Z → new = 3%Z)
  ∧ (∃ p', paths (final (modal_ring_segments ctx ev w)) !! sp = Some p'
           ∧ ring_segments p' = new ∧ cuts p' = cuts p)
  ∧ (old ≠ 0%Z → NoDup (cuts p) → Forall (roundable old new w) (cuts p) →
     ∃ w', modal_ring_segments ctx ev w = Ret tt w'
       ∧ ∀ c x, c ∈ cuts p → lines w !! c = Some x →
           ∃ x', lines w' !! c = Some x'
             ∧ shift x' = shift_rescale new old (shift x)
             ∧ verts_simple x' = verts_simple (rescaled old new x)
             ∧ verts x' = verts x)
  ∧ (∀ cs1 c0 cs2 x e, cuts p = cs1 ++ c0 :: cs2 →
       old ≠ 0%Z → NoDup (cs1 ++ [c0]) → Forall (roundable old new w) cs1 →
       lines w !! c0 = Some x → new_bulk_shift old new (shift x) = inl e →
       ∃ w' p', modal_ring_segments ctx ev w = Raise e w'
         ∧ paths w' !! sp = Some p' ∧ ring_segments p' = new
         ∧ lines w' !! c0 = Some x)
  ∧ (∀ s x, shift_bulk old new s = Some x →
       new_bulk_shift old new s =
         match fl_kind x with
         | Finite => inr (fl_nearest x)
         | Infinite => inl OverflowError
         | NaN => inl ValueError
         end).
Proof.
  intros Hsel Hp Hlock old new.
  split; [apply stepped_ring_segments_ge|].
  split.
  { intros Ho Hs. subst new. unfold stepped_ring_segments. rewrite Ho, Hs. reflexivity. }
  rewrite (modal_ring_segments_unfold ctx ev w sp p Hsel Hp), Hlock. simpl.
  fold old. fold new.
  set (w1 := take_snapshot "RING_SEGMENTS" w).
  assert (paths w1 !! sp = Some p) as Hp1.
  { unfold w1. rewrite take_snapshot_lookup_paths; [done|]. by eapply lookup_lt_Some. }
  assert (∀ c x, lines w !! c = Some x → lines w1 !! c = Some x) as Hl1.
  { intros c x Hx. unfold w1. rewrite take_snapshot_lookup_lines; [done|].
    by eapply lookup_lt_Some. }
  rewrite (bind_Ret (update_series sp (with_ring_segments new)) _ w1 tt
             (with_paths (alter (with_ring_segments new) sp (paths w1)) w1) eq_refl).
  set (w2 := with_paths (alter (with_ring_segments new) sp (paths w1)) w1).
  assert (paths w2 !! sp = Some (with_ring_segments new p)) as Hp2.
  { unfold w2. simpl. by rewrite list_lookup_alter_eq, Hp1. }
  assert (∀ cs, Forall (roundable old new w) cs → Forall (roundable old new w2) cs) as Hr2.
  { intros cs Hcs. eapply Forall_impl; [exact Hcs|]. intros c (x & n & Hx & Hn).
    exists x, n. split; [|done]. by apply Hl1. }
  (* what follows the loop keeps the cores *)
  assert (∀ w3, paths w3 = paths w2 →
            ∃ w', (backbone_from_cuts ctx sp ;;; connect_cuts_to_make_mesh ctx sp ;;;
                   update_visibility ctx sp) w3 = Ret tt w' ∧ same_cores w3 w') as Htail.
  { intros w3 Hw3.
    destruct (backbone_from_cuts_quiet ctx sp w3) as (w4 & E4 & C4);
      [by rewrite Hw3, Hp2|].
    destruct (connect_cuts_to_make_mesh_quiet ctx sp w4) as (w5 & E5 & C5).
    destruct (same_cores_series _ _ _ _ (same_cores_trans _ _ _ C4 C5)
                ltac:(by rewrite Hw3) ) as (q & Hq & _).
    destruct (update_visibility_quiet ctx sp w5) as (w6 & E6 & C6); [by rewrite Hq|].
    exists w6. rewrite (bind_Ret _ _ _ _ _ E4), (bind_Ret _ _ _ _ _ E5). split; [done|].
    eauto using same_cores_trans. }
  split_and!.
  - pose proof (rescale_loop_paths old new (cuts p) w2) as Hloop.
    unfold bind at 1.
    destruct (for_each (cuts p) (rescale_cut old new) w2) as [[] w3|e w3]; simpl in Hloop.
    + destruct (Htail w3 Hloop) as (w' & -> & C). simpl.
      destruct (same_cores_series w3 w' sp (with_ring_segments new p) C) as (q & Hq & Hcore);
        [by rewrite Hloop|].
      exists q. split; [done|]. by injection Hcore.
    + simpl. rewrite Hloop. by eexists.
  - intros Hold Hnd Hall.
    destruct (rescale_loop_ok old new (cuts p) w2 Hold Hnd (Hr2 _ Hall)) as
      (w3 & E3 & Hp3 & _ & _ & Hin & _).
    rewrite (bind_Ret _ _ _ _ _ E3).
    destruct (Htail w3 Hp3) as (w' & E & C). exists w'. split; [done|].
    intros c x Hc Hx.
    destruct (same_cores_line w3 w' c _ C (Hin c x Hc (Hl1 c x Hx))) as (x' & Hx' & Hcore).
    exists x'. split; [done|]. by injection Hcore.
  - intros cs1 c0 cs2 x e Hcs Hold Hnd Hall Hx He. rewrite Hcs.
    destruct (rescale_loop_raises old new cs1 c0 cs2 x e w2 Hold Hnd (Hr2 _ Hall)
                (Hl1 c0 x Hx) He) as (w3 & E3 & Hp3 & Hx3).
    exists w3, (with_ring_segments new p). unfold bind at 1. rewrite E3.
    split_and!; [done| |done|done]. by rewrite Hp3.
  - intros s x Hx. apply new_bulk_shift_kind; [|done].
    pose proof (stepped_ring_segments_ge old ev). subst new. lia.
Qed.

End RingSegments.

Section Placement.
Context `{ContourClasses}.
Implicit Types (w : World) (l c sel : loc) (ev : Event).

Lemma list_remove_elem_of x (xs : list loc) :
  x ∈ xs → is_Some (list_remove x xs).
Proof.
  induction xs as [|y xs IH]; [by intros ?%elem_of_nil|].
  intros Hin. simpl. case_bool_decide as Hy; [by eexists|].
  apply elem_of_cons in Hin as [->|Hin]; [done|].
  destruct (IH Hin) as [r ->]. by eexists.
Qed.

Lemma cut_lines_remove_ok sel w :
  sel ∈ cut_lines (op w) →
  ∃ r, list_remove sel (cut_lines (op w)) = Some r
    ∧ cut_lines_remove sel w = Ret tt (with_op (with_cut_lines r (op w)) w).
Proof.
  intros [r Hr]%list_remove_elem_of. exists r. split; [done|].
  unfold cut_lines_remove. by rewrite Hr.
Qed.

(** *** [insert_new_cut] *)

(** A refusal leaves the state as it was. *)
Lemma insert_new_cut_false ctx l sel search w w' :
  insert_new_cut ctx l sel search w = Ret false w' → w' = w.
Proof.
  unfold insert_new_cut, bind, get_series, get_line, get.
  destruct (paths w !! l) as [p|]; [|done].
  destruct (lines w !! sel) as [c|]; [|done].
  destruct (insertion_place _ _ _ _); [done|]. by intros [= <-].
Qed.

(** An acceptance puts the cut among the cuts of the series and writes
    to no other object. *)
Lemma insert_new_cut_true ctx l sel search w w' :
  insert_new_cut ctx l sel search w = Ret true w' →
  ∃ p q i, paths w !! l = Some p ∧ paths w' !! l = Some q
    ∧ cuts q = take i (cuts p) ++ sel :: drop i (cuts p)
    ∧ (∀ l', l' ≠ l → paths w' !! l' = paths w !! l')
    ∧ length (paths w') = length (paths w)
    ∧ lines w' = lines w ∧ op w' = op w
    ∧ contour_undo_cache w' = contour_undo_cache w.
Proof.
  unfold insert_new_cut, bind, get_series, get_line, get.
  destruct (paths w !! l) as [p|] eqn:Hp; [|done].
  destruct (lines w !! sel) as [c|]; [|done].
  assert (∀ f, (∃ i, ∀ q, cuts (f q) = take i (cuts q) ++ sel :: drop i (cuts q)) →
            update_series l f w = Ret tt w' →
            ∃ p' q i, Some p = Some p' ∧ paths w' !! l = Some q
              ∧ cuts q = take i (cuts p') ++ sel :: drop i (cuts p')
              ∧ (∀ l', l' ≠ l → paths w' !! l' = paths w !! l')
              ∧ length (paths w') = length (paths w)
              ∧ lines w' = lines w ∧ op w' = op w
              ∧ contour_undo_cache w' = contour_undo_cache w) as Hupd.
  { intros f [i Hf] [= <-]. exists p, (f p), i. simpl.
    rewrite list_lookup_alter_eq, Hp, length_alter. split_and!; try done.
    intros l' Hne. by apply list_lookup_alter_ne. }
  destruct (insertion_place _ _ _ _) as [i|]; [|done].
  destruct (update_series l _ w) as [[] w1|] eqn:E; [|done]. intros [= <-].
  eapply Hupd; [|exact E]. exists i. intros q. by destruct (ring_lock q).
Qed.


End Placement.

Section Attach.
Context `{ContourClasses}.
Implicit Types (w : World) (l sel : loc) (ev : Event).

Lemma alter_snoc {A} (f : A → A) (xs : list A) x :
  alter f (length xs) (xs ++ [x]) = xs ++ [f x].
Proof.
  rewrite <-(Nat.add_0_r (length xs)) at 1. by rewrite alter_app_r.
Qed.

Lemma lookup_snoc {A} (xs : list A) x : (xs ++ [x]) !! length xs = Some x.
Proof. by rewrite lookup_app_r, Nat.sub_diag. Qed.




End Attach.

Section Accept.
Context `{ContourClasses}.
Implicit Types (w : World) (l sel : loc) (ev : Event).

(** Lines 933-945 on the series that has taken the cut. *)
Lemma accepted_cut_spec ctx sel all l w1 q1 :
  paths w1 !! l = Some q1 →
  sel ∈ cut_lines (op w1) →
  ∃ w' q,
    (connect_cuts_to_make_mesh ctx l ;;;
     update_visibility ctx l ;;;
     update_series l (with_seg_lock true) ;;;
     do_select l ;;;
     unhighlight l ;;;
     set_selected_path (Some l) ;;;
     cut_lines_remove sel ;;;
     for_each all (λ other,
       if bool_decide (other ≠ l) then deselect other else ret tt) ;;;
     ret true) w1 = Ret true w'
    ∧ cut_paths (op w') = cut_paths (op w1)
    ∧ selected_path (op w') = Some l
    ∧ list_remove sel (cut_lines (op w1)) = Some (cut_lines (op w'))
    ∧ paths w' !! l = Some q ∧ seg_lock q = true ∧ cuts q = cuts q1
    ∧ ring_segments q = ring_segments q1
    ∧ (∀ l' p, l' ≠ l → paths w1 !! l' = Some p →
               ∃ q', paths w' !! l' = Some q' ∧ series_core q' = series_core p)
    ∧ (∀ c x, lines w1 !! c = Some x →
              ∃ y, lines w' !! c = Some y ∧ line_core y = line_core x)
    ∧ length (paths w') = length (paths w1).
Proof.
  intros Hl Hin.
  destruct (connect_cuts_to_make_mesh_quiet ctx l w1) as (wa & Ea & Ca).
  destruct (same_cores_series _ _ _ _ Ca Hl) as (qa & Hqa & _).
  destruct (update_visibility_quiet ctx l wa) as (wb & Eb & Cb); [by rewrite Hqa|].
  pose proof (same_cores_trans _ _ _ Ca Cb) as (O1b & Hopb & _).
  rewrite (bind_Ret _ _ _ _ _ Ea), (bind_Ret _ _ _ _ _ Eb).
  rewrite (bind_Ret (update_series l (with_seg_lock true)) _ wb tt _ eq_refl).
  set (wc := with_paths (alter (with_seg_lock true) l (paths wb)) wb).
  destruct (do_select_quiet l wc) as (wd & Ed & Cd).
  destruct (unhighlight_quiet l wd) as (we & Ee & Ce).
  pose proof (same_cores_trans _ _ _ Cd Ce) as (Oce & Hope & _).
  rewrite (bind_Ret _ _ _ _ _ Ed), (bind_Ret _ _ _ _ _ Ee).
  rewrite (bind_Ret (set_selected_path _) _ we tt _ eq_refl).
  set (wf := with_op (with_selected_path (Some l) (op we)) we).
  assert (op we = op w1) as Hop by (rewrite Hope; unfold wc; simpl; done).
  destruct (cut_lines_remove_ok sel wf) as (r & Hr & Eg).
  { unfold wf. simpl. by rewrite Hop. }
  rewrite (bind_Ret _ _ _ _ _ Eg).
  set (wg := with_op _ wf).
  destruct (for_each_quiet all
              (λ other, if bool_decide (other ≠ l) then deselect other else ret tt)
              (λ other, match bool_decide (other ≠ l) as b
                          return quiet (if b then deselect other else ret tt)
                        with true => deselect_quiet other | false => ret_quiet end)
              wg) as (wh & Eh & (Ogh & Hoph & _)).
  rewrite (bind_Ret _ _ _ _ _ Eh).
  (* the series at [l] through the steps *)
  destruct (same_objects_series _ _ _ _ O1b Hl) as (qb & Hqb & Hcb).
  assert (paths wc !! l = Some (with_seg_lock true qb)) as Hqc.
  { unfold wc. simpl. by rewrite list_lookup_alter_eq, Hqb. }
  assert (same_objects wc wh) as Och.
  { eapply same_objects_trans; [exact Oce|]. exact Ogh. }
  destruct (same_objects_series _ _ _ _ Och Hqc) as (q & Hq & Hcq).
  exists wh, q. split; [reflexivity|].
  rewrite Hoph. unfold wg, wf. simpl. rewrite Hop. simpl in Hr. rewrite Hop in Hr.
  injection Hcq as Hq1 Hq2 Hq3 Hq4 _ _ _ _. injection Hcb as Hb1 Hb2 Hb3 _ _ _ _ _.
  split_and!; try done; try congruence.
  - intros l' p Hne Hp.
    destruct (same_objects_series _ _ _ _ O1b Hp) as (pb & Hpb & Hcpb).
    assert (paths wc !! l' = Some pb) as Hpc.
    { unfold wc. simpl. by rewrite list_lookup_alter_ne. }
    destruct (same_objects_series _ _ _ _ Och Hpc) as (q' & Hq' & Hcq').
    exists q'. split; [done|]. congruence.
  - intros c x Hx.
    destruct (same_objects_line _ _ _ _ O1b Hx) as (xb & Hxb & Hcxb).
    destruct (same_objects_line wc wh c xb Och Hxb) as (y & Hy & Hcy).
    exists y. split; [done|]. congruence.
  - rewrite (same_objects_length _ _ Och). unfold wc. simpl.
    rewrite length_alter. by apply same_objects_length.
Qed.

(** The loop over series of which the first ones refuse the cut and the
    next one takes it. *)
Lemma offer_cut_first_accepts ctx sel search all before l after : ∀ w w1,
  Forall (λ l', ∃ w', insert_new_cut ctx l' sel search w = Ret false w') before →
  insert_new_cut ctx l sel search w = Ret true w1 →
  offer_cut ctx sel search all (before ++ l :: after) w =
    (connect_cuts_to_make_mesh ctx l ;;;
     update_visibility ctx l ;;;
     update_series l (with_seg_lock true) ;;;
     do_select l ;;;
     unhighlight l ;;;
     set_selected_path (Some l) ;;;
     cut_lines_remove sel ;;;
     for_each all (λ other,
       if bool_decide (other ≠ l) then deselect other else ret tt) ;;;
     ret true) w1.
Proof.
  induction before as [|l0 before IH]; intros w w1 Hall Hacc; simpl.
  - by rewrite (bind_Ret _ _ _ _ _ Hacc).
  - apply Forall_cons in Hall as [[w' Hl0] Hall].
    pose proof (insert_new_cut_false _ _ _ _ _ _ Hl0) as ->.
    rewrite (bind_Ret _ _ _ _ _ Hl0). by apply IH.
Qed.

(** C9.  With [force_new] off, when the series before [l] in
    [cut_paths] refuse the cut and [l] takes it, the cut is among the
    cuts of [l] and of no series that did not have it; [l] is
    segment-locked and is the selected series; the series after [l] are
    not offered the cut: like the ones before, they keep their cuts; and
    [cut_paths] is the same list. *)
Theorem first_accepting_series_takes_cut ctx w sel before l after w1 :
  cut_paths (op w) = before ++ l :: after →
  force_new (op w) = false →
  sel ∈ cut_lines (op w) →
  Forall (λ l', ∃ w', insert_new_cut ctx l' sel (search_factor (settings (op w))) w
                      = Ret false w') before →
  insert_new_cut ctx l sel (search_factor (settings (op w))) w = Ret true w1 →
  ∃ w' q, attach_cut ctx sel w = Ret tt w'
    ∧ cut_paths (op w') = cut_paths (op w)
    ∧ length (paths w') = length (paths w)
    ∧ selected_path (op w') = Some l
    ∧ paths w' !! l = Some q ∧ seg_lock q = true ∧ sel ∈ cuts q
    ∧ (∀ l' p, l' ≠ l → paths w !! l' = Some p →
               ∃ q', paths w' !! l' = Some q' ∧ cuts q' = cuts p
                     ∧ series_core q' = series_core p).
Proof.
  intros Hcp Hforce Hin Hbefore Hacc.
  destruct (insert_new_cut_true _ _ _ _ _ _ Hacc) as
    (p & q1 & i & Hp & Hq1 & Hcuts & Hother & Hlen & Hlines & Hop & _).
  destruct (accepted_cut_spec ctx sel (cut_paths (op w)) l w1 q1 Hq1) as
    (w' & q & E & H1 & H2 & _ & H4 & H5 & H6 & _ & H7 & _ & H8); [by rewrite Hop|].
  exists w', q. unfold attach_cut.
  rewrite (bind_Ret get _ w w w eq_refl).
  rewrite Hforce. rewrite bool_decide_eq_true_2 by (rewrite Hcp; by destruct before).
  simpl. rewrite Hcp at 2.
  rewrite (bind_Ret _ _ _ _ _
             (eq_trans (offer_cut_first_accepts ctx sel _ _ before l after w w1
                          Hbefore Hacc) E)).
  split_and!; try done; try congruence.
  - rewrite H6, Hcuts. apply elem_of_app. right. by left.
  - intros l' p' Hne Hp'. rewrite <-Hother in Hp' by done.
    destruct (H7 l' p' Hne Hp') as (q' & Hq' & Hcq').
    exists q'. split_and!; [done| |done]. by injection Hcq'.
Qed.

End Accept.

Section Discard.
Context `{ContourClasses}.
Implicit Types (w : World) (l sel : loc) (ev : Event).

(** Deselecting series clears selection flags and nothing else. *)
Lemma for_each_deselect_spec ls : ∀ w,
  ∃ w', for_each ls deselect w = Ret tt w'
    ∧ lines w' = lines w ∧ op w' = op w
    ∧ contour_undo_cache w' = contour_undo_cache w
    ∧ length (paths w') = length (paths w)
    ∧ ∀ l p, paths w !! l = Some p →
        ∃ q, paths w' !! l = Some q ∧ with_select false q = with_select false p.
Proof.
  induction ls as [|l0 ls IH]; intros w; simpl.
  { exists w. split_and!; try done. intros l p Hp. by exists p. }
  rewrite (bind_Ret (deselect l0) _ w tt _ eq_refl).
  destruct (IH (with_paths (alter (with_select false) l0 (paths w)) w)) as
    (w' & E & Hl & Ho & Hc & Hlen & Hp).
  exists w'. split_and!; try done.
  - by rewrite Hlen; simpl; rewrite length_alter.
  - intros l p Hlp. destruct (decide (l0 = l)) as [->|Hne].
    + destruct (Hp l (with_select false p)) as (q & Hq & Heq).
      { simpl. by rewrite list_lookup_alter_eq, Hlp. }
      exists q. split; [done|]. by rewrite Heq.
    + apply Hp. simpl. by rewrite list_lookup_alter_ne.
Qed.

Lemma hit_object_spec ctx l w c :
  lines w !! l = Some c →
  hit_object ctx l w
  = Ret (hit_test ctx c) (with_lines (alter (with_cgeom (hit_geom ctx c)) l (lines w)) w).
Proof.
  intros Hc. unfold hit_object.
  by rewrite (bind_Ret (get_line l) _ w c w) by (unfold get_line; by rewrite Hc).
Qed.

(** Lines 891-910 when the line is dropped: too short, or no hit. *)
Lemma release_place_cut_dropped ctx ev w sel c h t0 :
  selected (op w) = Some sel →
  lines w !! sel = Some c → head c = Some h → tail c = Some t0 →
  sel ∈ cut_lines (op w) →
  let t := (mouse_region_x ev, mouse_region_y ev) in
  too_short h t = true ∨ hit_test ctx (with_ends c (head c) (Some t)) = false →
  ∃ w' r, release_place_cut ctx ev w = Ret tt w'
    ∧ list_remove sel (cut_lines (op w)) = Some r
    ∧ op w' = with_selected None (with_cut_lines r (op w))
    ∧ paths w' = paths w
    ∧ contour_undo_cache w' = contour_undo_cache w
    ∧ ∀ c', c' ≠ sel → lines w' !! c' = lines w !! c'.
Proof.
  intros Hsel Hc Hh Ht Hin t Hcase. unfold release_place_cut.
  rewrite (bind_Ret get _ w w w eq_refl). rewrite Hsel.
  rewrite (bind_Ret (get_line sel) _ w c w) by (unfold get_line; by rewrite Hc).
  rewrite Ht, Hh.
  rewrite (bind_Ret (update_line sel _) _ w tt _ eq_refl). fold t.
  set (w1 := with_lines _ w).
  assert (lines w1 !! sel = Some (with_ends c (head c) (Some t))) as Hc1.
  { unfold w1. simpl. by rewrite list_lookup_alter_eq, Hc. }
  destruct (too_short h t) eqn:Hshort.
  - destruct (cut_lines_remove_ok sel w1 Hin) as (r & Hr & E).
    rewrite (bind_Ret _ _ _ _ _ E). eexists _, r. split; [reflexivity|].
    simpl. split_and!; try done. intros c' Hne. by apply list_lookup_alter_ne.
  - destruct Hcase as [?|Hmiss]; [done|].
    rewrite (bind_Ret _ _ _ _ _ (hit_object_spec ctx sel w1 _ Hc1)).
    rewrite Hmiss. change (negb false) with true. cbv iota.
    set (w2 := with_lines _ w1).
    destruct (cut_lines_remove_ok sel w2 Hin) as (r & Hr & E).
    rewrite (bind_Ret _ _ _ _ _ E). eexists _, r. split; [reflexivity|].
    simpl. split_and!; try done. intros c' Hne.
    by rewrite !list_lookup_alter_ne.
Qed.

(** Lines 833-849 when the stroke misses the surface: a series object is
    made and left behind. *)
Lemma new_path_from_draw_missed ctx w :
  ray_cast ctx (stroke_geom ctx (draw_cache (op w)) (settings (op w))) = [] →
  ∃ p, new_path_from_draw ctx w = Ret None (with_paths (paths w ++ [p]) w).
Proof.
  intros Hmiss. unfold new_path_from_draw.
  rewrite (bind_Ret get _ w w w eq_refl).
  set (p0 := ContourCutSeries_init _ _ _ _ _).
  rewrite (bind_Ret (new_series p0) _ w (length (paths w))
             (with_paths (paths w ++ [p0]) w) eq_refl).
  rewrite (bind_Ret (ray_cast_path ctx _) _ _ tt _ eq_refl).
  cbn [with_paths paths lines op contour_undo_cache]. rewrite alter_snoc.
  set (p1 := with_raw_world _ p0).
  rewrite (bind_Ret (get_series _) _ _ p1 _)
    by (unfold get_series; simpl; by rewrite lookup_snoc).
  assert (raw_world p1 = []) as -> by exact Hmiss.
  by exists p1.
Qed.

(** C7.  A stroke that is too short or misses the surface adds no series.
    In loop mode, a placed cut less than 20 pixels wide, or one whose view
    ray hits nothing: [release_place_cut] returns with the same
    [cut_paths] and the same series objects, the line is taken out of
    [cut_lines] and is no longer selected, and if it was a cut of no
    series the live graph reads as before.  In guide mode, a release with
    at most 10 points recorded: the stores and [cut_paths] are the same
    and the stroke is cleared.  In guide mode, more than 10 points whose
    ray cast gives no point: [cut_paths] is the same list, the cut lines
    are the same, the series that were there are the same but for the
    selection flag that the release clears first, no series is selected,
    and the stroke is cleared. *)
Theorem short_or_missed_stroke_adds_no_series ctx ev w :
  (∀ sel c h t0,
     selected (op w) = Some sel →
     lines w !! sel = Some c → head c = Some h → tail c = Some t0 →
     sel ∈ cut_lines (op w) →
     too_short h (mouse_region_x ev, mouse_region_y ev) = true
     ∨ hit_test ctx (with_ends c (head c) (Some (mouse_region_x ev, mouse_region_y ev)))
       = false →
     ∃ w', release_place_cut ctx ev w = Ret tt w'
       ∧ cut_paths (op w') = cut_paths (op w)
       ∧ paths w' = paths w
       ∧ selected (op w') = None
       ∧ list_remove sel (cut_lines (op w)) = Some (cut_lines (op w'))
       ∧ (sel ∉ series_lines (paths w) (cut_paths (op w)) → live_graph w' = live_graph w))
  ∧ (length (draw_cache (op w)) ≤ 10 →
     ∃ w', modal_drawing_release ctx w = Ret tt w'
       ∧ cut_paths (op w') = cut_paths (op w)
       ∧ paths w' = paths w ∧ lines w' = lines w
       ∧ draw_cache (op w') = [])
  ∧ (10 < length (draw_cache (op w)) →
     ray_cast ctx (stroke_geom ctx (draw_cache (op w)) (settings (op w))) = [] →
     ∃ w', modal_drawing_release ctx w = Ret tt w'
       ∧ cut_paths (op w') = cut_paths (op w)
       ∧ lines w' = lines w
       ∧ selected_path (op w') = None
       ∧ draw_cache (op w') = []
       ∧ ∀ l p, paths w !! l = Some p →
           ∃ q, paths w' !! l = Some q ∧ with_select false q = with_select false p).
Proof.
  split_and!.
  - intros sel c h t0 Hsel Hc Hh Ht Hin Hcase.
    destruct (release_place_cut_dropped ctx ev w sel c h t0 Hsel Hc Hh Ht Hin Hcase) as
      (w' & r & E & Hr & Hop & Hp & _ & Hl).
    exists w'. rewrite Hop. simpl. split_and!; try done.
    intros Hout. unfold live_graph. rewrite Hop. simpl. apply read_graph_ext.
    + intros l _. by rewrite Hp.
    + intros c' Hc'. apply Hl. by intros ->.
  - intros Hlen. unfold modal_drawing_release.
    rewrite (bind_Ret get _ w w w eq_refl).
    rewrite bool_decide_eq_false_2 by lia.
    eexists. split; [reflexivity|]. done.
  - intros Hlen Hmiss. unfold modal_drawing_release.
    rewrite (bind_Ret get _ w w w eq_refl).
    rewrite bool_decide_eq_true_2 by lia.
    destruct (for_each_deselect_spec (cut_paths (op w)) w) as
      (w1 & E1 & Hl1 & Ho1 & Hc1 & Hlen1 & Hp1).
    destruct (new_path_from_draw_missed ctx w1) as (p & E2); [by rewrite Ho1|].
    rewrite (bind_Ret _ _ _ tt _
               (eq_trans (bind_Ret _ _ _ _ _ E1)
                  (eq_trans (bind_Ret _ _ _ _ _ E2) eq_refl))).
    eexists. split; [reflexivity|]. simpl. rewrite Ho1, Hl1.
    split_and!; try done.
    intros l q Hq. destruct (Hp1 l q Hq) as (q' & Hq' & Heq).
    exists q'. split; [|done]. rewrite lookup_app_l; [done|]. by eapply lookup_lt_Some.
Qed.

End Discard.

Section Examples.
Import Demo.
#[local] Existing Instance demo_types.
#[local] Existing Instance demo_classes.

(** The invariant on a given state: validity by computation, and the
    regions compared element by element. *)
Ltac solve_separated :=
  unfold separated, separated_on, regions; simpl;
  repeat first
    [ split
    | apply Forall_nil_2
    | apply Forall_cons_2
    | progress simpl
    | lia
    | exact I
    | (intros ? ?%list_elem_of_In ?%list_elem_of_In; simpl in *; intuition lia) ].

Lemma world0_separated depth : separated (world0 depth).
Proof. solve_separated. Qed.

Lemma world1_separated depth locked : separated (world1 depth locked).
Proof. solve_separated. Qed.

Lemma undo_restores_within_depth_witness :
  separated (world0 2)
  ∧ run_ops place_then_delete (world0 2) = Some (after_place_then_delete 2)
  ∧ ∃ w', undo_times 2 (after_place_then_delete 2) = Ret tt w'
          ∧ live_graph w' = live_graph (world0 2).
Proof.
  split; [apply world0_separated|]. split; [reflexivity|].
  apply (undo_restores_within_depth (world0 2) (world0 2) (after_place_then_delete 2)
           [] place_then_delete).
  - apply world0_separated.
  - reflexivity.
  - reflexivity.
  - simpl. lia.
Defined.

(** C1 as stated, without the bound, fails: with [undo_depth] 1 the
    snapshot of the second operation evicts that of the first, and the
    second undo finds the cache empty. *)
Lemma undo_beyond_depth_does_not_restore :
  ¬ (∀ (w0 wn : World) (ops : list (string * list Mutation)),
       separated w0 → run_ops ops w0 = Some wn →
       live_graph (final (undo_times (length ops) wn)) = live_graph w0).
Proof.
  intros Hclaim.
  specialize (Hclaim (world0 1) (after_place_then_delete 1) place_then_delete
                (world0_separated 1) eq_refl).
  vm_compute in Hclaim. discriminate Hclaim.
Qed.

Lemma snapshot_isolated_witness :
  let w := world1 10 false in
  let w1 := take_snapshot "CUTTING" w in
  let w2 := apply_mutation (WriteLine 0 (demo_cut 7)) w1 in
  separated w
  ∧ create_undo_snapshot "CUTTING" w = Ret tt w1
  ∧ mutate [WriteLine 0 (demo_cut 7)] w1 = Some w2
  ∧ lines w2 !! 0 ≠ lines w1 !! 0
  ∧ ∀ e, e ∈ contour_undo_cache w1 → entry_graph w2 e = entry_graph w1 e.
Proof.
  intros w w1 w2.
  split; [apply world1_separated|]. split; [reflexivity|]. split; [reflexivity|].
  split; [discriminate|].
  apply (proj2 (snapshot_isolated "CUTTING" w w1 (world1_separated 10 false) eq_refl)
           [WriteLine 0 (demo_cut 7)] w2 eq_refl).
Defined.

Lemma snapshot_evicts_oldest_witness :
  let w := final (create_undo_snapshot "CUTTING" (world1 1 false)) in
  coalesced "DELETE" w = false
  ∧ length (contour_undo_cache w) ≤ 1
  ∧ length (contour_undo_cache (take_snapshot "DELETE" w)) ≤ 1.
Proof.
  intros w. split; [reflexivity|]. split; [vm_compute; lia|].
  destruct (snapshot_evicts_oldest "DELETE" w (take_snapshot "DELETE" w) eq_refl eq_refl)
    as (e & _ & _ & Hlen).
  apply Hlen. vm_compute. lia.
Defined.

(** C6 as stated fails on a cache that is already longer than
    [undo_depth], as it is after the depth has been lowered in the
    preferences: one entry comes, one goes. *)
Lemma deep_cache_stays_deep :
  ¬ (∀ (w w1 : World) action,
       coalesced action w = false →
       create_undo_snapshot action w = Ret tt w1 →
       length (contour_undo_cache w1) ≤ undo_depth (settings (op w1))).
Proof.
  intros Hclaim.
  specialize (Hclaim world_deep_cache (take_snapshot "SMOOTH" world_deep_cache)
                "SMOOTH"%string eq_refl eq_refl).
  vm_compute in Hclaim. lia.
Qed.

(** C2.  On an empty cache a repeated label makes [create_undo_snapshot]
    raise: [contour_undo_cache[-1]] has nothing to index.  Here the depth
    is 0, so the cache is empty after every snapshot. *)
Theorem snapshot_on_empty_cache_raises :
  create_undo_snapshot "LOOP_SHIFT" (world1 0 false)
  = Raise IndexError (world1 0 false).
Proof. reflexivity. Qed.

(** C3.  A repeated label and an empty cache: the call does not return,
    and no entry is pushed. *)
Theorem repeated_label_on_empty_cache_not_pushed :
  ¬ returns (create_undo_snapshot "PATH_SHIFT" (world1 10 false))
  ∧ contour_undo_cache (final (create_undo_snapshot "PATH_SHIFT" (world1 10 false))) = [].
Proof. split; [intros []|reflexivity]. Qed.

End Examples.

Section HandlerExamples.
Import Demo.
#[local] Existing Instance demo_types.
#[local] Existing Instance demo_classes.

Lemma locked_ring_segments_refused_witness :
  let w := world1 10 true in
  let ev := demo_event "WHEELUPMOUSE" 0 0 in
  is_ring_segments_event ev = true
  ∧ ring_lock (demo_series [0] 4 true) = true
  ∧ ∃ w', modal_ring_segments tt ev w = Ret tt w'
      ∧ op w' = op w
      ∧ paths w' !! 0 = Some (demo_series [0] 4 true)
      ∧ (∀ l q, paths w !! l = Some q → paths w' !! l = Some q)
      ∧ (∀ c x, lines w !! c = Some x → lines w' !! c = Some x).
Proof.
  intros w ev. split; [reflexivity|]. split; [reflexivity|].
  apply (@locked_ring_segments_refused demo_types demo_classes tt ev w 0 (demo_series [0] 4 true));
    reflexivity.
Defined.

Lemma unlocked_ring_segments_stepped_witness :
  let w := world1 10 false in
  let ev := demo_event "WHEELDOWNMOUSE" 0 0 in
  let p := demo_series [0] 3 false in
  let w3 := with_paths [p] w in
  let far := demo_cut 1000000000 in
  let w4 := with_lines [far] w3 in
  is_ring_segments_event ev = true
  ∧ ring_step ev = (-1)%Z
  ∧ (∃ p', paths (final (modal_ring_segments tt ev w3)) !! 0 = Some p'
          ∧ ring_segments p' = 3%Z ∧ cuts p' = [0])
  ∧ (∃ w', modal_ring_segments tt ev w3 = Ret tt w'
      ∧ ∀ c x, c ∈ [0] → lines w3 !! c = Some x →
          ∃ x', lines w' !! c = Some x'
            ∧ shift x' = shift_rescale 3 3 (shift x)
            ∧ verts_simple x' = verts_simple (rescaled 3 3 x)
            ∧ verts x' = verts x)
  ∧ new_bulk_shift 3 3 (shift far) = inl OverflowError
  ∧ ∃ w' p', modal_ring_segments tt ev w4 = Raise OverflowError w'
      ∧ paths w' !! 0 = Some p' ∧ ring_segments p' = 3%Z
      ∧ lines w' !! 0 = Some far.
Proof.
  intros w ev p w3 far w4. split; [reflexivity|]. split; [reflexivity|].
  destruct (@unlocked_ring_segments_stepped demo_types demo_classes tt ev w3 0 p
              eq_refl eq_refl eq_refl) as (_ & _ & Hany & Hok & _ & _).
  destruct (@unlocked_ring_segments_stepped demo_types demo_classes tt ev w4 0 p
              eq_refl eq_refl eq_refl) as (_ & _ & _ & _ & Hraise & _).
  split; [exact Hany|]. split.
  - apply Hok.
    + discriminate.
    + apply NoDup_singleton.
    + apply Forall_singleton. by eexists _, _.
  - split; [reflexivity|].
    apply (Hraise [] 0 [] far OverflowError); try done.
    apply NoDup_singleton.
Defined.

Lemma short_or_missed_stroke_adds_no_series_witness :
  (∃ w', release_place_cut tt (demo_event "LEFTMOUSE" 3 4) world_cutting = Ret tt w'
     ∧ cut_paths (op w') = [0] ∧ paths w' = paths world_cutting
     ∧ selected (op w') = None ∧ cut_lines (op w') = [])
  ∧ (∃ w', release_place_cut tt (demo_event "LEFTMOUSE" 30 40) world_cutting = Ret tt w'
     ∧ cut_paths (op w') = [0] ∧ paths w' = paths world_cutting
     ∧ selected (op w') = None ∧ cut_lines (op w') = [])
  ∧ (∃ w', modal_drawing_release tt (world_drawing 10) = Ret tt w'
     ∧ cut_paths (op w') = [0] ∧ paths w' = paths (world_drawing 10)
     ∧ lines w' = lines (world_drawing 10) ∧ draw_cache (op w') = [])
  ∧ (∃ w', modal_drawing_release tt (world_drawing 11) = Ret tt w'
     ∧ cut_paths (op w') = [0] ∧ lines w' = lines (world_drawing 11)
     ∧ selected_path (op w') = None ∧ draw_cache (op w') = []).
Proof.
  pose proof (@short_or_missed_stroke_adds_no_series demo_types demo_classes tt
                (demo_event "LEFTMOUSE" 3 4) world_cutting) as (Hshort & _ & _).
  pose proof (@short_or_missed_stroke_adds_no_series demo_types demo_classes tt
                (demo_event "LEFTMOUSE" 30 40) world_cutting) as (Hmiss & _ & _).
  pose proof (@short_or_missed_stroke_adds_no_series demo_types demo_classes tt
                (demo_event "LEFTMOUSE" 0 0) (world_drawing 10)) as (_ & Hfew & _).
  pose proof (@short_or_missed_stroke_adds_no_series demo_types demo_classes tt
                (demo_event "LEFTMOUSE" 0 0) (world_drawing 11)) as (_ & _ & Hoff).
  split_and!.
  - destruct (Hshort 1 _ (0, 0)%Z (0, 0)%Z eq_refl eq_refl eq_refl eq_refl)
      as (w' & E & H1 & H2 & H3 & H4 & _).
    + apply list_elem_of_here.
    + left. reflexivity.
    + exists w'. split_and!; try done. simpl in H4. by injection H4.
  - destruct (Hmiss 1 _ (0, 0)%Z (0, 0)%Z eq_refl eq_refl eq_refl eq_refl)
      as (w' & E & H1 & H2 & H3 & H4 & _).
    + apply list_elem_of_here.
    + right. reflexivity.
    + exists w'. split_and!; try done. simpl in H4. by injection H4.
  - destruct Hfew as (w' & E & H1 & H2 & H3 & H4); [simpl; lia|].
    by exists w'.
  - destruct Hoff as (w' & E & H1 & H2 & H3 & H4 & _); [simpl; lia|reflexivity|].
    by exists w'.
Defined.


Lemma first_accepting_series_takes_cut_witness :
  let w := world_placing [7%Z; 4%Z; 4%Z] in
  ∃ w' q, attach_cut tt 0 w = Ret tt w'
    ∧ cut_paths (op w') = [0; 1; 2]
    ∧ length (paths w') = 3
    ∧ selected_path (op w') = Some 1
    ∧ paths w' !! 1 = Some q ∧ seg_lock q = true ∧ 0 ∈ cuts q
    ∧ (∃ q', paths w' !! 2 = Some q' ∧ cuts q' = [3]).
Proof.
  intros w.
  destruct (@first_accepting_series_takes_cut demo_types demo_classes tt w 0 [0] 1 [2]
              (final (@insert_new_cut demo_types demo_classes tt 1 0 5%Z w)) eq_refl eq_refl)
    as (w' & q & E & H1 & H2 & H3 & H4 & H5 & H6 & H7).
  - apply list_elem_of_here.
  - apply Forall_singleton. eexists. reflexivity.
  - reflexivity.
  - exists w', q. split_and!; try done.
    destruct (H7 2 (demo_series [3] 4 false)) as (q' & Hq' & Hc & _); [done|done|].
    by exists q'.
Defined.

End HandlerExamples.

(** ** Sessions: any sequence of calls on the undo cache *)

Section SessionFacts.
Context `{ContourTypes}.
Implicit Types (w : World) (e : UndoEntry) (action : string).

Lemma last_drop_1_snoc {A} (l : list A) (x y : A) :
  last (drop 1 ((x :: l) ++ [y])) = Some y.
Proof. simpl. rewrite drop_0. apply last_snoc. Qed.

(** The label on top of the cache after a snapshot that was pushed onto
    entries, or with room for it. *)
Lemma take_snapshot_top action w :
  contour_undo_cache w ≠ [] ∨ 0 < undo_depth (settings (op w)) →
  ∃ e, last (contour_undo_cache (take_snapshot action w)) = Some e
    ∧ entry_action e = action
    ∧ cut_data e = (deepcopy_cut_paths w).1.
Proof.
  intros Hroom. rewrite take_snapshot_cache.
  eexists (_, _, action). split; [|done].
  case_bool_decide as Hd; [|apply last_snoc].
  destruct (contour_undo_cache w) as [|x c]; [|apply last_drop_1_snoc].
  simpl in Hd. destruct Hroom; [done|lia].
Qed.

Lemma mutate_cache ms : ∀ w w',
  mutate ms w = Some w' →
  contour_undo_cache w' = contour_undo_cache w
  ∧ settings (op w') = settings (op w).
Proof.
  induction ms as [|m ms IH]; intros w w'; simpl.
  { by intros [= <-]. }
  destruct (allowed w m); [|done]. intros Hrun.
  destruct (IH _ _ Hrun) as [-> ->]. by destruct m.
Qed.

(** What [undo_action] does, on any state. *)
Lemma undo_action_returns w :
  ∃ w', undo_action w = Ret tt w'
    ∧ paths w' = paths w ∧ lines w' = lines w
    ∧ settings (op w') = settings (op w)
    ∧ length (contour_undo_cache w') = pred (length (contour_undo_cache w))
    ∧ match last (contour_undo_cache w) with
      | None => w' = w
      | Some e => contour_undo_cache w = contour_undo_cache w' ++ [e]
                  ∧ cut_paths (op w') = cut_data e
      end.
Proof.
  destruct (contour_undo_cache w) as [|e0 rest _] eqn:Hc using rev_ind.
  - exists w. rewrite undo_action_empty by done. by rewrite Hc.
  - destruct (undo_action_snoc _ _ _ Hc) as (w' & Hu & Hp & Hl & Hc' & Hcp & Hs).
    exists w'. rewrite last_snoc, length_app, Hc'. simpl.
    split_and!; try done. lia.
Qed.

(** X1.  [undo_action] never raises: the test of the length makes the
    [pop] safe.  On an empty cache the state is the same; otherwise the
    newest entry leaves the cache, which keeps the others in their order,
    and its graph becomes [cut_paths].  No object is written. *)
Theorem undo_action_never_raises w :
  ∃ w', undo_action w = Ret tt w'
    ∧ paths w' = paths w ∧ lines w' = lines w
    ∧ settings (op w') = settings (op w)
    ∧ length (contour_undo_cache w') = pred (length (contour_undo_cache w))
    ∧ match last (contour_undo_cache w) with
      | None => w' = w
      | Some e => contour_undo_cache w = contour_undo_cache w' ++ [e]
                  ∧ cut_paths (op w') = cut_data e
      end.
Proof. apply undo_action_returns. Qed.

Lemma run_call_settings w c :
  settings (op (run_call w c)) = settings (op w).
Proof.
  destruct c as [action| |ms]; simpl.
  - unfold create_undo_snapshot. case_bool_decide.
    + destruct (last _); [|done]. case_bool_decide; [done|].
      simpl. by rewrite take_snapshot_op.
    + simpl. by rewrite take_snapshot_op.
  - destruct (undo_action_returns w) as (w' & -> & _ & _ & Hs & _). done.
  - destruct (mutate ms w) as [w'|] eqn:E; [|done]. simpl.
    by destruct (mutate_cache _ _ _ E).
Qed.

Lemma take_snapshot_length action w :
  length (contour_undo_cache (take_snapshot action w))
  ≤ max (length (contour_undo_cache w)) (undo_depth (settings (op w))).
Proof.
  rewrite take_snapshot_cache. case_bool_decide as Hd.
  - rewrite length_drop, length_app. simpl. lia.
  - rewrite length_app in *. simpl in *. lia.
Qed.

Lemma run_call_length w c :
  length (contour_undo_cache (run_call w c))
  ≤ max (length (contour_undo_cache w)) (undo_depth (settings (op w))).
Proof.
  destruct c as [action| |ms]; simpl.
  - unfold create_undo_snapshot. case_bool_decide.
    + destruct (last _); [|simpl; lia]. case_bool_decide; [simpl; lia|].
      apply take_snapshot_length.
    + apply take_snapshot_length.
  - destruct (undo_action_returns w) as (w' & -> & _ & _ & _ & Hl & _).
    simpl. lia.
  - destruct (mutate ms w) as [w'|] eqn:E; simpl; [|lia].
    destruct (mutate_cache _ _ _ E) as [-> _]. lia.
Qed.

(** X2.  Whatever snapshots, undos and changes follow one another, the
    cache is never longer than the longer of what it was and
    [undo_depth]: it stays within [undo_depth] once it is. *)
Theorem undo_cache_length_bounded (cs : list CacheCall) w :
  length (contour_undo_cache (run_calls cs w))
  ≤ max (length (contour_undo_cache w)) (undo_depth (settings (op w)))
  ∧ settings (op (run_calls cs w)) = settings (op w).
Proof.
  revert w. induction cs as [|c cs IH]; intros w; [simpl; split; [lia|done]|].
  unfold run_calls in *. simpl.
  destruct (IH (run_call w c)) as [Hlen Hset].
  pose proof (run_call_length w c). rewrite run_call_settings in Hlen, Hset.
  split; [lia|done].
Qed.

Lemma run_call_separated w c : separated w → separated (run_call w c).
Proof.
  intros Hsep. destruct c as [action| |ms]; simpl.
  - unfold create_undo_snapshot. case_bool_decide.
    + destruct (last _); [|done]. case_bool_decide; [done|].
      by apply take_snapshot_separated.
    + by apply take_snapshot_separated.
  - destruct (undo_action_returns w) as (w' & Hu & _). rewrite Hu. simpl.
    by eapply undo_action_separated.
  - destruct (mutate ms w) as [w'|] eqn:E; [|done]. simpl.
    by destruct (mutate_frame _ _ _ Hsep E) as (_ & _ & ? & _).
Qed.

(** X3.  The live graph and the graphs kept in the cache share no object
    at any point of a session: the separation holds after any sequence
    of snapshots, undos and changes of the live graph if it held before
    it. *)
Theorem session_keeps_graphs_apart (cs : list CacheCall) w :
  separated w → separated (run_calls cs w).
Proof.
  revert w. induction cs as [|c cs IH]; intros w Hsep; [done|].
  unfold run_calls in *. simpl. apply IH. by apply run_call_separated.
Qed.

(** X4.  A call under a repeated label that returns has the label on top
    of the cache, so the same call made again returns without a copy and
    without a change of the state. *)
Theorem repeated_snapshot_idempotent action w w1 :
  action ∈ repeated_actions →
  create_undo_snapshot action w = Ret tt w1 →
  create_undo_snapshot action w1 = Ret tt w1.
Proof.
  intros Hin Hsnap.
  destruct (coalesced action w) eqn:Hco.
  - rewrite create_undo_snapshot_coalesced in Hsnap by done.
    injection Hsnap as <-. by apply create_undo_snapshot_coalesced.
  - pose proof Hsnap as Hcall.
    apply create_undo_snapshot_pushes in Hsnap as ->; [|done].
    apply create_undo_snapshot_coalesced. unfold coalesced.
    rewrite bool_decide_eq_true_2 by done. simpl.
    destruct (take_snapshot_top action w) as (e & -> & He & _).
    + left. intros Hc. unfold create_undo_snapshot in Hcall.
      rewrite bool_decide_eq_true_2, Hc in Hcall by done. done.
    + by rewrite He, bool_decide_eq_true_2.
Qed.

Lemma coalesced_cache action w w' :
  contour_undo_cache w' = contour_undo_cache w →
  coalesced action w' = coalesced action w.
Proof. unfold coalesced. by intros ->. Qed.

(** The rest of a gesture, once its label is on top of the cache. *)
Lemma run_gesture_coalesced action mss : ∀ w wn g,
  separated w → recorded w [g] → coalesced action w = true →
  run_gesture action mss w = Some wn →
  separated wn ∧ recorded wn [g]
  ∧ contour_undo_cache wn = contour_undo_cache w.
Proof.
  induction mss as [|ms mss IH]; intros w wn g Hsep Hrec Hco; simpl.
  { by intros [= <-]. }
  rewrite create_undo_snapshot_coalesced by done.
  destruct (mutate ms w) as [w2|] eqn:Hmut; [|done]. simpl. intros Hrun.
  destruct (mutate_frame _ _ _ Hsep Hmut) as (Hc2 & _ & Hsep2 & Hg2).
  destruct (IH w2 wn g Hsep2) as (? & ? & ?); try done.
  - by eapply recorded_stores.
  - by rewrite (coalesced_cache _ _ _ Hc2).
  - split_and!; [done..|congruence].
Qed.

(** X5.  A gesture under a repeated label is undone at once.  When its
    first call pushes a snapshot and [undo_depth] is not 0, the later
    calls of the gesture find the label on top and push nothing, the
    cache has one entry more than before, and one [undo_action] after
    the gesture gives back the graph from before its first change. *)
Theorem gesture_undone_at_once action (mss : list (list Mutation)) w wn :
  action ∈ repeated_actions →
  separated w →
  coalesced action w = false →
  0 < undo_depth (settings (op w)) →
  mss ≠ [] →
  run_gesture action mss w = Some wn →
  length (contour_undo_cache wn) ≤ S (length (contour_undo_cache w))
  ∧ ∃ w', undo_action wn = Ret tt w' ∧ live_graph w' = live_graph w.
Proof.
  intros Hin Hsep Hco Hdepth Hne.
  destruct mss as [|ms mss]; [done|]. simpl.
  destruct (create_undo_snapshot action w) as [[] w1|] eqn:Hsnap; [|done].
  apply create_undo_snapshot_pushes in Hsnap as ->; [|done].
  destruct (mutate ms (take_snapshot action w)) as [w2|] eqn:Hmut; [|done]. simpl.
  intros Hrun.
  pose proof (take_snapshot_separated action w Hsep) as Hsep1.
  pose proof (take_snapshot_recorded action w [] Hsep (recorded_nil w) Hdepth) as Hrec1.
  destruct (mutate_frame _ _ _ Hsep1 Hmut) as (Hc2 & _ & Hsep2 & Hg2).
  pose proof (recorded_stores _ _ _ Hc2 Hg2 Hrec1) as Hrec2.
  assert (coalesced action w2 = true) as Hco2.
  { rewrite (coalesced_cache _ _ _ Hc2). unfold coalesced.
    rewrite bool_decide_eq_true_2 by done. simpl.
    destruct (take_snapshot_top action w) as (e & -> & He & _); [by right|].
    by rewrite He, bool_decide_eq_true_2. }
  destruct (run_gesture_coalesced _ _ _ _ _ Hsep2 Hrec2 Hco2 Hrun) as (Hsepn & Hrecn & Hcn).
  split.
  - rewrite Hcn, Hc2, take_snapshot_cache. case_bool_decide.
    + rewrite length_drop, length_app. simpl. lia.
    + rewrite length_app. simpl. lia.
  - destruct (undo_action_recorded wn [] (live_graph w) Hsepn Hrecn) as (w' & Hu & Hg & _).
    by exists w'.
Qed.

End SessionFacts.

(** ** Handlers and the objects of the undo cache *)

Section CacheFrame.
Context `{ContourClasses}.
Implicit Types (w : World) (e : UndoEntry) (l c sp : loc).

Lemma keeps_cache_refl w : keeps_cache w w.
Proof. by split_and!. Qed.

Lemma keeps_cache_owned w w' :
  keeps_cache w w' →
  owned_series w' = owned_series w ∧ owned_lines w' = owned_lines w.
Proof.
  intros (Hc & _ & _ & _ & Hp & _).
  assert (owned_series w' = owned_series w) as Hos by (unfold owned_series; by rewrite Hc).
  split; [done|]. unfold owned_lines. rewrite Hos. by apply series_lines_ext.
Qed.

Lemma keeps_cache_trans w1 w2 w3 :
  keeps_cache w1 w2 → keeps_cache w2 w3 → keeps_cache w1 w3.
Proof.
  intros H12 H23. destruct (keeps_cache_owned _ _ H12) as [Hos Hol].
  destruct H12 as (Hc1 & Hs1 & Hlp1 & Hll1 & Hp1 & Hl1).
  destruct H23 as (Hc2 & Hs2 & Hlp2 & Hll2 & Hp2 & Hl2).
  split_and!; [congruence|congruence|lia|lia|..].
  - intros l Hl. rewrite Hp2 by (by rewrite Hos). by apply Hp1.
  - intros c Hc. rewrite Hl2 by (by rewrite Hol). by apply Hl1.
Qed.

(** The graphs of the cache read the same in a state that keeps it. *)
Lemma keeps_cache_entry_graph w w' e :
  keeps_cache w w' → e ∈ contour_undo_cache w → entry_graph w' e = entry_graph w e.
Proof.
  intros (_ & _ & _ & _ & Hp & Hl) He. unfold entry_graph. apply read_graph_ext.
  - intros l Hin. apply Hp. apply elem_of_owned_series. eauto.
  - intros c Hin. apply Hl. apply elem_of_owned_lines. eauto.
Qed.

Lemma update_series_keeps l f w :
  l ∉ owned_series w → keeps_cache w (with_paths (alter f l (paths w)) w).
Proof.
  intros Hl. split_and!; simpl; try done.
  - by rewrite length_alter.
  - intros l' Hl'. apply list_lookup_alter_ne. by intros ->.
Qed.

Lemma update_line_keeps c f w :
  c ∉ owned_lines w → keeps_cache w (with_lines (alter f c (lines w)) w).
Proof.
  intros Hc. split_and!; simpl; try done.
  - by rewrite length_alter.
  - intros c' Hc'. apply list_lookup_alter_ne. by intros ->.
Qed.

Lemma with_op_keeps w o :
  settings o = settings (op w) → keeps_cache w (with_op o w).
Proof. intros Hs. by split_and!. Qed.

(** The objects of a valid cache are below the ends of the stores, so a
    new object is none of them. *)
Lemma new_series_keeps w p :
  separated w → keeps_cache w (with_paths (paths w ++ [p]) w).
Proof.
  intros Hsep. split_and!; simpl; try done.
  - rewrite length_app. lia.
  - intros l (e & He & Hl)%elem_of_owned_series. apply lookup_app_l.
    destruct (separated_entry _ _ Hsep He) as [Hv _]. by eapply Forall_forall in Hv.
Qed.

Lemma new_line_keeps w x :
  separated w → keeps_cache w (with_lines (lines w ++ [x]) w).
Proof.
  intros Hsep. split_and!; simpl; try done.
  - rewrite length_app. lia.
  - intros c (e & He & Hc)%elem_of_owned_lines. apply lookup_app_l.
    destruct (separated_entry _ _ Hsep He) as [_ Hv]. by eapply Forall_forall in Hv.
Qed.

(** A loop of writes to cut lines that the cache does not own. *)
Lemma for_each_lines_keeps (g : loc → ContourCutLine → ContourCutLine) cs : ∀ w,
  Forall (λ c, c ∉ owned_lines w) cs →
  ∃ w', for_each cs (λ c, update_line c (g c)) w = Ret tt w'
    ∧ keeps_cache w w' ∧ paths w' = paths w ∧ op w' = op w.
Proof.
  induction cs as [|c cs IH]; intros w Hall; simpl.
  { exists w. by split_and!. }
  apply Forall_cons in Hall as [Hc Hall].
  rewrite (bind_Ret (update_line c (g c)) _ w tt _ eq_refl).
  pose proof (update_line_keeps c (g c) w Hc) as Hk.
  destruct (keeps_cache_owned _ _ Hk) as [_ Hol].
  destruct (IH (with_lines (alter (g c) c (lines w)) w)) as (w' & E & Hk' & Hp & Ho).
  { by rewrite Hol. }
  exists w'. split_and!; [done| |done|done]. by eapply keeps_cache_trans.
Qed.

(** *** The geometry methods on a series the cache does not own *)

Lemma connect_cuts_to_make_mesh_keeps ctx l w :
  l ∉ owned_series w →
  ∃ w', connect_cuts_to_make_mesh ctx l w = Ret tt w'
    ∧ keeps_cache w w' ∧ same_cores w w'.
Proof.
  intros Hl. destruct (connect_cuts_to_make_mesh_quiet ctx l w) as (w' & E & C).
  exists w'. split_and!; [done| |done].
  unfold connect_cuts_to_make_mesh in E.
  rewrite (bind_Ret get _ w w w eq_refl) in E. injection E as <-.
  by apply update_series_keeps.
Qed.

Lemma update_visibility_keeps ctx l w p :
  paths w !! l = Some p →
  Forall (λ c, c ∉ owned_lines w) (cuts p) →
  ∃ w', update_visibility ctx l w = Ret tt w'
    ∧ keeps_cache w w' ∧ same_cores w w'.
Proof.
  intros Hp Hfree.
  destruct (update_visibility_quiet ctx l w) as (w' & E & C); [by rewrite Hp|].
  exists w'. split_and!; [done| |done].
  unfold update_visibility in E.
  rewrite (bind_Ret (get_series l) _ w p w) in E by (unfold get_series; by rewrite Hp).
  destruct (for_each_lines_keeps (λ _ x, with_cgeom (visible_geom ctx x) x) (cuts p) w Hfree)
    as (w1 & E1 & Hk & _).
  rewrite E1 in E. by injection E as <-.
Qed.

Lemma backbone_from_cuts_keeps ctx l w p :
  paths w !! l = Some p →
  l ∉ owned_series w →
  Forall (λ c, c ∉ owned_lines w) (cuts p) →
  ∃ w', backbone_from_cuts ctx l w = Ret tt w'
    ∧ keeps_cache w w' ∧ same_cores w w'.
Proof.
  intros Hp Hl Hfree.
  destruct (backbone_from_cuts_quiet ctx l w) as (w' & E & C); [by rewrite Hp|].
  exists w'. split_and!; [done| |done].
  unfold backbone_from_cuts in E.
  rewrite (bind_Ret (get_series l) _ w p w) in E by (unfold get_series; by rewrite Hp).
  rewrite (bind_Ret get _ w w w eq_refl) in E.
  destruct (for_each_lines_keeps
              (λ _ x, with_cgeom (backbone_cut_geom ctx (read_series (lines w) p) x) x)
              (cuts p) w Hfree) as (w1 & E1 & Hk & _).
  rewrite (bind_Ret _ _ _ _ _ E1) in E. injection E as <-.
  eapply keeps_cache_trans; [exact Hk|]. apply update_series_keeps.
  by destruct (keeps_cache_owned _ _ Hk) as [-> _].
Qed.

(** *** The live graph and the cache *)

(** A series of [cut_paths] and its cuts are no objects of the cache. *)
Lemma live_not_owned w l p :
  separated w → l ∈ cut_paths (op w) → paths w !! l = Some p →
  (l ∉ owned_series w) ∧ Forall (λ c, c ∉ owned_lines w) (cuts p).
Proof.
  intros Hsep Hl Hp. destruct (separated_live _ Hsep) as (_ & Hd1 & Hd2).
  split; [intros ?; by eapply Hd1|].
  apply Forall_forall. intros c Hc Hown. apply (Hd2 c); [|done].
  apply elem_of_series_lines. eauto.
Qed.

Lemma live_series_exists w l :
  separated w → l ∈ cut_paths (op w) → is_Some (paths w !! l).
Proof.
  intros Hsep Hl. destruct (separated_live _ Hsep) as ([Hv _] & _).
  apply lookup_lt_is_Some. by eapply Forall_forall in Hv.
Qed.

(** After a snapshot with room in the cache, a state that keeps the
    cache is undone to the graph from before the snapshot. *)
Lemma undo_after_snapshot action w w' :
  separated w →
  0 < undo_depth (settings (op w)) →
  keeps_cache (take_snapshot action w) w' →
  ∃ w'', undo_action w' = Ret tt w''
    ∧ live_graph w'' = live_graph w
    ∧ paths w'' = paths w' ∧ lines w'' = lines w'.
Proof.
  intros Hsep Hdepth Hk.
  destruct (take_snapshot_top action w) as (e & Hlast & _ & Hdata); [by right|].
  destruct (take_snapshot_graphs action w Hsep) as (_ & Hnew & _).
  pose proof Hk as (Hc & _).
  destruct (undo_action_returns w') as (w'' & Hu & Hp & Hl & _ & _ & Hpop).
  rewrite Hc, Hlast in Hpop. destruct Hpop as [Hsplit Hcp].
  exists w''. split_and!; [done| |done|done].
  unfold live_graph. rewrite Hp, Hl, Hcp.
  change (read_graph (paths w') (lines w') (cut_data e)) with (entry_graph w' e).
  rewrite (keeps_cache_entry_graph _ _ e Hk).
  - unfold entry_graph. by rewrite Hdata.
  - apply last_Some in Hlast as [pre ->]. apply elem_of_app. right. by left.
Qed.

(** *** What a method writes *)

(** A loop of writes to cut lines: the lines outside the loop, the
    series and the operator are the same. *)
Lemma for_each_lines_frame (g : loc → ContourCutLine → ContourCutLine) cs : ∀ w,
  ∃ w', for_each cs (λ c, update_line c (g c)) w = Ret tt w'
    ∧ paths w' = paths w ∧ op w' = op w
    ∧ contour_undo_cache w' = contour_undo_cache w
    ∧ length (lines w') = length (lines w)
    ∧ ∀ c, c ∉ cs → lines w' !! c = lines w !! c.
Proof.
  induction cs as [|c0 cs IH]; intros w; simpl.
  { exists w. by split_and!. }
  rewrite (bind_Ret (update_line c0 (g c0)) _ w tt _ eq_refl).
  destruct (IH (with_lines (alter (g c0) c0 (lines w)) w)) as
    (w' & E & Hp & Ho & Hc & Hlen & Hl).
  exists w'. split_and!; try done.
  - by rewrite Hlen; simpl; rewrite length_alter.
  - intros c [Hne Hc']%not_elem_of_cons. rewrite Hl by done. simpl.
    by apply list_lookup_alter_ne.
Qed.

Lemma update_visibility_frame ctx l w p :
  paths w !! l = Some p →
  ∃ w', update_visibility ctx l w = Ret tt w'
    ∧ paths w' = paths w ∧ op w' = op w
    ∧ contour_undo_cache w' = contour_undo_cache w
    ∧ length (lines w') = length (lines w)
    ∧ ∀ c, c ∉ cuts p → lines w' !! c = lines w !! c.
Proof.
  intros Hp. unfold update_visibility.
  rewrite (bind_Ret (get_series l) _ w p w) by (unfold get_series; by rewrite Hp).
  apply (for_each_lines_frame (λ _ x, with_cgeom (visible_geom ctx x) x)).
Qed.

Lemma backbone_from_cuts_frame ctx l w p :
  paths w !! l = Some p →
  ∃ w' g, backbone_from_cuts ctx l w = Ret tt w'
    ∧ paths w' = <[l:=with_pgeom g p]> (paths w) ∧ op w' = op w
    ∧ contour_undo_cache w' = contour_undo_cache w
    ∧ length (lines w') = length (lines w)
    ∧ ∀ c, c ∉ cuts p → lines w' !! c = lines w !! c.
Proof.
  intros Hp. unfold backbone_from_cuts.
  rewrite (bind_Ret (get_series l) _ w p w) by (unfold get_series; by rewrite Hp).
  rewrite (bind_Ret get _ w w w eq_refl).
  destruct (for_each_lines_frame
              (λ _ x, with_cgeom (backbone_cut_geom ctx (read_series (lines w) p) x) x)
              (cuts p) w) as (w1 & E1 & Hp1 & Ho1 & Hc1 & Hlen1 & Hl1).
  rewrite (bind_Ret _ _ _ _ _ E1).
  eexists _, (backbone_geom ctx (read_series (lines w) p)). split; [reflexivity|].
  simpl. rewrite Hp1. split_and!; try done.
  apply list_eq. intros j. destruct (decide (l = j)) as [<-|Hne].
  - rewrite list_lookup_alter_eq, Hp.
    by rewrite list_lookup_insert_eq by (by eapply lookup_lt_Some).
  - by rewrite list_lookup_alter_ne, list_lookup_insert_ne.
Qed.

(** A state that differs from [w] in series and cut lines the cache does
    not own, and in new objects, keeps the cache. *)
Lemma frame_keeps_cache w w' (S L : list loc) :
  separated w →
  contour_undo_cache w' = contour_undo_cache w →
  settings (op w') = settings (op w) →
  length (paths w) ≤ length (paths w') →
  length (lines w) ≤ length (lines w') →
  (∀ l, l < length (paths w) → l ∉ S → paths w' !! l = paths w !! l) →
  (∀ c, c < length (lines w) → c ∉ L → lines w' !! c = lines w !! c) →
  (∀ l, l ∈ S → l ∉ owned_series w) →
  (∀ c, c ∈ L → c ∉ owned_lines w) →
  keeps_cache w w'.
Proof.
  intros Hsep Hc Hs Hlp Hll Hp Hl HS HL. split_and!; try done.
  - intros l Hown. apply Hp.
    + apply elem_of_owned_series in Hown as (e & He & Hl').
      destruct (separated_entry _ _ Hsep He) as [Hv _]. by eapply Forall_forall in Hv.
    + intros Hin. by apply (HS l).
  - intros c Hown. apply Hl.
    + apply elem_of_owned_lines in Hown as (e & He & Hc').
      destruct (separated_entry _ _ Hsep He) as [_ Hv]. by eapply Forall_forall in Hv.
    + intros Hin. by apply (HL c).
Qed.

End CacheFrame.

(** ** Undo after a handler *)

Section HandlerUndo.
Context `{ContourClasses} `{!HostValues}.
Implicit Types (w : World) (e : UndoEntry) (l c sp : loc) (ev : Event).

Lemma bind_Ret_inv {A B} (m : M A) (k : A → M B) w b w' :
  bind m k w = Ret b w' → ∃ a w1, m w = Ret a w1 ∧ k a w1 = Ret b w'.
Proof. unfold bind. destruct (m w); [eauto|done]. Qed.

Lemma keeps_cache_free w w' l (cs : list loc) :
  keeps_cache w w' →
  l ∉ owned_series w → Forall (λ c, c ∉ owned_lines w) cs →
  (l ∉ owned_series w') ∧ Forall (λ c, c ∉ owned_lines w') cs.
Proof. intros [-> ->]%keeps_cache_owned. done. Qed.

(** *** The ring-segment event *)

Lemma rescale_cut_keeps old new c w w' :
  c ∉ owned_lines w → rescale_cut old new c w = Ret tt w' →
  keeps_cache w w' ∧ paths w' = paths w ∧ op w' = op w.
Proof.
  intros Hc. unfold rescale_cut, bind, get_line.
  destruct (lines w !! c) as [x|]; [|done].
  destruct (new_bulk_shift old new (shift x)); simpl; [done|].
  case_bool_decide; [done|].
  set (f := with_shift (shift_rescale new old (shift x))).
  change (update_line c f w) with (Ret tt (with_lines (alter f c (lines w)) w)).
  pose proof (update_line_keeps c f w Hc) as K1.
  set (w1 := with_lines (alter f c (lines w)) w) in *.
  set (g := λ y : ContourCutLine, with_verts_simple (resample new y) y).
  change (simplify_cross new c w1) with (Ret tt (with_lines (alter g c (lines w1)) w1)).
  intros [= <-]. split; [|done].
  eapply keeps_cache_trans; [exact K1|].
  apply update_line_keeps. by destruct (keeps_cache_owned _ _ K1) as [_ ->].
Qed.

Lemma rescale_loop_keeps old new cs : ∀ w w',
  Forall (λ c, c ∉ owned_lines w) cs →
  for_each cs (rescale_cut old new) w = Ret tt w' →
  keeps_cache w w' ∧ paths w' = paths w ∧ op w' = op w.
Proof.
  induction cs as [|c cs IH]; intros w w' Hall; simpl.
  { intros [= <-]. split; [apply keeps_cache_refl|done]. }
  apply Forall_cons in Hall as [Hc Hall].
  intros ([] & w1 & E1 & E2)%bind_Ret_inv.
  destruct (rescale_cut_keeps _ _ _ _ _ Hc E1) as (K1 & P1 & O1).
  destruct (IH w1 w') as (K2 & P2 & O2); [|done|].
  { by destruct (keeps_cache_owned _ _ K1) as [_ ->]. }
  split_and!; [by eapply keeps_cache_trans|congruence..].
Qed.

(** The backbone, the bridge and the visibility of a series the cache
    does not own. *)
Lemma ring_tail_keeps ctx sp w p :
  paths w !! sp = Some p →
  sp ∉ owned_series w → Forall (λ c, c ∉ owned_lines w) (cuts p) →
  ∃ w', (backbone_from_cuts ctx sp ;;; connect_cuts_to_make_mesh ctx sp ;;;
         update_visibility ctx sp) w = Ret tt w'
    ∧ keeps_cache w w' ∧ same_cores w w'.
Proof.
  intros Hp Hs Hl.
  destruct (backbone_from_cuts_keeps ctx sp w p Hp Hs Hl) as (w1 & E1 & K1 & C1).
  destruct (keeps_cache_free _ _ _ _ K1 Hs Hl) as [Hs1 Hl1].
  destruct (connect_cuts_to_make_mesh_keeps ctx sp w1 Hs1) as (w2 & E2 & K2 & C2).
  destruct (keeps_cache_free _ _ _ _ K2 Hs1 Hl1) as [Hs2 Hl2].
  destruct (same_cores_series _ _ _ _ (same_cores_trans _ _ _ C1 C2) Hp) as (q & Hq & Hcore).
  assert (cuts q = cuts p) as Hcq by (by injection Hcore).
  destruct (update_visibility_keeps ctx sp w2 q Hq) as (w3 & E3 & K3 & C3);
    [by rewrite Hcq|].
  exists w3. rewrite (bind_Ret _ _ _ _ _ E1), (bind_Ret _ _ _ _ _ E2).
  split_and!; [done|eauto using keeps_cache_trans|eauto using same_cores_trans].
Qed.

(** X6.  The ring-segment event is undone by one [undo_action].  With a
    selected series that is one of [cut_paths] and [undo_depth] not 0: if
    the event returns, whether the series is locked or not, the next
    [undo_action] returns and [cut_paths] reads as the graph from before
    the event, ring counts, shifts and vertices of every cut
    included. *)
Theorem ring_segments_event_undone ctx ev w sp w' :
  separated w →
  0 < undo_depth (settings (op w)) →
  selected_path (op w) = Some sp →
  sp ∈ cut_paths (op w) →
  modal_ring_segments ctx ev w = Ret tt w' →
  ∃ w'', undo_action w' = Ret tt w'' ∧ live_graph w'' = live_graph w.
Proof.
  intros Hsep Hdepth Hsel Hin Hrun.
  destruct (live_series_exists w sp Hsep Hin) as [p Hp].
  rewrite (modal_ring_segments_unfold ctx ev w sp p Hsel Hp) in Hrun. simpl in Hrun.
  set (w1 := take_snapshot "RING_SEGMENTS" w) in *.
  assert (keeps_cache w1 w') as Hk; [|
    destruct (undo_after_snapshot "RING_SEGMENTS" w w' Hsep Hdepth Hk) as (w'' & ? & ? & _);
    by exists w''].
  assert (paths w1 !! sp = Some p) as Hp1.
  { unfold w1. rewrite take_snapshot_lookup_paths; [done|]. by eapply lookup_lt_Some. }
  destruct (live_not_owned w1 sp p) as [Hs1 Hl1]; [by apply take_snapshot_separated| |done|].
  { unfold w1. by rewrite take_snapshot_op. }
  destruct (ring_lock p); simpl in Hrun.
  { injection Hrun as <-. apply keeps_cache_refl. }
  set (new := stepped_ring_segments (ring_segments p) ev) in *.
  rewrite (bind_Ret (update_series sp (with_ring_segments new)) _ w1 tt _ eq_refl) in Hrun.
  set (w2 := with_paths _ w1) in Hrun.
  pose proof (update_series_keeps sp (with_ring_segments new) w1 Hs1) as K12. fold w2 in K12.
  destruct (keeps_cache_free _ _ _ _ K12 Hs1 Hl1) as [Hs2 Hl2].
  apply bind_Ret_inv in Hrun as ([] & w3 & E3 & Hrun).
  destruct (rescale_loop_keeps _ _ _ _ _ Hl2 E3) as (K23 & P3 & _).
  destruct (keeps_cache_free _ _ _ _ K23 Hs2 Hl2) as [Hs3 Hl3].
  destruct (ring_tail_keeps ctx sp w3 (with_ring_segments new p)) as (w4 & E4 & K34 & _);
    [|done|done|].
  { rewrite P3. unfold w2. simpl. by rewrite list_lookup_alter_eq, Hp1. }
  rewrite E4 in Hrun. injection Hrun as <-.
  eauto using keeps_cache_trans.
Qed.

(** *** Deleting the selected series in guide mode *)

Lemma list_remove_Some x (xs r : list loc) :
  list_remove x xs = Some r → ∃ a b, xs = a ++ x :: b ∧ (x ∉ a) ∧ r = a ++ b.
Proof.
  revert r. induction xs as [|y xs IH]; intros r; simpl; [done|].
  case_bool_decide as Hy.
  - intros [= <-]. subst y. exists [], xs. split_and!; [done| |done]. apply not_elem_of_nil.
  - destruct (list_remove x xs) as [r'|]; [|done]. simpl. intros [= <-].
    destruct (IH r' eq_refl) as (a & b & -> & Ha & ->).
    exists (y :: a), b. split_and!; [done| |done].
    apply not_elem_of_cons. split; [congruence|done].
Qed.

Lemma list_remove_None x (xs : list loc) :
  x ∉ xs → list_remove x xs = None.
Proof.
  induction xs as [|y xs IH]; [done|].
  intros [Hne Hin]%not_elem_of_cons. simpl.
  rewrite bool_decide_eq_false_2 by congruence. by rewrite IH.
Qed.

Lemma delete_snapshot w :
  create_undo_snapshot "DELETE" w = Ret tt (take_snapshot "DELETE" w).
Proof. reflexivity. Qed.

Lemma modal_guide_delete_unfold w sp :
  selected_path (op w) = Some sp →
  modal_guide_delete w =
    let w1 := take_snapshot "DELETE" w in
    match list_remove sp (cut_paths (op w)) with
    | Some r =>
        Ret tt (with_op (with_modal_state WAITING (with_selected_path None
                  (with_cut_paths r (op w)))) w1)
    | None => Raise ValueError w1
    end.
Proof.
  intros Hsel. unfold modal_guide_delete.
  rewrite (bind_Ret get _ w w w eq_refl), Hsel.
  rewrite (bind_Ret _ _ _ _ _ (delete_snapshot w)).
  rewrite (bind_Ret get _ _ _ _ eq_refl). rewrite take_snapshot_op. simpl.
  destruct (list_remove sp (cut_paths (op w))) as [r|]; [|done].
  unfold bind, modify_op, set_selected_path, modify_op, modify. simpl.
  by rewrite take_snapshot_op.
Qed.

(** X7.  X or DEL in guide mode takes the first occurrence of the
    selected series out of [cut_paths] and leaves no series selected; no
    object that was there is written.  When the selected series is not
    one of [cut_paths], [list.remove] raises [ValueError], after the
    snapshot has been taken. *)
Theorem guide_delete_removes_selected w sp :
  selected_path (op w) = Some sp →
  (sp ∈ cut_paths (op w) →
     ∃ w' a b, modal_guide_delete w = Ret tt w'
       ∧ cut_paths (op w) = a ++ sp :: b ∧ (sp ∉ a)
       ∧ cut_paths (op w') = a ++ b
       ∧ selected_path (op w') = None
       ∧ modal_state (op w') = WAITING
       ∧ (∀ l p, paths w !! l = Some p → paths w' !! l = Some p)
       ∧ (∀ c x, lines w !! c = Some x → lines w' !! c = Some x))
  ∧ (sp ∉ cut_paths (op w) →
     modal_guide_delete w = Raise ValueError (take_snapshot "DELETE" w)).
Proof.
  intros Hsel. rewrite (modal_guide_delete_unfold w sp Hsel). simpl. split.
  - intros [r Hr]%list_remove_elem_of. rewrite Hr.
    destruct (list_remove_Some _ _ _ Hr) as (a & b & Hab & Ha & ->).
    eexists _, a, b. split; [reflexivity|]. simpl. split_and!; try done.
    + intros l p Hp. rewrite take_snapshot_lookup_paths; [done|]. by eapply lookup_lt_Some.
    + intros c x Hx. rewrite take_snapshot_lookup_lines; [done|]. by eapply lookup_lt_Some.
  - intros Hout. by rewrite list_remove_None.
Qed.

(** X8.  A series deleted in guide mode comes back with one
    [undo_action], when [undo_depth] is not 0: [cut_paths] reads as the
    graph from before the deletion. *)
Theorem guide_delete_undone w sp w' :
  separated w →
  0 < undo_depth (settings (op w)) →
  selected_path (op w) = Some sp →
  modal_guide_delete w = Ret tt w' →
  ∃ w'', undo_action w' = Ret tt w'' ∧ live_graph w'' = live_graph w.
Proof.
  intros Hsep Hdepth Hsel Hrun.
  rewrite (modal_guide_delete_unfold w sp Hsel) in Hrun. simpl in Hrun.
  destruct (list_remove sp (cut_paths (op w))) as [r|]; [|done].
  injection Hrun as <-.
  destruct (undo_after_snapshot "DELETE" w
              (with_op (with_modal_state WAITING (with_selected_path None
                 (with_cut_paths r (op w)))) (take_snapshot "DELETE" w)) Hsep Hdepth)
    as (w'' & ? & ? & _).
  - apply with_op_keeps. simpl. by rewrite take_snapshot_op.
  - by exists w''.
Qed.

(** *** Shifting the selected series in guide mode *)

Lemma arrow_body_keeps sp p (step : fl) c w :
  paths w !! sp = Some p → c ∉ owned_lines w →
  ∃ w', (update_line c (λ x, with_shift (fl_add (shift x) step) x) ;;;
         q <- get_series sp ;;
         simplify_cross (ring_segments q) c) w = Ret tt w'
    ∧ keeps_cache w w' ∧ paths w' = paths w ∧ op w' = op w.
Proof.
  intros Hp Hc.
  rewrite (bind_Ret (update_line c _) _ w tt _ eq_refl).
  set (w1 := with_lines _ w).
  pose proof (update_line_keeps c (λ x, with_shift (fl_add (shift x) step) x) w Hc) as K1.
  fold w1 in K1.
  rewrite (bind_Ret (get_series sp) _ w1 p w1) by (unfold get_series; simpl; by rewrite Hp).
  eexists. split; [reflexivity|]. split; [|done].
  eapply keeps_cache_trans; [exact K1|].
  apply update_line_keeps. by destruct (keeps_cache_owned _ _ K1) as [_ ->].
Qed.

Lemma arrow_loop_keeps sp p (step : fl) cs : ∀ w,
  paths w !! sp = Some p →
  Forall (λ c, c ∉ owned_lines w) cs →
  ∃ w', for_each cs (λ cut,
          update_line cut (λ x, with_shift (fl_add (shift x) step) x) ;;;
          q <- get_series sp ;;
          simplify_cross (ring_segments q) cut) w = Ret tt w'
    ∧ keeps_cache w w' ∧ paths w' = paths w ∧ op w' = op w.
Proof.
  induction cs as [|c cs IH]; intros w Hp Hall; simpl.
  { exists w. by split_and!. }
  apply Forall_cons in Hall as [Hc Hall].
  destruct (arrow_body_keeps sp p step c w Hp Hc) as (w1 & E1 & K1 & P1 & O1).
  rewrite (bind_Ret _ _ _ _ _ E1).
  destruct (IH w1) as (w' & E & K' & P & O); [by rewrite P1| |].
  { by destruct (keeps_cache_owned _ _ K1) as [_ ->]. }
  exists w'. split_and!; [done|by eapply keeps_cache_trans|congruence|congruence].
Qed.

Lemma guide_arrow_shift_keeps ctx ev w sp p :
  selected_path (op w) = Some sp → paths w !! sp = Some p →
  sp ∉ owned_series w → Forall (λ c, c ∉ owned_lines w) (cuts p) →
  ∃ w', guide_arrow_shift ctx ev w = Ret tt w'
    ∧ keeps_cache w w' ∧ op w' = op w
    ∧ ∃ q, paths w' !! sp = Some q ∧ series_core q = series_core p.
Proof.
  intros Hsel Hp Hs Hl. unfold guide_arrow_shift.
  rewrite (bind_Ret get _ w w w eq_refl), Hsel.
  rewrite (bind_Ret (get_series sp) _ w p w) by (unfold get_series; by rewrite Hp).
  destruct (arrow_loop_keeps sp p
              (if bool_decide (ev_type ev = "LEFT_ARROW"%string) then fl_0_05 else fl_neg_0_05)
              (cuts p) w Hp Hl) as (w1 & E1 & K1 & P1 & O1).
  rewrite (bind_Ret _ _ _ _ _ E1).
  destruct (keeps_cache_free _ _ _ _ K1 Hs Hl) as [Hs1 Hl1].
  destruct (connect_cuts_to_make_mesh_keeps ctx sp w1 Hs1) as (w2 & E2 & K2 & C2).
  destruct (keeps_cache_free _ _ _ _ K2 Hs1 Hl1) as [Hs2 Hl2].
  destruct (same_cores_series w1 w2 sp p C2) as (q & Hq & Hcore); [by rewrite P1|].
  assert (cuts q = cuts p) as Hcq by (by injection Hcore).
  destruct (update_visibility_keeps ctx sp w2 q Hq) as (w3 & E3 & K3 & C3);
    [by rewrite Hcq|].
  exists w3. rewrite (bind_Ret _ _ _ _ _ E2).
  split_and!; [done|eauto using keeps_cache_trans| |].
  - destruct C3 as (_ & -> & _), C2 as (_ & -> & _). exact O1.
  - destruct (same_cores_series w2 w3 sp q C3 Hq) as (q' & Hq' & Hcore').
    exists q'. split; [done|congruence].
Qed.

(** The presses after the first: the label is on top of the cache. *)
Lemma guide_arrow_repeated ctx evs sp : ∀ w wn p,
  selected_path (op w) = Some sp → paths w !! sp = Some p →
  sp ∉ owned_series w → Forall (λ c, c ∉ owned_lines w) (cuts p) →
  coalesced "PATH_SHIFT" w = true →
  for_each evs (modal_guide_arrow ctx) w = Ret tt wn →
  keeps_cache w wn.
Proof.
  induction evs as [|ev evs IH]; intros w wn p Hsel Hp Hs Hl Hco; simpl.
  { intros [= <-]. apply keeps_cache_refl. }
  intros ([] & w1 & E1 & E2)%bind_Ret_inv.
  unfold modal_guide_arrow in E1.
  rewrite (bind_Ret get _ w w w eq_refl), Hsel in E1.
  rewrite (bind_Ret _ _ _ _ _ (create_undo_snapshot_coalesced _ _ Hco)) in E1.
  destruct (guide_arrow_shift_keeps ctx ev w sp p Hsel Hp Hs Hl) as
    (w1' & E1' & K1 & O1 & q & Hq & Hcore).
  rewrite E1' in E1. injection E1 as ->.
  destruct (keeps_cache_free _ _ _ _ K1 Hs Hl) as [Hs1 Hl1].
  assert (cuts q = cuts p) as Hcq by (by injection Hcore).
  eapply keeps_cache_trans; [exact K1|].
  apply (IH w1 wn q); try done.
  - by rewrite O1.
  - by rewrite Hcq.
  - destruct K1 as (Hc & _). by rewrite (coalesced_cache _ _ _ Hc).
Qed.

(** X9.  A run of arrow presses in guide mode is undone at once.  The
    first press pushes a snapshot under PATH_SHIFT; every later press
    finds that label on top of the cache and pushes nothing; and one
    [undo_action] after the run gives back the graph from before the
    first press, every shift and every resampled cut included. *)
Theorem guide_arrow_run_undone ctx (evs : list Event) w sp wn :
  separated w →
  0 < undo_depth (settings (op w)) →
  selected_path (op w) = Some sp →
  sp ∈ cut_paths (op w) →
  coalesced "PATH_SHIFT" w = false →
  evs ≠ [] →
  for_each evs (modal_guide_arrow ctx) w = Ret tt wn →
  length (contour_undo_cache wn) ≤ S (length (contour_undo_cache w))
  ∧ ∃ w', undo_action wn = Ret tt w' ∧ live_graph w' = live_graph w.
Proof.
  intros Hsep Hdepth Hsel Hin Hco Hne.
  destruct evs as [|ev evs]; [done|]. simpl.
  intros ([] & w2 & E1 & E2)%bind_Ret_inv.
  unfold modal_guide_arrow in E1.
  rewrite (bind_Ret get _ w w w eq_refl), Hsel in E1.
  apply bind_Ret_inv in E1 as ([] & w1 & Hsnap & E1).
  apply create_undo_snapshot_pushes in Hsnap as ->; [|done].
  set (w1 := take_snapshot "PATH_SHIFT" w) in *.
  destruct (live_series_exists w sp Hsep Hin) as [p Hp].
  assert (paths w1 !! sp = Some p) as Hp1.
  { unfold w1. rewrite take_snapshot_lookup_paths; [done|]. by eapply lookup_lt_Some. }
  assert (op w1 = op w) as Ho1 by apply take_snapshot_op.
  destruct (live_not_owned w1 sp p) as [Hs1 Hl1];
    [by apply take_snapshot_separated|by rewrite Ho1|done|].
  destruct (guide_arrow_shift_keeps ctx ev w1 sp p) as
    (w2' & E1' & K1 & O2 & q & Hq & Hcore); [by rewrite Ho1|done..|].
  rewrite E1' in E1. injection E1 as ->.
  destruct (keeps_cache_free _ _ _ _ K1 Hs1 Hl1) as [Hs2 Hl2].
  assert (cuts q = cuts p) as Hcq by (by injection Hcore).
  assert (coalesced "PATH_SHIFT" w2 = true) as Hco2.
  { destruct K1 as (Hc & _). rewrite (coalesced_cache _ _ _ Hc). unfold coalesced, w1.
    destruct (take_snapshot_top "PATH_SHIFT" w) as (e & -> & He & _); [by right|].
    rewrite He. reflexivity. }
  assert (keeps_cache w2 wn) as K2.
  { apply (guide_arrow_repeated ctx evs sp w2 wn q); try done.
    - by rewrite O2, Ho1.
    - by rewrite Hcq. }
  pose proof (keeps_cache_trans _ _ _ K1 K2) as K.
  split.
  - destruct K as (-> & _). unfold w1. rewrite take_snapshot_cache. case_bool_decide.
    + rewrite length_drop, length_app. simpl. lia.
    + rewrite length_app. simpl. lia.
  - destruct (undo_after_snapshot "PATH_SHIFT" w wn Hsep Hdepth K) as (w' & ? & ? & _).
    by exists w'.
Qed.

End HandlerUndo.

(** ** Guide mode: the N key and a drawn stroke *)

Section ForceNew.
Context `{ContourClasses} `{!HostValues}.
Implicit Types (w : World) (l c sp : loc) (ev : Event).

(** [new_path_from_draw] with [self.snap] set to [None]: the stroke is
    cast, and [self.snap[0]] raises. *)
Lemma new_path_from_draw_no_snap ctx w :
  snap (op w) = SnapNone → force_new (op w) = false →
  ray_cast ctx (stroke_geom ctx (draw_cache (op w)) (settings (op w))) ≠ [] →
  ∃ w', new_path_from_draw ctx w = Raise TypeError w'
    ∧ op w' = op w ∧ lines w' = lines w
    ∧ contour_undo_cache w' = contour_undo_cache w
    ∧ ∀ l p, paths w !! l = Some p → paths w' !! l = Some p.
Proof.
  intros Hsnap Hforce Hhit. unfold new_path_from_draw.
  rewrite (bind_Ret get _ w w w eq_refl).
  set (p0 := ContourCutSeries_init _ _ _ _ _).
  rewrite (bind_Ret (new_series p0) _ w (length (paths w))
             (with_paths (paths w ++ [p0]) w) eq_refl).
  rewrite (bind_Ret (ray_cast_path ctx _) _ _ tt _ eq_refl).
  cbn [with_paths paths lines op contour_undo_cache]. rewrite alter_snoc.
  set (p1 := with_raw_world _ p0).
  rewrite (bind_Ret (get_series _) _ _ p1 _)
    by (unfold get_series; simpl; by rewrite lookup_snoc).
  rewrite bool_decide_eq_false_2.
  2:{ intros Hlen. apply Hhit. by apply nil_length_inv. }
  rewrite (bind_Ret (find_knots ctx _) _ _ tt _ eq_refl).
  cbn [with_paths paths lines op contour_undo_cache]. rewrite alter_snoc.
  rewrite Hsnap, Hforce. simpl.
  eexists. split; [reflexivity|]. simpl. split_and!; try done.
  intros l p Hp. rewrite lookup_app_l; [done|]. by eapply lookup_lt_Some.
Qed.

Lemma drawing_release_no_snap ctx w :
  snap (op w) = SnapNone →
  force_new (op w) = false →
  10 < length (draw_cache (op w)) →
  ray_cast ctx (stroke_geom ctx (draw_cache (op w)) (settings (op w))) ≠ [] →
  ∃ w', modal_drawing_release ctx w = Raise TypeError w'
    ∧ op w' = op w ∧ lines w' = lines w.
Proof.
  intros Hsnap Hforce Hlen Hhit. unfold modal_drawing_release.
  rewrite (bind_Ret get _ w w w eq_refl).
  rewrite bool_decide_eq_true_2 by lia.
  destruct (for_each_deselect_spec (cut_paths (op w)) w) as
    (w1 & E1 & Hl1 & Ho1 & Hc1 & Hlen1 & Hp1).
  destruct (new_path_from_draw_no_snap ctx w1) as (w2 & E2 & Ho2 & Hl2 & _);
    [by rewrite Ho1..|].
  exists w2. split; [|split; congruence].
  apply bind_Raise. rewrite (bind_Ret _ _ _ _ _ E1). by apply bind_Raise.
Qed.

(** X10.  With [self.snap] left at [None] by the N key and [force_new]
    off, the release of a stroke of more than 10 points that meets the
    surface raises [TypeError] at [self.snap[0]].  The stroke is not
    cleared and the operator stays in its drawing state with the same
    [snap], so the next release raises again: the operator cannot leave
    the drawing state by a release. *)
Theorem release_with_snap_none_raises ctx w :
  snap (op w) = SnapNone →
  force_new (op w) = false →
  10 < length (draw_cache (op w)) →
  ray_cast ctx (stroke_geom ctx (draw_cache (op w)) (settings (op w))) ≠ [] →
  ∃ w', modal_drawing_release ctx w = Raise TypeError w'
    ∧ op w' = op w
    ∧ lines w' = lines w
    ∧ ∃ w'', modal_drawing_release ctx w' = Raise TypeError w''.
Proof.
  intros Hsnap Hforce Hlen Hhit.
  destruct (drawing_release_no_snap ctx w Hsnap Hforce Hlen Hhit) as (w' & E & Ho & Hl).
  exists w'. split_and!; [done..|].
  destruct (drawing_release_no_snap ctx w') as (w'' & E' & _); [by rewrite Ho..|].
  by exists w''.
Qed.

Lemma modal_force_new_twice w :
  (modal_force_new ;;; modal_force_new) w
  = Ret tt (with_op (with_snap SnapNone (op w)) w).
Proof.
  unfold modal_force_new, bind, modify_op, modify. simpl.
  unfold with_op, with_snap, with_force_new. simpl.
  by rewrite negb_involutive.
Qed.

Lemma drawing_moves evs : ∀ w,
  for_each evs modal_drawing_move w
  = Ret tt (with_op (with_draw_cache
              (draw_cache (op w) ++ ((λ ev, (mouse_region_x ev, mouse_region_y ev)) <$> evs))
              (op w)) w).
Proof.
  induction evs as [|ev evs IH]; intros w; simpl.
  { rewrite app_nil_r. by destruct w as [? ? [] ?]. }
  rewrite (bind_Ret (modal_drawing_move ev) _ w tt _ eq_refl).
  rewrite IH. simpl. unfold with_op, with_draw_cache. simpl.
  by rewrite <-(assoc_L (++)).
Qed.

Lemma draw_path_snapshot w :
  create_undo_snapshot "DRAW_PATH" w = Ret tt (take_snapshot "DRAW_PATH" w).
Proof. reflexivity. Qed.

(** X11.  The N key pressed twice leaves [force_new] as it was and
    [self.snap] at [None], and the stroke drawn next cannot be released:
    from a state with [force_new] off and no stroke, after N, N, a press
    on nothing, more than 10 moves and the release of a stroke that meets
    the surface, [modal] raises [TypeError]. *)
Theorem force_new_twice_breaks_drawing ctx (evs : list Event) w :
  force_new (op w) = false →
  draw_cache (op w) = [] →
  10 < length evs →
  ray_cast ctx (stroke_geom ctx
    ((λ ev, (mouse_region_x ev, mouse_region_y ev)) <$> evs) (settings (op w))) ≠ [] →
  ∃ w', (modal_force_new ;;; modal_force_new ;;;
         modal_guide_press HoverNone ;;;
         for_each evs modal_drawing_move ;;;
         modal_drawing_release ctx) w = Raise TypeError w'
    ∧ modal_state (op w') = DRAWING
    ∧ draw_cache (op w') = (λ ev, (mouse_region_x ev, mouse_region_y ev)) <$> evs
    ∧ cut_paths (op w') = cut_paths (op w).
Proof.
  intros Hforce Hdraw Hlen Hhit.
  pose proof (modal_force_new_twice w) as E1.
  unfold bind at 1 in E1.
  destruct (modal_force_new w) as [[] wa|] eqn:Ea; [|done].
  rewrite (bind_Ret _ _ _ _ _ Ea), (bind_Ret _ _ _ _ _ E1).
  set (w1 := with_op _ w).
  set (w2 := with_op (with_modal_state DRAWING (op (take_snapshot "DRAW_PATH" w1)))
               (take_snapshot "DRAW_PATH" w1)).
  rewrite (bind_Ret (modal_guide_press HoverNone) _ w1 tt w2 eq_refl).
  rewrite (bind_Ret _ _ _ _ _ (drawing_moves evs w2)).
  set (w3 := with_op _ w2).
  assert (op w3 = with_draw_cache
            ((λ ev, (mouse_region_x ev, mouse_region_y ev)) <$> evs)
            (with_modal_state DRAWING (with_snap SnapNone (op w)))) as Ho3.
  { unfold w3, w2. simpl. rewrite take_snapshot_op. unfold w1. simpl. by rewrite Hdraw. }
  destruct (drawing_release_no_snap ctx w3) as (w' & E & Ho & _).
  - by rewrite Ho3.
  - by rewrite Ho3.
  - rewrite Ho3. simpl. by rewrite length_fmap.
  - by rewrite Ho3.
  - exists w'. rewrite Ho, Ho3. done.
Qed.

End ForceNew.

(** ** Guide mode: the segment event *)

Section PathSegments.
Context `{ContourClasses} `{!HostValues}.
Implicit Types (w : World) (l sp : loc) (ev : Event).

(** X12.  On a segment-locked selected series the segment event of guide
    mode does nothing at all: no snapshot is taken (the ring-segment event
    of loop mode takes one even when locked), no count changes, and the
    state is the same. *)
Theorem locked_path_segments_ignored ctx ev w sp p :
  selected_path (op w) = Some sp →
  paths w !! sp = Some p →
  seg_lock p = true →
  modal_path_segments ctx ev w = Ret tt w.
Proof.
  intros Hsel Hp Hlock. unfold modal_path_segments.
  rewrite (bind_Ret get _ w w w eq_refl), Hsel.
  rewrite (bind_Ret (get_series sp) _ w p w) by (unfold get_series; by rewrite Hp).
  rewrite Hlock. simpl.
  assert (∀ b1 b2 : bool,
            (if b1 then ret tt else if b2 then ret tt else ret tt) w = Ret tt w) as Hif.
  { by intros [] []. }
  rewrite (bind_Ret _ _ _ _ _ (Hif _ _)).
  rewrite (bind_Ret (get_series sp) _ w p w) by (unfold get_series; by rewrite Hp).
  by rewrite Hlock.
Qed.

Lemma stepped_segments_ge old ev : (3 ≤ old → 3 ≤ stepped_segments old ev)%Z.
Proof.
  unfold stepped_segments. intros Hold.
  case_bool_decide; [lia|].
  destruct (bool_decide (ev_type ev ∈ _)); simpl; [|done].
  case_bool_decide; lia.
Qed.

Lemma bind_cong_l {A B} (m1 m2 : M A) (k : A → M B) w :
  m1 w = m2 w → bind m1 k w = bind m2 k w.
Proof. unfold bind. by intros ->. Qed.

(** A snapshot that returns leaves the objects that were there. *)
Lemma create_undo_snapshot_Ret action w ws :
  create_undo_snapshot action w = Ret tt ws →
  op ws = op w
  ∧ paths w `prefix_of` paths ws ∧ lines w `prefix_of` lines ws
  ∧ (ws = w ∨ ws = take_snapshot action w).
Proof.
  unfold create_undo_snapshot. intros Hs.
  assert (ws = w ∨ ws = take_snapshot action w) as [->| ->].
  { destruct (bool_decide (action ∈ repeated_actions)).
    - destruct (last (contour_undo_cache w)); [|done].
      destruct (bool_decide _); injection Hs as <-; auto.
    - injection Hs as <-. auto. }
  - split_and!; [done..|by left].
  - split_and!; [apply take_snapshot_op|apply take_snapshot_paths
                |apply take_snapshot_lines|by right].
Qed.

Lemma snapshot_then_step sp p (f g : ContourCutSeries loc → ContourCutSeries loc) w :
  paths w !! sp = Some p → f p = g p →
  (create_undo_snapshot "PATH_SEGMENTS" ;;; update_series sp f) w
  = (create_undo_snapshot "PATH_SEGMENTS" ;;; update_series sp g) w.
Proof.
  intros Hp Hfg. unfold bind.
  destruct (create_undo_snapshot "PATH_SEGMENTS" w) as [[] ws|e ws] eqn:Es; [|done].
  destruct (create_undo_snapshot_Ret _ _ _ Es) as (_ & Hpre & _ & _).
  assert (paths ws !! sp = Some p) as Hps.
  { rewrite (prefix_lookup _ _ _ Hpre); [done|]. by eapply lookup_lt_Some. }
  unfold update_series, modify. do 2 f_equal.
  apply list_eq. intros j. rewrite !list_lookup_alter.
  destruct (decide (sp = j)) as [<-|]; [|done]. rewrite Hps. simpl. by rewrite Hfg.
Qed.

(** The first part of the event: the snapshot and the step. *)
Lemma path_segments_step_unfold ctx ev w sp p :
  selected_path (op w) = Some sp → paths w !! sp = Some p → seg_lock p = false →
  modal_path_segments ctx ev w =
    ((if bool_decide (stepped_segments (segments p) ev = segments p) then ret tt
      else create_undo_snapshot "PATH_SEGMENTS" ;;;
           update_series sp (with_segments (stepped_segments (segments p) ev))) ;;;
     p1 <- get_series sp ;;
     if negb (seg_lock p1) then
       create_cut_nodes ctx sp ;;;
       snap_to_object ctx sp ;;;
       cuts_on_path ctx sp ;;;
       connect_cuts_to_make_mesh ctx sp ;;;
       update_visibility ctx sp ;;;
       backbone_from_cuts ctx sp ;;;
       p2 <- get_series sp ;;
       match last (cuts p2) with
       | Some c => set_selected (Some c)
       | None => raise IndexError
       end
     else ret tt) w.
Proof.
  intros Hsel Hp Hlock. unfold modal_path_segments.
  rewrite (bind_Ret get _ w w w eq_refl), Hsel.
  rewrite (bind_Ret (get_series sp) _ w p w) by (unfold get_series; by rewrite Hp).
  rewrite Hlock. simpl negb. cbv iota.
  unfold stepped_segments.
  destruct (bool_decide (ev_type ev ∈ ["WHEELUPMOUSE"; "NUMPAD_PLUS"]%string)).
  - rewrite bool_decide_eq_false_2 by lia.
    apply bind_cong_l. by apply (snapshot_then_step sp p).
  - destruct (bool_decide (ev_type ev ∈ ["WHEELDOWNMOUSE"; "NUMPAD_MINUS"]%string));
      simpl; [|by rewrite bool_decide_eq_true_2].
    case_bool_decide as Hgt; simpl; [|by rewrite bool_decide_eq_true_2].
    rewrite bool_decide_eq_false_2 by lia.
    apply bind_cong_l. by apply (snapshot_then_step sp p).
Qed.

(** X13.  On an empty undo cache, the segment event of guide mode on a
    series that is not locked raises [IndexError] whenever it asks for
    another count (one more, or one less above 3): the label
    PATH_SEGMENTS is a repeated one and [create_undo_snapshot] indexes the
    empty cache.  The count and every object stay as they were. *)
Theorem path_segments_on_empty_cache_raises ctx ev w sp p :
  selected_path (op w) = Some sp →
  paths w !! sp = Some p →
  seg_lock p = false →
  contour_undo_cache w = [] →
  stepped_segments (segments p) ev ≠ segments p →
  modal_path_segments ctx ev w = Raise IndexError w.
Proof.
  intros Hsel Hp Hlock Hc Hstep.
  rewrite (path_segments_step_unfold ctx ev w sp p Hsel Hp Hlock).
  rewrite bool_decide_eq_false_2 by done.
  apply bind_Raise, bind_Raise. unfold create_undo_snapshot. by rewrite Hc.
Qed.

(** *** The cuts made again *)

Lemma new_lines_spec (ncs : list ContourCutLine) : ∀ w,
  new_lines ncs w
  = Ret (seq (length (lines w)) (length ncs)) (with_lines (lines w ++ ncs) w).
Proof.
  induction ncs as [|x ncs IH]; intros w; simpl.
  { rewrite app_nil_r. by destruct w. }
  rewrite (bind_Ret (new_line x) _ w (length (lines w))
             (with_lines (lines w ++ [x]) w) eq_refl).
  rewrite (bind_Ret _ _ _ _ _ (IH _)). simpl.
  rewrite length_app, Nat.add_1_r, <-(assoc_L (++)). done.
Qed.

(** The second part of the event on a series that is not locked: the
    cuts are made again at the nodes, as new objects; no other series and
    no cut line that was there is written. *)
Lemma regenerate_cuts ctx sp w q :
  paths w !! sp = Some q → seg_lock q = false →
  let rest :=
    (p1 <- get_series sp ;;
     if negb (seg_lock p1) then
       create_cut_nodes ctx sp ;;;
       snap_to_object ctx sp ;;;
       cuts_on_path ctx sp ;;;
       connect_cuts_to_make_mesh ctx sp ;;;
       update_visibility ctx sp ;;;
       backbone_from_cuts ctx sp ;;;
       p2 <- get_series sp ;;
       match last (cuts p2) with
       | Some c => set_selected (Some c)
       | None => raise IndexError
       end
     else ret tt) in
  ∃ q', paths (final (rest w)) !! sp = Some q'
    ∧ segments q' = segments q ∧ ring_segments q' = ring_segments q
    ∧ Forall (λ c, length (lines w) ≤ c) (cuts q')
    ∧ contour_undo_cache (final (rest w)) = contour_undo_cache w
    ∧ match last (cuts q') with
      | Some c => ∃ w', rest w = Ret tt w' ∧ selected (op w') = Some c
      | None => ∃ w', rest w = Raise IndexError w'
      end
    ∧ settings (op (final (rest w))) = settings (op w)
    ∧ cut_paths (op (final (rest w))) = cut_paths (op w)
    ∧ selected_path (op (final (rest w))) = selected_path (op w)
    ∧ seg_lock q' = seg_lock q
    ∧ length (paths (final (rest w))) = length (paths w)
    ∧ length (lines w) ≤ length (lines (final (rest w)))
    ∧ (∀ l, l ≠ sp → paths (final (rest w)) !! l = paths w !! l)
    ∧ (∀ c, c < length (lines w) → lines (final (rest w)) !! c = lines w !! c).
Proof.
  intros Hq Hlock rest. unfold rest.
  rewrite (bind_Ret (get_series sp) _ w q w) by (unfold get_series; by rewrite Hq).
  rewrite Hlock. change (negb false) with true. cbv iota.
  rewrite (bind_Ret (create_cut_nodes ctx sp) _ w tt _ eq_refl).
  rewrite (bind_Ret (snap_to_object ctx sp) _ _ tt _ eq_refl).
  cbn [with_paths paths lines op contour_undo_cache].
  set (ps2 := alter _ sp (alter _ sp (paths w))).
  set (q2 := with_pgeom (snapped_geom ctx (pgeom (with_pgeom
               (nodes_geom ctx (segments q) (pgeom q)) q)))
               (with_pgeom (nodes_geom ctx (segments q) (pgeom q)) q)).
  assert (ps2 !! sp = Some q2) as Hq2.
  { unfold ps2. by rewrite !list_lookup_alter_eq, Hq. }
  assert (length ps2 = length (paths w)) as Hlen2.
  { unfold ps2. by rewrite !length_alter. }
  assert (∀ l, l ≠ sp → ps2 !! l = paths w !! l) as Hne2.
  { intros l Hl. unfold ps2. by rewrite !list_lookup_alter_ne. }
  set (w2 := mkWorld ps2 (lines w) (op w) (contour_undo_cache w)).
  set (ncs := node_cuts ctx (ring_segments q2) (pgeom q2)).
  set (cs := seq (length (lines w)) (length ncs)).
  set (w3 := with_paths (alter (with_cuts cs) sp ps2)
               (with_lines (lines w ++ ncs) w2)).
  assert (cuts_on_path ctx sp w2 = Ret tt w3) as E3.
  { unfold cuts_on_path.
    rewrite (bind_Ret (get_series sp) _ w2 q2 w2) by (unfold get_series; simpl; by rewrite Hq2).
    fold ncs. by rewrite (bind_Ret _ _ _ _ _ (new_lines_spec ncs w2)). }
  rewrite (bind_Ret _ _ _ _ _ E3).
  rewrite (bind_Ret (connect_cuts_to_make_mesh ctx sp) _ w3 tt _ eq_refl).
  set (q4 := with_pgeom (bridge_geom ctx (read_series (lines w3) (with_cuts cs q2)))
               (with_cuts cs q2)).
  set (w4 := with_paths _ w3).
  assert (paths w4 !! sp = Some q4) as Hq4.
  { unfold w4, w3. simpl. by rewrite !list_lookup_alter_eq, Hq2. }
  destruct (update_visibility_frame ctx sp w4 q4 Hq4) as
    (w5 & E5 & Hp5 & Ho5 & Hc5 & Hlen5 & Hl5).
  destruct (backbone_from_cuts_frame ctx sp w5 q4) as
    (w6 & g & E6 & Hp6 & Ho6 & Hc6 & Hlen6 & Hl6); [by rewrite Hp5|].
  rewrite (bind_Ret _ _ _ _ _ E5), (bind_Ret _ _ _ _ _ E6).
  assert (paths w6 !! sp = Some (with_pgeom g q4)) as Hq6.
  { rewrite Hp6, list_lookup_insert_eq; [done|]. rewrite Hp5. by eapply lookup_lt_Some. }
  rewrite (bind_Ret (get_series sp) _ w6 _ w6 ltac:(unfold get_series; by rewrite Hq6)).
  change (cuts (with_pgeom g q4)) with cs.
  exists (with_pgeom g q4).
  change (cuts (with_pgeom g q4)) with cs.
  set (m := match last cs with
            | Some c => set_selected (Some c)
            | None => raise IndexError
            end).
  assert (paths (final (m w6)) = paths w6 ∧ lines (final (m w6)) = lines w6
          ∧ contour_undo_cache (final (m w6)) = contour_undo_cache w6
          ∧ settings (op (final (m w6))) = settings (op w6)
          ∧ cut_paths (op (final (m w6))) = cut_paths (op w6)
          ∧ selected_path (op (final (m w6))) = selected_path (op w6))
    as (Hpf & Hlf & Hcf & Hsf & Hcpf & Hspf).
  { unfold m. by destruct (last cs). }
  rewrite Hpf, Hlf, Hcf, Hsf, Hcpf, Hspf, Hc6, Hc5, Ho6, Ho5, Hlen6, Hlen5.
  assert (∀ c, c < length (lines w) → c ∉ cs) as Hold.
  { intros c Hc Hin%elem_of_seq. lia. }
  split_and!; try done.
  - apply Forall_forall. intros c Hc%elem_of_seq. lia.
  - unfold m. destruct (last cs) as [c|]; eexists; [split|]; reflexivity.
  - rewrite Hp6, length_insert, Hp5. unfold w4, w3. simpl. by rewrite !length_alter.
  - unfold w4, w3. simpl. rewrite length_app. lia.
  - intros l Hl. rewrite Hp6, list_lookup_insert_ne, Hp5 by done.
    unfold w4, w3. simpl. rewrite !list_lookup_alter_ne by done. by apply Hne2.
  - intros c Hc. rewrite Hl6, Hl5 by (by apply Hold).
    unfold w4, w3. simpl. by apply lookup_app_l.
Qed.

(** X14.  The segment event of guide mode on a series that is not locked,
    when the snapshot call can return (the cache is not empty, or the
    event asks for no other count).  In the state the event ends in, the
    series has the stepped count, which is not below 3 if the count was
    not, one more on WHEELUP or NUMPAD_PLUS, one less on the other two
    above 3; its ring count is the same; and its cuts are new objects,
    made again even when the count is the same.  The event returns with
    the last cut selected when there is a cut, and raises [IndexError] at
    [cuts[-1]] when there is none. *)
Theorem unlocked_path_segments_stepped ctx ev w sp p :
  selected_path (op w) = Some sp →
  paths w !! sp = Some p →
  seg_lock p = false →
  contour_undo_cache w ≠ [] ∨ stepped_segments (segments p) ev = segments p →
  (3 ≤ segments p → 3 ≤ stepped_segments (segments p) ev)%Z
  ∧ ∃ p', paths (final (modal_path_segments ctx ev w)) !! sp = Some p'
      ∧ segments p' = stepped_segments (segments p) ev
      ∧ ring_segments p' = ring_segments p
      ∧ Forall (λ c, length (lines w) ≤ c) (cuts p')
      ∧ match last (cuts p') with
        | Some c => ∃ w', modal_path_segments ctx ev w = Ret tt w'
                          ∧ selected (op w') = Some c
        | None => ∃ w', modal_path_segments ctx ev w = Raise IndexError w'
        end.
Proof.
  intros Hsel Hp Hlock Hcan. split; [apply stepped_segments_ge|].
  rewrite (path_segments_step_unfold ctx ev w sp p Hsel Hp Hlock).
  set (new := stepped_segments (segments p) ev) in *.
  assert (∃ wa qa,
            (if bool_decide (new = segments p) then ret tt
             else create_undo_snapshot "PATH_SEGMENTS" ;;;
                  update_series sp (with_segments new)) w = Ret tt wa
            ∧ paths wa !! sp = Some qa
            ∧ segments qa = new ∧ ring_segments qa = ring_segments p
            ∧ seg_lock qa = false
            ∧ length (lines w) ≤ length (lines wa)) as
    (wa & qa & Ea & Hqa & Hs & Hr & Hl & Hlen).
  { case_bool_decide as Hsame.
    - exists w, p. by split_and!.
    - destruct Hcan as [Hne|]; [|done].
      assert (∃ ws, create_undo_snapshot "PATH_SEGMENTS" w = Ret tt ws) as [ws Es].
      { unfold create_undo_snapshot. simpl.
        destruct (last (contour_undo_cache w)) eqn:El.
        - destruct (bool_decide _); by eexists.
        - by apply last_None in El. }
      destruct (create_undo_snapshot_Ret _ _ _ Es) as (_ & Hpre & Hprel & _).
      assert (paths ws !! sp = Some p) as Hps.
      { rewrite (prefix_lookup _ _ _ Hpre); [done|]. by eapply lookup_lt_Some. }
      eexists _, (with_segments new p). split.
      { rewrite (bind_Ret _ _ _ _ _ Es). reflexivity. }
      simpl. rewrite list_lookup_alter_eq, Hps. split_and!; try done.
      by apply prefix_length. }
  rewrite (bind_Ret _ _ _ _ _ Ea).
  destruct (regenerate_cuts ctx sp wa qa Hqa Hl) as (q' & Hq' & Hs' & Hr' & Hnew & _ & Hend & _).
  exists q'. split_and!; [done|congruence|congruence| |done].
  eapply Forall_impl; [exact Hnew|]. simpl. lia.
Qed.

(** *** The segment event and the undo cache *)

Lemma owned_lines_valid w c :
  separated w → c ∈ owned_lines w → c < length (lines w).
Proof.
  intros Hsep (e & He & Hc)%elem_of_owned_lines.
  destruct (separated_entry _ _ Hsep He) as [_ Hv]. by eapply Forall_forall in Hv.
Qed.

(** The regeneration writes the selected series and new objects only. *)
Lemma regenerate_cuts_keeps ctx sp w q (rest : M unit) w' :
  rest = (p1 <- get_series sp ;;
          if negb (seg_lock p1) then
            create_cut_nodes ctx sp ;;;
            snap_to_object ctx sp ;;;
            cuts_on_path ctx sp ;;;
            connect_cuts_to_make_mesh ctx sp ;;;
            update_visibility ctx sp ;;;
            backbone_from_cuts ctx sp ;;;
            p2 <- get_series sp ;;
            match last (cuts p2) with
            | Some c => set_selected (Some c)
            | None => raise IndexError
            end
          else ret tt) →
  paths w !! sp = Some q → seg_lock q = false →
  sp ∉ owned_series w →
  (∀ c, c ∈ owned_lines w → c < length (lines w)) →
  rest w = Ret tt w' →
  keeps_cache w w'
  ∧ selected_path (op w') = selected_path (op w)
  ∧ ∃ q', paths w' !! sp = Some q' ∧ seg_lock q' = false.
Proof.
  intros -> Hq Hlock Hs Hv Hrun.
  destruct (regenerate_cuts ctx sp w q Hq Hlock) as
    (q' & Hq' & _ & _ & _ & Hc & _ & Hset & _ & Hsp & Hlk & Hlp & Hll & Hp & Hl).
  simpl in *. rewrite Hrun in *. simpl in *.
  split_and!; [|done|exists q'; split; [done|congruence]].
  split_and!; [done|done|lia|done| |].
  - intros l Hown. apply Hp. intros ->. done.
  - intros c Hown. apply Hl. by apply Hv.
Qed.

(** An event that pushes nothing, the label being on top of the cache or
    the count being the same, leaves the cache and what it owns. *)
Lemma path_segments_keeps ctx ev sp w w' p :
  selected_path (op w) = Some sp → paths w !! sp = Some p → seg_lock p = false →
  sp ∉ owned_series w →
  (∀ c, c ∈ owned_lines w → c < length (lines w)) →
  coalesced "PATH_SEGMENTS" w = true ∨ stepped_segments (segments p) ev = segments p →
  modal_path_segments ctx ev w = Ret tt w' →
  keeps_cache w w'
  ∧ selected_path (op w') = Some sp
  ∧ ∃ p', paths w' !! sp = Some p' ∧ seg_lock p' = false.
Proof.
  intros Hsel Hp Hlock Hs Hv Hno.
  rewrite (path_segments_step_unfold ctx ev w sp p Hsel Hp Hlock).
  set (new := stepped_segments (segments p) ev) in *.
  intros ([] & w1 & E1 & E2)%bind_Ret_inv.
  case_bool_decide as Hsame.
  - injection E1 as <-.
    destruct (regenerate_cuts_keeps ctx sp w p _ w' eq_refl Hp Hlock Hs Hv E2)
      as (K & Hsp & Hq). split_and!; [done|congruence|done].
  - destruct Hno as [Hco|]; [|done].
    rewrite (bind_Ret _ _ _ _ _ (create_undo_snapshot_coalesced _ _ Hco)) in E1.
    injection E1 as <-.
    pose proof (update_series_keeps sp (with_segments new) w Hs) as K1.
    set (w1 := with_paths _ w) in *.
    destruct (keeps_cache_owned _ _ K1) as [Hos Hol].
    destruct (regenerate_cuts_keeps ctx sp w1 (with_segments new p) _ w' eq_refl)
      as (K & Hsp & Hq); try done.
    + unfold w1. simpl. by rewrite list_lookup_alter_eq, Hp.
    + intros c. rewrite Hol. unfold w1. simpl. apply Hv.
    + split_and!; [eauto using keeps_cache_trans|by rewrite Hsp|done].
Qed.

Lemma path_segments_repeated ctx evs sp : ∀ w wn p,
  selected_path (op w) = Some sp → paths w !! sp = Some p → seg_lock p = false →
  sp ∉ owned_series w →
  (∀ c, c ∈ owned_lines w → c < length (lines w)) →
  coalesced "PATH_SEGMENTS" w = true →
  for_each evs (modal_path_segments ctx) w = Ret tt wn →
  keeps_cache w wn.
Proof.
  induction evs as [|ev evs IH]; intros w wn p Hsel Hp Hlock Hs Hv Hco; simpl.
  { intros [= <-]. apply keeps_cache_refl. }
  intros ([] & w1 & E1 & E2)%bind_Ret_inv.
  destruct (path_segments_keeps ctx ev sp w w1 p) as (K1 & Hsel1 & p1 & Hp1 & Hlock1);
    [done..|by left|done|].
  destruct (keeps_cache_owned _ _ K1) as [Hos Hol].
  eapply keeps_cache_trans; [exact K1|].
  apply (IH w1 wn p1); try done.
  - by rewrite Hos.
  - intros c. rewrite Hol. intros Hc%Hv. destruct K1 as (_ & _ & _ & Hlen & _). lia.
  - destruct K1 as (Hc & _). by rewrite (coalesced_cache _ _ _ Hc).
Qed.

(** X25.  A run of segment events in guide mode is undone at once.  On
    a selected series of [cut_paths] that is not locked, with another
    label on top of the cache and [undo_depth] not 0: the first event,
    which asks for another count, pushes one snapshot; the events after
    it find PATH_SEGMENTS on top and push nothing, whatever they ask
    for; and if the run returns, one [undo_action] gives back the graph
    from before the first event, with the old count and the old cuts. *)
Theorem path_segments_run_undone ctx ev (evs : list Event) w sp p e wn :
  separated w →
  0 < undo_depth (settings (op w)) →
  selected_path (op w) = Some sp →
  sp ∈ cut_paths (op w) →
  paths w !! sp = Some p →
  seg_lock p = false →
  stepped_segments (segments p) ev ≠ segments p →
  last (contour_undo_cache w) = Some e →
  entry_action e ≠ "PATH_SEGMENTS"%string →
  for_each (ev :: evs) (modal_path_segments ctx) w = Ret tt wn →
  length (contour_undo_cache wn) ≤ S (length (contour_undo_cache w))
  ∧ ∃ w', undo_action wn = Ret tt w' ∧ live_graph w' = live_graph w.
Proof.
  intros Hsep Hdepth Hsel Hin Hp Hlock Hstep Hlast Hlabel. simpl.
  intros ([] & w3 & E1 & E2)%bind_Ret_inv.
  rewrite (path_segments_step_unfold ctx ev w sp p Hsel Hp Hlock) in E1.
  set (new := stepped_segments (segments p) ev) in *.
  rewrite bool_decide_eq_false_2 in E1 by done.
  apply bind_Ret_inv in E1 as ([] & w2 & E1 & E3).
  set (w1 := take_snapshot "PATH_SEGMENTS" w) in *.
  assert (create_undo_snapshot "PATH_SEGMENTS" w = Ret tt w1) as Hsnap.
  { unfold create_undo_snapshot. rewrite Hlast. simpl.
    by rewrite bool_decide_eq_false_2 by done. }
  rewrite (bind_Ret _ _ _ _ _ Hsnap) in E1. injection E1 as <-.
  pose proof (take_snapshot_separated "PATH_SEGMENTS" w Hsep) as Hsep1. fold w1 in Hsep1.
  assert (paths w1 !! sp = Some p) as Hp1.
  { unfold w1. rewrite take_snapshot_lookup_paths; [done|]. by eapply lookup_lt_Some. }
  assert (op w1 = op w) as Ho1 by apply take_snapshot_op.
  destruct (live_not_owned w1 sp p) as [Hs1 _]; [done|by rewrite Ho1|done|].
  pose proof (update_series_keeps sp (with_segments new) w1 Hs1) as K12.
  set (w2 := with_paths _ w1) in *.
  destruct (keeps_cache_owned _ _ K12) as [Hos2 Hol2].
  destruct (regenerate_cuts_keeps ctx sp w2 (with_segments new p) _ w3 eq_refl)
    as (K23 & Hsp3 & p3 & Hp3 & Hlock3); try done.
  { unfold w2. simpl. by rewrite list_lookup_alter_eq, Hp1. }
  { intros c. rewrite Hol2. unfold w2. simpl. by apply owned_lines_valid. }
  pose proof (keeps_cache_trans _ _ _ K12 K23) as K13.
  destruct (keeps_cache_owned _ _ K13) as [Hos3 Hol3].
  assert (contour_undo_cache w3 = contour_undo_cache w1) as Hc3 by apply K13.
  assert (keeps_cache w3 wn) as K3n.
  { apply (path_segments_repeated ctx evs sp w3 wn p3); try done.
    - rewrite Hsp3. unfold w2. simpl. by rewrite Ho1.
    - by rewrite Hos3.
    - intros c. rewrite Hol3. intros Hc%(owned_lines_valid _ _ Hsep1).
      destruct K13 as (_ & _ & _ & Hlen & _). lia.
    - rewrite (coalesced_cache _ _ _ Hc3). unfold coalesced.
      destruct (take_snapshot_top "PATH_SEGMENTS" w) as (e1 & Hl1 & Ha1 & _); [by right|].
      fold w1 in Hl1. rewrite Hl1, Ha1. by rewrite !bool_decide_eq_true_2 by
        (done || set_solver). }
  pose proof (keeps_cache_trans _ _ _ K13 K3n) as K.
  split.
  - destruct K as (-> & _). unfold w1. rewrite take_snapshot_cache. case_bool_decide.
    + rewrite length_drop, length_app. simpl. lia.
    + rewrite length_app. simpl. lia.
  - destruct (undo_after_snapshot "PATH_SEGMENTS" w wn Hsep Hdepth K) as (w' & ? & ? & _).
    by exists w'.
Qed.

End PathSegments.

(** ** Loop mode: a click that places nothing *)

Section Click.
Context `{ContourClasses} `{!HostValues}.
Implicit Types (w : World) (l sp : loc) (ev : Event).

Lemma list_remove_snoc_fresh x (xs : list loc) :
  x ∉ xs → list_remove x (xs ++ [x]) = Some xs.
Proof.
  induction xs as [|y xs IH]; simpl.
  { intros _. by rewrite bool_decide_eq_true_2. }
  intros [Hne Hin]%not_elem_of_cons.
  rewrite bool_decide_eq_false_2 by congruence. by rewrite IH.
Qed.

(** Deselecting cut lines clears selection flags and nothing else. *)
Lemma deselect_cuts_spec cs : ∀ w,
  ∃ w', for_each cs cut_deselect w = Ret tt w'
    ∧ paths w' = paths w ∧ op w' = op w
    ∧ contour_undo_cache w' = contour_undo_cache w
    ∧ length (lines w') = length (lines w)
    ∧ ∀ c x, lines w !! c = Some x →
        ∃ y, lines w' !! c = Some y ∧ with_cut_select false y = with_cut_select false x.
Proof.
  induction cs as [|c0 cs IH]; intros w; simpl.
  { exists w. split_and!; try done. intros c x Hx. by exists x. }
  rewrite (bind_Ret (cut_deselect c0) _ w tt _ eq_refl).
  destruct (IH (with_lines (alter (with_cut_select false) c0 (lines w)) w)) as
    (w' & E & Hp & Ho & Hc & Hlen & Hl).
  exists w'. split_and!; try done.
  - by rewrite Hlen; simpl; rewrite length_alter.
  - intros c x Hx. destruct (decide (c0 = c)) as [->|Hne].
    + destruct (Hl c (with_cut_select false x)) as (y & Hy & Heq).
      { simpl. by rewrite list_lookup_alter_eq, Hx. }
      exists y. split; [done|]. by rewrite Heq.
    + apply Hl. simpl. by rewrite list_lookup_alter_ne.
Qed.

Lemma deselect_all_cuts_spec ps : ∀ w,
  Forall (λ l, is_Some (paths w !! l)) ps →
  ∃ w', for_each ps (λ path, p <- get_series path ;; for_each (cuts p) cut_deselect) w
        = Ret tt w'
    ∧ paths w' = paths w ∧ op w' = op w
    ∧ contour_undo_cache w' = contour_undo_cache w
    ∧ length (lines w') = length (lines w)
    ∧ ∀ c x, lines w !! c = Some x →
        ∃ y, lines w' !! c = Some y ∧ with_cut_select false y = with_cut_select false x.
Proof.
  induction ps as [|l ps IH]; intros w Hall; simpl.
  { exists w. split_and!; try done. intros c x Hx. by exists x. }
  apply Forall_cons in Hall as [[p Hp] Hall].
  destruct (deselect_cuts_spec (cuts p) w) as (w1 & E1 & Hp1 & Ho1 & Hc1 & Hlen1 & Hl1).
  assert ((p0 <- get_series l ;; for_each (cuts p0) cut_deselect) w = Ret tt w1) as E1'.
  { by rewrite (bind_Ret (get_series l) _ w p w) by (unfold get_series; by rewrite Hp). }
  rewrite (bind_Ret _ _ _ _ _ E1').
  destruct (IH w1) as (w' & E & Hp' & Ho' & Hc' & Hlen' & Hl'); [by rewrite Hp1|].
  exists w'. split_and!; try congruence.
  intros c x Hx. destruct (Hl1 c x Hx) as (y & Hy & Heq).
  destruct (Hl' c y Hy) as (z & Hz & Heq'). exists z. split; [done|congruence].
Qed.

(** [click_new_cut] on a state whose series exist. *)
Lemma click_new_cut_spec ev w :
  Forall (λ l, is_Some (paths w !! l)) (cut_paths (op w)) →
  ∃ w' y, click_new_cut ev w = Ret (length (lines w)) w'
    ∧ paths w' = paths w
    ∧ contour_undo_cache w' = contour_undo_cache w
    ∧ op w' = with_cut_lines (cut_lines (op w) ++ [length (lines w)]) (op w)
    ∧ lines w' !! length (lines w) = Some y
    ∧ head y = head (ContourCutLine_init (mouse_region_x ev) (mouse_region_y ev))
    ∧ tail y = tail (ContourCutLine_init (mouse_region_x ev) (mouse_region_y ev))
    ∧ ∀ c x, lines w !! c = Some x →
        ∃ z, lines w' !! c = Some z ∧ with_cut_select false z = with_cut_select false x.
Proof.
  intros Hall. unfold click_new_cut.
  set (c0 := ContourCutLine_init _ _). set (n := length (lines w)).
  rewrite (bind_Ret (new_line c0) _ w n (with_lines (lines w ++ [c0]) w) eq_refl).
  set (w1 := with_lines _ w).
  rewrite (bind_Ret get _ w1 w1 w1 eq_refl).
  destruct (deselect_all_cuts_spec (cut_paths (op w)) w1 Hall) as
    (w2 & E2 & Hp2 & Ho2 & Hc2 & Hlen2 & Hl2).
  change (cut_paths (op w1)) with (cut_paths (op w)).
  rewrite (bind_Ret _ _ _ _ _ E2).
  rewrite (bind_Ret (cut_do_select n) _ w2 tt _ eq_refl).
  rewrite (bind_Ret (modify_op _) _ _ tt _ eq_refl).
  destruct (Hl2 n c0) as (y & Hy & Heq); [apply lookup_snoc|].
  eexists _, (with_cut_select true y). split; [reflexivity|]. simpl.
  rewrite Ho2. split_and!; try done.
  - by rewrite list_lookup_alter_eq, Hy.
  - by injection Heq.
  - by injection Heq.
  - intros c x Hx. destruct (Hl2 c x) as (z & Hz & Heqz).
    { unfold w1. simpl. rewrite lookup_app_l; [done|]. by eapply lookup_lt_Some. }
    destruct (decide (n = c)) as [<-|Hne].
    + exists (with_cut_select true z). rewrite list_lookup_alter_eq, Hz.
      split; [done|]. rewrite <-Heqz. by destruct z.
    + exists z. by rewrite list_lookup_alter_ne.
Qed.

Lemma cutting_snapshot w :
  create_undo_snapshot "CUTTING" w = Ret tt (take_snapshot "CUTTING" w).
Proof. reflexivity. Qed.

(** X15.  A click on nothing in loop mode followed by a release less
    than 20 pixels from the head of the new line places nothing:
    [cut_lines] and [cut_paths] are the lists they were, no cut is
    selected, the series are untouched and the cut lines differ by their
    selection flags at most.  The click has still taken a snapshot under
    CUTTING: the undo cache is the one after that snapshot. *)
Theorem errant_click_places_nothing ctx ev1 ev2 w h t0 :
  Forall (λ l, is_Some (paths w !! l)) (cut_paths (op w)) →
  Forall (λ c, c < length (lines w)) (cut_lines (op w)) →
  head (ContourCutLine_init (mouse_region_x ev1) (mouse_region_y ev1)) = Some h →
  tail (ContourCutLine_init (mouse_region_x ev1) (mouse_region_y ev1)) = Some t0 →
  too_short h (mouse_region_x ev2, mouse_region_y ev2) = true →
  ∃ w', (modal_loop_press_cut ev1 ;;; modal_cutting_release ctx ev2) w = Ret tt w'
    ∧ cut_lines (op w') = cut_lines (op w)
    ∧ cut_paths (op w') = cut_paths (op w)
    ∧ selected (op w') = None
    ∧ modal_state (op w') = WAITING
    ∧ contour_undo_cache w' = contour_undo_cache (take_snapshot "CUTTING" w)
    ∧ (∀ l p, paths w !! l = Some p → paths w' !! l = Some p)
    ∧ (∀ c x, lines w !! c = Some x →
         ∃ z, lines w' !! c = Some z ∧ with_cut_select false z = with_cut_select false x).
Proof.
  intros Hlive Hcl Hh Ht Hshort.
  set (w1 := take_snapshot "CUTTING" w).
  set (w2 := with_op (with_modal_state CUTTING (op w1)) w1).
  assert (op w1 = op w) as Ho1 by apply take_snapshot_op.
  assert (length (lines w) ≤ length (lines w1)) as Hlen1.
  { apply prefix_length, take_snapshot_lines. }
  destruct (click_new_cut_spec ev1 w2) as
    (w3 & y & E3 & Hp3 & Hc3 & Ho3 & Hy & Hyh & Hyt & Hl3).
  { unfold w2. simpl. rewrite Ho1.
    eapply Forall_impl; [exact Hlive|]. intros l [p Hp]. simpl. exists p.
    unfold w1. rewrite take_snapshot_lookup_paths; [done|]. by eapply lookup_lt_Some. }
  set (n := length (lines w1)) in *.
  change (length (lines w2)) with n in *.
  set (w4 := with_op (with_selected (Some n) (op w3)) w3).
  assert (modal_loop_press_cut ev1 w = Ret tt w4) as Epress.
  { unfold modal_loop_press_cut.
    rewrite (bind_Ret _ _ _ _ _ (cutting_snapshot w)).
    rewrite (bind_Ret (modify_op _) _ w1 tt w2 eq_refl).
    by rewrite (bind_Ret _ _ _ _ _ E3). }
  rewrite (bind_Ret _ _ _ _ _ Epress).
  assert (cut_lines (op w4) = cut_lines (op w) ++ [n]) as Hcl4.
  { unfold w4. simpl. rewrite Ho3. unfold w2. simpl. by rewrite Ho1. }
  destruct (release_place_cut_dropped ctx ev2 w4 n y h t0) as
    (w5 & r & E5 & Hr & Ho5 & Hp5 & Hc5 & Hl5); try done.
  { congruence. }
  { congruence. }
  { rewrite Hcl4. apply elem_of_app. right. by left. }
  { by left. }
  rewrite Hcl4, list_remove_snoc_fresh in Hr.
  2:{ intros Hin. rewrite Forall_forall in Hcl. specialize (Hcl _ Hin). lia. }
  injection Hr as <-.
  unfold modal_cutting_release. rewrite (bind_Ret _ _ _ _ _ E5).
  eexists. split; [reflexivity|]. simpl. rewrite Ho5. simpl.
  unfold w4. simpl. rewrite Ho3. simpl. rewrite Ho1, Hc5, Hp5. simpl. rewrite Hc3, Hp3.
  split_and!; try done.
  - intros l p Hp. unfold w2, w1. simpl. rewrite take_snapshot_lookup_paths; [done|].
    by eapply lookup_lt_Some.
  - intros c x Hx. destruct (Hl3 c x) as (z & Hz & Heq).
    { unfold w2, w1. simpl. rewrite take_snapshot_lookup_lines; [done|].
      by eapply lookup_lt_Some. }
    exists z. split; [|done]. rewrite Hl5; [done|].
    apply lookup_lt_Some in Hx. lia.
Qed.

End Click.

(** ** The start of a session *)

Section Invoke.
Context `{ContourClasses} `{!HostValues}.
Implicit Types (w : World) (l sp : loc) (ev : Event).

(** [invoke] up to the test of [recover]. *)
Lemma invoke_state_unfold ctx st recover (existing_loop : option vert_list) is_valid w :
  ∃ w1,
    invoke_state ctx st recover existing_loop is_valid w
    = (if recover && is_valid then undo_action else ret tt) w1
    ∧ lines w1 = lines w
    ∧ contour_undo_cache w1 = contour_undo_cache w
    ∧ (∀ l p, paths w !! l = Some p → paths w1 !! l = Some p)
    ∧ op w1 = mkOperator
                (match existing_loop with Some _ => [length (paths w)] | None => [] end)
                [] None
                (match existing_loop with Some _ => Some (length (paths w)) | None => None end)
                [] (vertex_count st) false false SnapEmpty LOOP WAITING st
    ∧ match existing_loop with
      | Some lp =>
          ∃ q, paths w1 = paths w ++ [q]
            ∧ cuts q = [] ∧ ring_lock q = true ∧ seg_lock q = false
            ∧ existing_head q = Some lp ∧ ring_segments q = loop_size lp
      | None => paths w1 = paths w
      end.
Proof.
  unfold invoke_state.
  rewrite (bind_Ret (modify_op _) _ w tt _ eq_refl).
  set (o0 := mkOperator [] [] None None [] (vertex_count st) false false
               SnapEmpty LOOP WAITING st).
  set (w0 := with_op o0 w).
  destruct existing_loop as [lp|].
  - set (p0 := ContourCutSeries_init ctx [] None None st).
    set (q := with_pgeom
                (bridge_geom ctx (read_series (lines w)
                   (with_ring_segments (loop_size lp) (with_ring_lock true
                      (with_seg_lock false (with_existing_head (Some lp) p0))))))
                (with_ring_segments (loop_size lp) (with_ring_lock true
                   (with_seg_lock false (with_existing_head (Some lp) p0))))).
    set (w1 := mkWorld (paths w ++ [q]) (lines w)
                 (mkOperator [(length (paths w))] [] None (Some (length (paths w))) [] (vertex_count st) false false
                    SnapEmpty LOOP WAITING st) (contour_undo_cache w)).
    exists w1.
    assert ((path <- new_series p0 ;;
             update_series path (with_existing_head (Some lp)) ;;;
             update_series path (with_seg_lock false) ;;;
             update_series path (with_ring_lock true) ;;;
             update_series path (with_ring_segments (loop_size lp)) ;;;
             connect_cuts_to_make_mesh ctx path ;;;
             update_visibility ctx path ;;;
             modify_op (λ o, with_cut_paths (cut_paths o ++ [path]) o)) w0
            = Ret tt (mkWorld (paths w ++ [q]) (lines w) (with_cut_paths [(length (paths w))] o0)
                        (contour_undo_cache w))) as Eloop.
    { rewrite (bind_Ret (new_series p0) _ w0 (length (paths w)) (with_paths (paths w ++ [p0]) w0) eq_refl).
      rewrite (bind_Ret (update_series (length (paths w)) _) _ _ tt _ eq_refl).
      cbn [with_paths paths lines op contour_undo_cache w0 with_op].
      rewrite alter_snoc.
      rewrite (bind_Ret (update_series (length (paths w)) _) _ _ tt _ eq_refl).
      cbn [with_paths paths lines op contour_undo_cache].
      rewrite alter_snoc.
      rewrite (bind_Ret (update_series (length (paths w)) _) _ _ tt _ eq_refl).
      cbn [with_paths paths lines op contour_undo_cache].
      rewrite alter_snoc.
      rewrite (bind_Ret (update_series (length (paths w)) _) _ _ tt _ eq_refl).
      cbn [with_paths paths lines op contour_undo_cache].
      rewrite alter_snoc.
      rewrite (bind_Ret (connect_cuts_to_make_mesh ctx (length (paths w))) _ _ tt _ eq_refl).
      cbn [with_paths paths lines op contour_undo_cache].
      rewrite alter_snoc.
      match goal with |- bind _ _ ?x = _ => set (w5 := x) end.
      assert (update_visibility ctx (length (paths w)) w5 = Ret tt w5) as Ev.
      { unfold update_visibility.
        by rewrite (bind_Ret (get_series (length (paths w))) _ w5 q w5)
          by (unfold get_series, w5; simpl; by rewrite lookup_snoc). }
      rewrite (bind_Ret _ _ _ _ _ Ev). reflexivity. }
    rewrite (bind_Ret _ _ _ _ _ Eloop).
    rewrite (bind_Ret get _ _ _ _ eq_refl).
    rewrite (bind_Ret (set_selected_path _) _ _ tt _ eq_refl).
    split_and!; try done.
    + intros l p Hp. unfold w1. simpl. rewrite lookup_app_l; [done|].
      by eapply lookup_lt_Some.
    + by exists q.
  - exists w0.
    rewrite (bind_Ret (ret tt) _ w0 tt w0 eq_refl).
    rewrite (bind_Ret get _ _ _ _ eq_refl).
    rewrite (bind_Ret (set_selected_path _) _ _ tt _ eq_refl).
    by split_and!.
Qed.

(** X16.  [invoke] never clears the undo cache: the list assigned at
    line 2037 is a local one.  Without [recover], or with a mesh cache
    that is not valid, the entries of an earlier session are all there
    when the new session starts; with both, [undo_action] takes the last
    one.  No object that was there is written. *)
Theorem invoke_never_clears_undo_cache ctx st recover existing_loop is_valid w :
  ∃ w', invoke_state ctx st recover existing_loop is_valid w = Ret tt w'
    ∧ contour_undo_cache w'
      = (if recover && is_valid then removelast (contour_undo_cache w)
         else contour_undo_cache w)
    ∧ lines w' = lines w
    ∧ (∀ l p, paths w !! l = Some p → paths w' !! l = Some p).
Proof.
  destruct (invoke_state_unfold ctx st recover existing_loop is_valid w) as
    (w1 & -> & Hl & Hc & Hp & _).
  destruct (recover && is_valid).
  - destruct (undo_action_returns w1) as (w' & Hu & Hp' & Hl' & _ & _ & Hpop).
    exists w'. split_and!; [done| |congruence|].
    + rewrite <-Hc. destruct (last (contour_undo_cache w1)) as [e|] eqn:El.
      * destruct Hpop as [-> _]. by rewrite removelast_last.
      * subst w'. apply last_None in El. by rewrite El.
    + intros l p Hlp. rewrite Hp'. by apply Hp.
  - exists w1. by split_and!.
Qed.

(** X17.  A session started on a selected edge loop with [recover] on, a
    valid mesh cache and a snapshot left in the undo cache: [undo_action]
    replaces [cut_paths] by the graph of that snapshot, and the series
    [invoke] has just made for the edge loop is not among [cut_paths]
    any more. *)
Theorem recover_drops_edge_loop ctx st lp w rest e :
  separated w →
  contour_undo_cache w = rest ++ [e] →
  ∃ w' q, invoke_state ctx st true (Some lp) true w = Ret tt w'
    ∧ paths w' !! length (paths w) = Some q
    ∧ existing_head q = Some lp
    ∧ cut_paths (op w') = cut_data e
    ∧ (length (paths w) ∉ cut_paths (op w'))
    ∧ contour_undo_cache w' = rest.
Proof.
  intros Hsep Hc.
  destruct (invoke_state_unfold ctx st true (Some lp) true w) as
    (w1 & -> & Hl & Hc1 & Hp & Ho & q & Hq & _ & _ & _ & Hh & _).
  simpl. rewrite Hc in Hc1.
  destruct (undo_action_snoc _ _ _ Hc1) as (w' & Hu & Hp' & _ & Hc' & Hcp & _).
  exists w', q. split_and!; try done.
  - by rewrite Hp', Hq, lookup_snoc.
  - rewrite Hcp. intros Hin.
    assert (e ∈ contour_undo_cache w) as He.
    { rewrite Hc. apply elem_of_app. right. by left. }
    destruct (separated_entry _ _ Hsep He) as [Hv _].
    rewrite Forall_forall in Hv. specialize (Hv _ Hin). lia.
Qed.

Lemma modal_loop_tab_spec w sp :
  selected_path (op w) = Some sp →
  modal_loop_tab w
  = Ret tt (with_paths (alter (with_highlight true) sp (paths w))
              (with_op (with_selected None (with_mode GUIDE (op w))) w)).
Proof.
  intros Hsel. unfold modal_loop_tab.
  rewrite (bind_Ret (modify_op _) _ w tt _ eq_refl).
  rewrite (bind_Ret (set_selected None) _ _ tt _ eq_refl).
  rewrite (bind_Ret get _ _ _ _ eq_refl). simpl. by rewrite Hsel.
Qed.

(** X18.  The [IndexError] of [create_undo_snapshot] is reached from the
    start of a session.  With an empty undo cache, as in a new Blender
    session: [invoke] in edit mode on a selected edge loop selects the
    series it makes for the loop; TAB changes to guide mode; and the
    first press of an arrow key raises [IndexError], the label PATH_SHIFT
    being a repeated one. *)
Theorem first_arrow_of_session_raises ctx st recover lp is_valid ev w :
  contour_undo_cache w = [] →
  ∃ w', (invoke_state ctx st recover (Some lp) is_valid ;;;
         modal_loop_tab ;;;
         modal_guide_arrow ctx ev) w = Raise IndexError w'
    ∧ mode (op w') = GUIDE
    ∧ selected_path (op w') = Some (length (paths w))
    ∧ cut_paths (op w') = [length (paths w)].
Proof.
  intros Hc.
  destruct (invoke_state_unfold ctx st recover (Some lp) is_valid w) as
    (w1 & E1 & Hl & Hc1 & Hp & Ho & _).
  assert (invoke_state ctx st recover (Some lp) is_valid w = Ret tt w1) as E1'.
  { rewrite E1. destruct (recover && is_valid); [|done].
    apply undo_action_empty. by rewrite Hc1. }
  rewrite (bind_Ret _ _ _ _ _ E1').
  rewrite (bind_Ret _ _ _ _ _ (modal_loop_tab_spec w1 (length (paths w))
             ltac:(by rewrite Ho))).
  set (w2 := with_paths _ _).
  assert (op w2 = with_selected None (with_mode GUIDE (op w1))) as Ho2 by done.
  exists w2. split.
  - unfold modal_guide_arrow.
    rewrite (bind_Ret get _ _ _ _ eq_refl). rewrite Ho2, Ho. simpl.
    apply bind_Raise. unfold create_undo_snapshot. simpl.
    change (contour_undo_cache w2) with (contour_undo_cache w1). by rewrite Hc1, Hc.
  - by rewrite Ho2, Ho.
Qed.

End Invoke.

(** ** The mesh cache *)

Section MeshCacheFacts.
Context `{ContourTypes} `{!HostValues} `{!BlenderData}.
Implicit Types (ob : BObject) (c : MeshCache) (h : host) (s : host * MeshCache).

(** The cache after [clear_mesh_cache]: only a ['tmp'] that holds [None]
    stays. *)
Lemma clear_mesh_cache_cache s :
  (clear_mesh_cache s).2
  = mkMeshCache None None
      (match mc_tmp s.2 with Some None => Some None | _ => None end).
Proof.
  destruct s as [h [v b t]]. unfold clear_mesh_cache. simpl.
  destruct v, b, t as [[o|]|]; reflexivity.
Qed.

(** X19.  After [clear_mesh_cache] no object is valid: [is_object_valid]
    returns [False] for every object, without a look at the object, so
    also for one without mesh data or without vertices. *)
Theorem cleared_cache_validates_nothing s ob :
  is_object_valid ob (clear_mesh_cache s).2 = Value false.
Proof. by rewrite clear_mesh_cache_cache. Qed.

(** X20.  [clear_mesh_cache] called again does nothing: the cache is the
    same and the host is not called, so the bmesh is freed once and the
    temporary object and its mesh are removed once. *)
Theorem clear_mesh_cache_idempotent s :
  clear_mesh_cache (clear_mesh_cache s) = clear_mesh_cache s.
Proof.
  destruct s as [h [v b t]]. unfold clear_mesh_cache. simpl.
  destruct v, b, t as [[o|]|]; reflexivity.
Qed.

Lemma tuple_eqb_refl (xs : list fl) :
  Forall (λ x, fl_eqb x x = true) xs → tuple_eqb xs xs = true.
Proof. induction 1 as [|x xs Hx _ IH]; simpl; [done|]. by rewrite Hx, IH. Qed.

Lemma write_mesh_cache_Value orig_ob tmp_ob bme s v :
  object_validation orig_ob = Value v →
  write_mesh_cache orig_ob tmp_ob bme s
  = (Value tt, ((clear_mesh_cache s).1, mkMeshCache (Some v) (Some bme) (Some tmp_ob))).
Proof.
  intros Hv. unfold write_mesh_cache. destruct (clear_mesh_cache s) as [h c].
  by rewrite Hv.
Qed.

Lemma write_mesh_cache_Error orig_ob tmp_ob bme s e :
  object_validation orig_ob = Error e →
  write_mesh_cache orig_ob tmp_ob bme s = (Error e, clear_mesh_cache s).
Proof.
  intros Hv. unfold write_mesh_cache. destruct (clear_mesh_cache s) as [h c].
  by rewrite Hv.
Qed.

(** X21.  After [write_mesh_cache] for an object, the object is valid as
    long as its mesh is the same, provided no coordinate of its bounding
    box and of its vertex sum is a NaN: the validation is made again and
    compared with [==], and a NaN is not equal to itself.  The cache
    holds the bmesh and the temporary object given. *)
Theorem written_cache_validates orig_ob tmp_ob bme s v :
  object_validation orig_ob = Value v →
  Forall (λ x, fl_eqb x x = true) (v.1.2.1 ++ v.1.2.2 ++ v.2) →
  ∃ s', write_mesh_cache orig_ob tmp_ob bme s = (Value tt, s')
    ∧ is_object_valid orig_ob s'.2 = Value true
    ∧ mc_bme s'.2 = Some bme
    ∧ mc_tmp s'.2 = Some tmp_ob.
Proof.
  intros Hv Hnan. eexists. split; [by apply write_mesh_cache_Value|].
  simpl. split; [|done]. unfold is_object_valid. simpl. rewrite Hv.
  apply Forall_app in Hnan as [Hlo Hnan]. apply Forall_app in Hnan as [Hhi Hsum].
  unfold validation_eqb.
  rewrite !bool_decide_eq_true_2 by done.
  by rewrite !tuple_eqb_refl.
Qed.

(** X22.  A mesh without vertices cannot be validated: [min] of an empty
    sequence raises [ValueError].  So [write_mesh_cache] for such an
    object raises after it has cleared the cache, which loses what was
    cached; and [is_object_valid] raises for such an object exactly when
    the cache holds a validation. *)
Theorem empty_mesh_cannot_be_validated ob me tmp_ob bme s :
  ob_data ob = Some me →
  me_vertices me = [] →
  object_validation ob = Error ValueError
  ∧ write_mesh_cache ob tmp_ob bme s = (Error ValueError, clear_mesh_cache s)
  ∧ is_object_valid ob s.2
    = match mc_valid s.2 with Some _ => Error ValueError | None => Value false end.
Proof.
  intros Hd Hv.
  assert (object_validation ob = Error ValueError) as E.
  { unfold object_validation. by rewrite Hd, Hv. }
  split_and!; [done|by apply write_mesh_cache_Error|].
  unfold is_object_valid. rewrite E. by destruct (mc_valid s.2).
Qed.

(** What every call keeps: a cache with a validation has the bmesh and
    the temporary object that were written with it. *)
Lemma run_mesh_call_consistent s call :
  (is_Some (mc_valid s.2) → is_Some (mc_bme s.2) ∧ is_Some (mc_tmp s.2)) →
  is_Some (mc_valid (run_mesh_call s call).2) →
  is_Some (mc_bme (run_mesh_call s call).2) ∧ is_Some (mc_tmp (run_mesh_call s call).2).
Proof.
  intros _. destruct call as [|o t b]; simpl.
  - rewrite clear_mesh_cache_cache. simpl. by intros [? ?].
  - destruct (object_validation o) as [v|e] eqn:Ev.
    + rewrite (write_mesh_cache_Value _ _ _ _ _ Ev). simpl. by split; eexists.
    + rewrite (write_mesh_cache_Error _ _ _ _ _ Ev). simpl.
      rewrite clear_mesh_cache_cache. simpl. by intros [? ?].
Qed.

Lemma run_mesh_calls_consistent calls : ∀ s,
  (is_Some (mc_valid s.2) → is_Some (mc_bme s.2) ∧ is_Some (mc_tmp s.2)) →
  let s' := foldl run_mesh_call s calls in
  is_Some (mc_valid s'.2) → is_Some (mc_bme s'.2) ∧ is_Some (mc_tmp s'.2).
Proof.
  induction calls as [|call calls IH]; intros s Hs; simpl; [done|].
  apply IH. by apply run_mesh_call_consistent.
Qed.

(** X23.  The lookups of [invoke] in a valid cache do not fail.  After
    any sequence of [clear_mesh_cache] and [write_mesh_cache] calls on the
    empty cache of a new session, whenever [is_object_valid] returns
    [True] the keys ['bme'] and ['tmp'] are in the cache. *)
Theorem valid_cache_has_bme_and_tmp (calls : list MeshCacheCall) h ob :
  let s := foldl run_mesh_call (h, empty_mesh_cache) calls in
  is_object_valid ob s.2 = Value true →
  is_Some (mc_bme s.2) ∧ is_Some (mc_tmp s.2).
Proof.
  intros s Hvalid.
  apply (run_mesh_calls_consistent calls (h, empty_mesh_cache)).
  - simpl. by intros [? ?].
  - fold s. unfold is_object_valid in Hvalid.
    destruct (mc_valid s.2); [by eexists|done].
Qed.

(** ** [poll] and the surface of an edit-mode session *)

(** X24.  When [poll] lets the operator run in edit mode, [invoke] finds
    its surface: with the active object as [context.object] and selected
    objects of different names, the list at line 1808 is not empty, and
    the surface is a selected object that is not the active one. *)
Theorem poll_grants_edit_mode_target (c : BContext) :
  poll c = Value true →
  ctx_mode c = "EDIT_MESH"%string →
  ctx_object c = ctx_active_object c →
  NoDup (ob_name <$> ctx_selected_objects c) →
  ∃ dest target, ctx_object c = Some dest
    ∧ edit_mode_target c = Value target
    ∧ target ∈ ctx_selected_objects c
    ∧ ob_name target ≠ ob_name dest.
Proof.
  intros Hpoll Hmode Hobj Hnd. unfold poll in Hpoll.
  rewrite Hmode in Hpoll. simpl in Hpoll.
  destruct (ctx_active_object c) as [dest|] eqn:Ha; [|done].
  injection Hpoll as Hlen%bool_decide_eq_true.
  exists dest. unfold edit_mode_target. rewrite Hobj.
  destruct (ctx_selected_objects c) as [|x [|y rest]]; simpl in Hlen; [lia..|].
  simpl in Hnd. apply NoDup_cons in Hnd as [Hx _].
  apply not_elem_of_cons in Hx as [Hxy _].
  destruct (decide (ob_name x ≠ ob_name dest)) as [Hxd|Hxd].
  - exists x. rewrite filter_cons_True by done.
    split_and!; [done|done|by left|done].
  - apply dec_stable in Hxd.
    exists y. rewrite filter_cons_False by (by intros ?).
    rewrite filter_cons_True by congruence.
    split_and!; [done|done|by right; left|congruence].
Qed.

End MeshCacheFacts.

(** ** Guide mode: a stroke that makes a series *)

Section DrawnStroke.
Context `{ContourClasses} `{!HostValues}.
Implicit Types (w : World) (l c : loc) (ev : Event).

Lemma insert_snoc {A} (xs : list A) x y :
  <[length xs:=y]> (xs ++ [x]) = xs ++ [y].
Proof.
  rewrite <-(Nat.add_0_r (length xs)) at 1. by rewrite insert_app_r.
Qed.

Lemma bind_assoc {A B C} (m : M A) (k : A → M B) (k' : B → M C) w :
  bind (bind m k) k' w = bind m (λ a, bind (k a) k') w.
Proof. unfold bind. by destruct (m w). Qed.

(** Deselecting the series of a list writes no other series. *)
Lemma for_each_deselect_frame ls : ∀ w w',
  for_each ls deselect w = Ret tt w' →
  ∀ l, l ∉ ls → paths w' !! l = paths w !! l.
Proof.
  induction ls as [|l0 ls IH]; intros w w'; simpl.
  { by intros [= <-]. }
  rewrite (bind_Ret (deselect l0) _ w tt _ eq_refl).
  intros E l [Hne Hl]%not_elem_of_cons.
  rewrite (IH _ _ E l Hl). simpl. by rewrite list_lookup_alter_ne.
Qed.

(** Every series of the list ends up deselected. *)
Lemma for_each_deselect_in ls : ∀ w w' l p,
  for_each ls deselect w = Ret tt w' →
  l ∈ ls → paths w !! l = Some p →
  paths w' !! l = Some (with_select false p).
Proof.
  induction ls as [|l0 ls IH]; intros w w' l p; simpl.
  { by intros _ ?%elem_of_nil. }
  rewrite (bind_Ret (deselect l0) _ w tt _ eq_refl).
  intros E Hin Hp. destruct (decide (l ∈ ls)) as [Hl|Hl].
  - destruct (decide (l0 = l)) as [->|Hne].
    + rewrite (IH _ _ l (with_select false p) E Hl); [done|].
      simpl. by rewrite list_lookup_alter_eq, Hp.
    + apply (IH _ _ l p E Hl). simpl. by rewrite list_lookup_alter_ne.
  - apply elem_of_cons in Hin as [->|]; [|done].
    rewrite (for_each_deselect_frame _ _ _ E l0 Hl). simpl.
    by rewrite list_lookup_alter_eq, Hp.
Qed.

(** Lines 833-873 with nothing to snap to, or with [force_new]: the
    stroke becomes a new series at the end of [cut_paths], with cuts that
    are new objects. *)
Lemma new_path_from_draw_new ctx w :
  snap_is_empty (snap (op w)) = true ∨ force_new (op w) = true →
  ray_cast ctx (stroke_geom ctx (draw_cache (op w)) (settings (op w))) ≠ [] →
  ∃ w' p', new_path_from_draw ctx w = Ret (Some (length (paths w))) w'
    ∧ paths w' = paths w ++ [p']
    ∧ op w' = with_cut_paths (cut_paths (op w) ++ [length (paths w)]) (op w)
    ∧ contour_undo_cache w' = contour_undo_cache w
    ∧ length (lines w) ≤ length (lines w')
    ∧ (∀ c, c < length (lines w) → lines w' !! c = lines w !! c)
    ∧ Forall (λ c, length (lines w) ≤ c < length (lines w')) (cuts p')
    ∧ segments p' = ring_count (settings (op w))
    ∧ ring_segments p' = vertex_count (settings (op w))
    ∧ seg_lock p' = false ∧ ring_lock p' = false ∧ select p' = false.
Proof.
  intros Hnew Hhit. unfold new_path_from_draw.
  rewrite (bind_Ret get _ w w w eq_refl).
  set (p0 := ContourCutSeries_init _ _ _ _ _).
  rewrite (bind_Ret (new_series p0) _ w (length (paths w))
             (with_paths (paths w ++ [p0]) w) eq_refl).
  rewrite (bind_Ret (ray_cast_path ctx _) _ _ tt _ eq_refl).
  cbn [with_paths paths lines op contour_undo_cache]. rewrite alter_snoc.
  set (p1 := with_raw_world _ p0).
  rewrite (bind_Ret (get_series _) _ _ p1 _)
    by (unfold get_series; simpl; by rewrite lookup_snoc).
  rewrite bool_decide_eq_false_2.
  2:{ intros Hlen. apply Hhit. by apply nil_length_inv. }
  rewrite (bind_Ret (find_knots ctx _) _ _ tt _ eq_refl).
  cbn [with_paths paths lines op contour_undo_cache]. rewrite alter_snoc.
  assert (negb (snap_is_empty (snap (op w))) && negb (force_new (op w)) = false) as ->.
  { destruct Hnew as [-> | ->]; [done|]. by rewrite andb_false_r. }
  rewrite (bind_Ret (smooth_path ctx _) _ _ tt _ eq_refl).
  cbn [with_paths paths lines op contour_undo_cache]. rewrite alter_snoc.
  rewrite (bind_Ret (create_cut_nodes ctx _) _ _ tt _ eq_refl).
  cbn [with_paths paths lines op contour_undo_cache]. rewrite alter_snoc.
  rewrite (bind_Ret (snap_to_object ctx _) _ _ tt _ eq_refl).
  cbn [with_paths paths lines op contour_undo_cache]. rewrite alter_snoc.
  match goal with
  | |- context [bind (cuts_on_path _ _) _ (with_paths (paths w ++ [?x]) _)] =>
      set (p5 := x)
  end.
  set (wx := with_paths (paths w ++ [p5]) _).
  set (w2 := mkWorld (paths w ++ [p5]) (lines w) (op w) (contour_undo_cache w)).
  assert (wx = w2) as Hx by reflexivity. clearbody wx. subst wx.
  set (ncs := node_cuts ctx (ring_segments p5) (pgeom p5)).
  set (cs := seq (length (lines w)) (length ncs)).
  set (w3 := mkWorld (paths w ++ [with_cuts cs p5]) (lines w ++ ncs) (op w)
               (contour_undo_cache w)).
  assert (cuts_on_path ctx (length (paths w)) w2 = Ret tt w3) as E3.
  { unfold cuts_on_path.
    rewrite (bind_Ret (get_series _) _ w2 p5 w2)
      by (unfold get_series; simpl; by rewrite lookup_snoc).
    fold ncs. rewrite (bind_Ret _ _ _ _ _ (new_lines_spec ncs w2)).
    unfold update_series, modify, w3. simpl. by rewrite alter_snoc. }
  rewrite (bind_Ret _ _ _ _ _ E3).
  rewrite (bind_Ret (connect_cuts_to_make_mesh ctx _) _ w3 tt _ eq_refl).
  set (p7 := with_pgeom (bridge_geom ctx (read_series (lines w3) (with_cuts cs p5)))
               (with_cuts cs p5)).
  set (w4 := with_paths _ w3).
  assert (paths w4 = paths w ++ [p7]) as Hp4.
  { unfold w4, w3. simpl. by rewrite alter_snoc. }
  assert (paths w4 !! length (paths w) = Some p7) as Hq4.
  { rewrite Hp4. apply lookup_snoc. }
  destruct (backbone_from_cuts_frame ctx _ w4 p7 Hq4) as
    (w5 & g & E5 & Hp5 & Ho5 & Hc5 & Hlen5 & Hl5).
  rewrite Hp4, insert_snoc in Hp5.
  destruct (update_visibility_frame ctx (length (paths w)) w5 (with_pgeom g p7)) as
    (w6 & E6 & Hp6 & Ho6 & Hc6 & Hlen6 & Hl6).
  { rewrite Hp5. apply lookup_snoc. }
  rewrite (bind_Ret _ _ _ _ _ E5), (bind_Ret _ _ _ _ _ E6).
  rewrite (bind_Ret (get_series _) _ w6 (with_pgeom g p7) w6)
    by (unfold get_series; rewrite Hp6, Hp5; by rewrite lookup_snoc).
  change (cuts (with_pgeom g p7)) with cs.
  set (m := match last cs with
            | Some c => cut_do_select c
            | None => ret tt
            end).
  assert (∃ w7, m w6 = Ret tt w7 ∧ paths w7 = paths w6 ∧ op w7 = op w6
            ∧ contour_undo_cache w7 = contour_undo_cache w6
            ∧ length (lines w7) = length (lines w6)
            ∧ ∀ c, c ∉ cs → lines w7 !! c = lines w6 !! c) as
    (w7 & E7 & Hp7 & Ho7 & Hc7 & Hlen7 & Hl7).
  { unfold m. destruct (last cs) as [c0|] eqn:Hlast.
    - eexists. split; [reflexivity|]. simpl. split_and!; try done.
      + by rewrite length_alter.
      + intros c Hc. apply list_lookup_alter_ne. intros <-. apply Hc.
        apply last_Some in Hlast as [l' ->].
        apply elem_of_app. right. apply list_elem_of_here.
    - exists w6. by split_and!. }
  rewrite (bind_Ret _ _ _ _ _ E7).
  eexists _, (with_pgeom g p7). split; [reflexivity|].
  assert (length (lines w4) = length (lines w) + length ncs) as Hlen4.
  { unfold w4, w3. simpl. by rewrite length_app. }
  assert (∀ c, c < length (lines w) → c ∉ cs) as Hold.
  { intros c Hc Hin%elem_of_seq. lia. }
  simpl. rewrite Hp7, Hp6, Hp5, Ho7, Ho6, Ho5, Hc7, Hc6, Hc5, Hlen7, Hlen6, Hlen5, Hlen4.
  split_and!; try done.
  - lia.
  - intros c Hc. rewrite Hl7, Hl6, Hl5 by (by apply Hold).
    unfold w4, w3. simpl. by apply lookup_app_l.
  - apply Forall_forall. intros c Hc%elem_of_seq. lia.
Qed.

(** The release of a stroke that makes a series, lines 1701-1723. *)
Lemma drawing_release_new ctx w :
  snap_is_empty (snap (op w)) = true ∨ force_new (op w) = true →
  10 < length (draw_cache (op w)) →
  ray_cast ctx (stroke_geom ctx (draw_cache (op w)) (settings (op w))) ≠ [] →
  ∃ w' p', modal_drawing_release ctx w = Ret tt w'
    ∧ cut_paths (op w') = cut_paths (op w) ++ [length (paths w)]
    ∧ length (paths w') = S (length (paths w))
    ∧ paths w' !! length (paths w) = Some p'
    ∧ select p' = true
    ∧ segments p' = ring_count (settings (op w))
    ∧ ring_segments p' = vertex_count (settings (op w))
    ∧ seg_lock p' = false ∧ ring_lock p' = false
    ∧ Forall (λ c, length (lines w) ≤ c < length (lines w')) (cuts p')
    ∧ selected_path (op w') = Some (length (paths w))
    ∧ selected (op w') = last (cuts p')
    ∧ draw_cache (op w') = [] ∧ modal_state (op w') = WAITING
    ∧ force_new (op w') = false
    ∧ settings (op w') = settings (op w)
    ∧ contour_undo_cache w' = contour_undo_cache w
    ∧ length (lines w) ≤ length (lines w')
    ∧ (∀ c, c < length (lines w) → lines w' !! c = lines w !! c)
    ∧ (∀ l, l < length (paths w) → l ∉ cut_paths (op w) → paths w' !! l = paths w !! l)
    ∧ (∀ l p, l ∈ cut_paths (op w) → paths w !! l = Some p →
         paths w' !! l = Some (with_select false p)).
Proof.
  intros Hnew Hlen Hhit. unfold modal_drawing_release.
  rewrite (bind_Ret get _ w w w eq_refl).
  rewrite bool_decide_eq_true_2 by lia.
  destruct (for_each_deselect_spec (cut_paths (op w)) w) as
    (w1 & E1 & Hl1 & Ho1 & Hc1 & Hlen1 & Hp1).
  pose proof (for_each_deselect_frame _ _ _ E1) as Hf1.
  destruct (new_path_from_draw_new ctx w1) as
    (w2 & p2 & E2 & Hp2 & Ho2 & Hc2 & Hlen2 & Hl2 & Hcuts & Hseg & Hring & Hsl & Hrl & _);
    [by rewrite Ho1..|].
  rewrite Hlen1 in E2.
  rewrite bind_assoc, (bind_Ret _ _ _ _ _ E1).
  rewrite bind_assoc, (bind_Ret _ _ _ _ _ E2).
  rewrite bind_assoc, (bind_Ret (set_selected_path _) _ w2 tt _ eq_refl).
  rewrite ?bind_assoc, (bind_Ret (do_select _) _ _ tt _ eq_refl).
  cbn [with_paths with_op paths lines op contour_undo_cache].
  rewrite Hp2, <-Hlen1, alter_snoc, Hlen1.
  set (p3 := with_select true p2).
  rewrite ?bind_assoc.
  match goal with |- context [bind (get_series _) _ ?x] => set (w3 := x) end.
  rewrite (bind_Ret (get_series _) _ w3 p3 w3)
    by (unfold get_series, w3; simpl; by rewrite <-Hlen1, lookup_snoc).
  rewrite ?bind_assoc, (bind_Ret (set_selected _) _ w3 tt _ eq_refl).
  change (cuts p3) with (cuts p2).
  set (w4 := with_op (with_selected (last (cuts p2)) (op w3)) w3).
  set (m := match last (cuts p2) with
            | Some c => cut_do_select c
            | None => ret tt
            end).
  assert (∃ w5, m w4 = Ret tt w5 ∧ paths w5 = paths w4 ∧ op w5 = op w4
            ∧ contour_undo_cache w5 = contour_undo_cache w4
            ∧ length (lines w5) = length (lines w4)
            ∧ ∀ c, c < length (lines w) → lines w5 !! c = lines w4 !! c) as
    (w5 & E5 & Hp5 & Ho5 & Hc5 & Hlen5 & Hl5).
  { unfold m. destruct (last (cuts p2)) as [c0|] eqn:Hlast.
    - eexists. split; [reflexivity|]. simpl. split_and!; try done.
      + by rewrite length_alter.
      + intros c Hc. apply list_lookup_alter_ne. intros <-.
        apply last_Some in Hlast as [l' Hl']. rewrite Hl', Forall_app, Forall_singleton in Hcuts.
        rewrite Hl1 in Hcuts. lia.
    - exists w4. by split_and!. }
  rewrite ?bind_assoc, (bind_Ret _ _ _ _ _ E5).
  eexists _, p3. split; [reflexivity|].
  simpl. rewrite Hp5, Ho5, Hc5, Hlen5. unfold w4, w3. simpl.
  rewrite Ho2, Ho1, Hc2, Hc1, Hl1 in *. rewrite <-Hlen1.
  split_and!; try done.
  - rewrite length_app. simpl. lia.
  - apply lookup_snoc.
  - intros c Hc. rewrite Hl5 by done. simpl. by apply Hl2.
  - intros l Hl Hnot. rewrite lookup_app_l by lia. by apply Hf1.
  - intros l p Hin Hp. rewrite lookup_app_l.
    + by apply (for_each_deselect_in _ _ _ l p E1).
    + rewrite Hlen1. by eapply lookup_lt_Some.
Qed.

(** X26.  The release of a stroke of more than 10 points that meets the
    surface, with nothing to snap to or with [force_new] on, makes one
    series: a new object at the end of [cut_paths], selected, with the
    [ring_count] of the preferences as its segments and their
    [vertex_count] as its ring segments, not locked; its cuts are new
    objects and the last of them is the selected cut.  Every series that
    was in [cut_paths] is deselected and otherwise the same, the cut
    lines that were there and the undo cache are the same, the stroke is
    cleared, [force_new] is off and the operator waits again. *)
Theorem drawn_stroke_appends_series ctx w :
  snap_is_empty (snap (op w)) = true ∨ force_new (op w) = true →
  10 < length (draw_cache (op w)) →
  ray_cast ctx (stroke_geom ctx (draw_cache (op w)) (settings (op w))) ≠ [] →
  ∃ w' p', modal_drawing_release ctx w = Ret tt w'
    ∧ cut_paths (op w') = cut_paths (op w) ++ [length (paths w)]
    ∧ paths w' !! length (paths w) = Some p'
    ∧ select p' = true
    ∧ segments p' = ring_count (settings (op w))
    ∧ ring_segments p' = vertex_count (settings (op w))
    ∧ seg_lock p' = false ∧ ring_lock p' = false
    ∧ Forall (λ c, length (lines w) ≤ c < length (lines w')) (cuts p')
    ∧ selected_path (op w') = Some (length (paths w))
    ∧ selected (op w') = last (cuts p')
    ∧ draw_cache (op w') = [] ∧ modal_state (op w') = WAITING
    ∧ force_new (op w') = false
    ∧ contour_undo_cache w' = contour_undo_cache w
    ∧ (∀ c, c < length (lines w) → lines w' !! c = lines w !! c)
    ∧ (∀ l p, l ∈ cut_paths (op w) → paths w !! l = Some p →
         paths w' !! l = Some (with_select false p)).
Proof.
  intros Hnew Hlen Hhit.
  destruct (drawing_release_new ctx w Hnew Hlen Hhit) as
    (w' & p' & E & Hcp & Hlp & Hp' & Hsel & Hseg & Hring & Hsl & Hrl & Hcuts & Hsp & Hs
       & Hdc & Hms & Hfn & _ & Hc & _ & Hl & Hfr & Hold).
  exists w', p'. by split_and!.
Qed.

(** X27.  A drawn stroke is undone by one [undo_action].  From a state
    without a stroke, with [undo_depth] not 0 and with nothing to snap to
    or [force_new] on: the press on nothing, more than 10 moves and the
    release of a stroke that meets the surface return, [cut_paths] has
    one series more, the undo cache one entry more at most, and the next
    [undo_action] gives back the graph from before the press, selection
    flags included. *)
Theorem drawn_stroke_undone ctx (evs : list Event) w :
  separated w →
  0 < undo_depth (settings (op w)) →
  snap_is_empty (snap (op w)) = true ∨ force_new (op w) = true →
  draw_cache (op w) = [] →
  10 < length evs →
  ray_cast ctx (stroke_geom ctx
    ((λ ev, (mouse_region_x ev, mouse_region_y ev)) <$> evs) (settings (op w))) ≠ [] →
  ∃ w', (modal_guide_press HoverNone ;;;
         for_each evs modal_drawing_move ;;;
         modal_drawing_release ctx) w = Ret tt w'
    ∧ length (cut_paths (op w')) = S (length (cut_paths (op w)))
    ∧ length (contour_undo_cache w') ≤ S (length (contour_undo_cache w))
    ∧ ∃ w'', undo_action w' = Ret tt w'' ∧ live_graph w'' = live_graph w.
Proof.
  intros Hsep Hdepth Hnew Hdraw Hlen Hhit.
  set (w1 := take_snapshot "DRAW_PATH" w).
  set (w2 := with_op (with_modal_state DRAWING (op w1)) w1).
  rewrite (bind_Ret (modal_guide_press HoverNone) _ w tt w2 eq_refl).
  rewrite (bind_Ret _ _ _ _ _ (drawing_moves evs w2)).
  set (w3 := with_op _ w2).
  assert (op w1 = op w) as Ho1 by apply take_snapshot_op.
  assert (op w3 = with_draw_cache
            ((λ ev, (mouse_region_x ev, mouse_region_y ev)) <$> evs)
            (with_modal_state DRAWING (op w))) as Ho3.
  { unfold w3, w2. simpl. by rewrite Ho1, Hdraw. }
  destruct (drawing_release_new ctx w3) as
    (w' & p' & E & Hcp & Hlp & _ & _ & _ & _ & _ & _ & _ & _ & _
       & _ & _ & _ & Hset & Hc & Hll & Hl & Hfr & _).
  { by rewrite Ho3. }
  { rewrite Ho3. simpl. by rewrite length_fmap. }
  { by rewrite Ho3. }
  rewrite Ho3 in Hcp, Hset, Hfr. simpl in Hcp, Hset, Hfr.
  change (paths w3) with (paths w1) in *. change (lines w3) with (lines w1) in *.
  change (contour_undo_cache w3) with (contour_undo_cache w1) in *.
  pose proof (take_snapshot_separated "DRAW_PATH" w Hsep) as Hsep1. fold w1 in Hsep1.
  assert (keeps_cache w1 w') as K.
  { apply (frame_keeps_cache w1 w' (cut_paths (op w)) []); try done.
    - by rewrite Ho1.
    - lia.
    - intros c Hlt _. by apply Hl.
    - intros l Hin.
      assert (l ∈ cut_paths (op w1)) as Hin1 by (by rewrite Ho1).
      destruct (live_series_exists w1 l Hsep1 Hin1) as [p Hp].
      by destruct (live_not_owned w1 l p Hsep1 Hin1 Hp).
    - by intros c ?%elem_of_nil. }
  exists w'. split_and!; [done| | |].
  - rewrite Hcp, length_app. simpl. lia.
  - rewrite Hc. unfold w1. rewrite take_snapshot_cache. case_bool_decide.
    + rewrite length_drop, length_app. simpl. lia.
    + rewrite length_app. simpl. lia.
  - destruct (undo_after_snapshot "DRAW_PATH" w w' Hsep Hdepth K) as (w'' & ? & ? & _).
    by exists w''.
Qed.

End DrawnStroke.

(** ** Guide mode: the click on a series *)

Section GuideSelect.
Context `{ContourClasses} `{!HostValues}.
Implicit Types (w : World) (l h : loc).

Lemma deselect_others_spec h ls : ∀ w,
  ∃ w', for_each ls (λ path,
          if bool_decide (path ≠ h) then deselect path else ret tt) w = Ret tt w'
    ∧ lines w' = lines w ∧ op w' = op w
    ∧ contour_undo_cache w' = contour_undo_cache w
    ∧ paths w' !! h = paths w !! h
    ∧ (∀ l, l ∈ ls → l ≠ h → paths w' !! l = with_select false <$> paths w !! l)
    ∧ (∀ l, l ∉ ls → paths w' !! l = paths w !! l).
Proof.
  induction ls as [|l0 ls IH]; intros w; simpl.
  { exists w. split_and!; try done. by intros l ?%elem_of_nil. }
  case_bool_decide as Hne.
  - rewrite (bind_Ret (deselect l0) _ w tt _ eq_refl).
    destruct (IH (with_paths (alter (with_select false) l0 (paths w)) w)) as
      (w' & E & Hl & Ho & Hc & Hh & Hin & Hout).
    exists w'. split_and!; try done.
    + rewrite Hh. simpl. by rewrite list_lookup_alter_ne.
    + intros l Hl' Hlh. destruct (decide (l ∈ ls)) as [Hls|Hls].
      * rewrite (Hin l Hls Hlh). simpl.
        destruct (decide (l0 = l)) as [->|Hl0].
        -- rewrite list_lookup_alter_eq. by destruct (paths w !! l).
        -- by rewrite list_lookup_alter_ne.
      * apply elem_of_cons in Hl' as [->|]; [|done].
        rewrite (Hout l0 Hls). simpl. by rewrite list_lookup_alter_eq.
    + intros l [Hl0 Hls]%not_elem_of_cons. rewrite (Hout l Hls). simpl.
      by rewrite list_lookup_alter_ne.
  - rewrite (bind_Ret (ret tt) _ w tt w eq_refl).
    destruct (IH w) as (w' & E & Hl & Ho & Hc & Hh & Hin & Hout).
    exists w'. split_and!; try done.
    + intros l Hl' Hlh. apply elem_of_cons in Hl' as [->|Hls]; [|by apply Hin].
      by destruct Hne.
    + intros l [Hl0 Hls]%not_elem_of_cons. by apply Hout.
Qed.

(** X29.  The click on a series in guide mode selects that series and
    no other of [cut_paths]: the series under the mouse gets its
    selection flag and becomes [selected_path], every other series of
    [cut_paths] loses the flag, and no series is written otherwise.  No
    snapshot is taken: the cut lines, [cut_paths] and the undo cache are
    the same, so the change of selection is not something [undo_action]
    takes back. *)
Theorem guide_click_selects_one_series w h :
  ∃ w', modal_guide_press (HoverSeries h) w = Ret tt w'
    ∧ selected_path (op w') = Some h
    ∧ cut_paths (op w') = cut_paths (op w)
    ∧ lines w' = lines w
    ∧ contour_undo_cache w' = contour_undo_cache w
    ∧ paths w' !! h = with_select true <$> paths w !! h
    ∧ (∀ l, l ∈ cut_paths (op w) → l ≠ h →
         paths w' !! l = with_select false <$> paths w !! l)
    ∧ (∀ l, l ∉ cut_paths (op w) → l ≠ h → paths w' !! l = paths w !! l).
Proof.
  unfold modal_guide_press.
  rewrite (bind_Ret (do_select h) _ w tt _ eq_refl).
  rewrite (bind_Ret (set_selected_path _) _ _ tt _ eq_refl).
  rewrite (bind_Ret get _ _ _ _ eq_refl).
  cbn [with_paths with_op paths lines op contour_undo_cache with_selected_path cut_paths].
  set (w2 := with_op _ _).
  destruct (deselect_others_spec h (cut_paths (op w)) w2) as
    (w' & E & Hl & Ho & Hc & Hh & Hin & Hout).
  exists w'. rewrite E, Ho, Hl, Hc, Hh. unfold w2. simpl.
  split_and!; try done.
  - by rewrite list_lookup_alter_eq.
  - intros l Hl' Hne. rewrite (Hin l Hl' Hne). simpl.
    by rewrite list_lookup_alter_ne.
  - intros l Hl' Hne. rewrite (Hout l Hl'). simpl.
    by rewrite list_lookup_alter_ne.
Qed.

End GuideSelect.

(** ** Loop mode: a placed cut and the undo cache *)

Section Triples.
Context `{ContourTypes}.

Lemma triple_bind {A B} (P : World → Prop) (m : M A) Q (k : A → M B) R :
  triple P m Q → (∀ a, triple (Q a) (k a) R) → triple P (bind m k) R.
Proof.
  intros Hm Hk w b w' HP (a & w0 & E1 & E2)%bind_Ret_inv.
  eapply Hk; [|done]. by eapply Hm.
Qed.

Lemma triple_ret {A} (P : World → Prop) (a : A) (Q : A → World → Prop) :
  (∀ w, P w → Q a w) → triple P (ret a) Q.
Proof. intros HQ w b w' HP [= <- <-]. by apply HQ. Qed.

Lemma triple_raise {A} (P : World → Prop) e (Q : A → World → Prop) :
  triple P (raise e) Q.
Proof. by intros w b w' HP. Qed.

Lemma triple_get (P : World → Prop) : triple P get (λ a w, P w ∧ P a).
Proof. by intros w b w' HP [= <- <-]. Qed.

Lemma triple_pure {A} (φ : Prop) (P : World → Prop) (m : M A) Q :
  (φ → triple P m Q) → triple (λ w, P w ∧ φ) m Q.
Proof. intros Hm w a w' [HP Hφ]. by apply Hm. Qed.

Lemma triple_pre {A} (P P' : World → Prop) (m : M A) Q :
  (∀ w, P' w → P w) → triple P m Q → triple P' m Q.
Proof. intros HP Hm w a w' HP' E. eapply Hm; [|done]. by apply HP. Qed.

Lemma triple_post {A} (P : World → Prop) (m : M A) (Q Q' : A → World → Prop) :
  (∀ a w, Q a w → Q' a w) → triple P m Q → triple P m Q'.
Proof. intros HQ Hm w a w' HP E. apply HQ. by eapply Hm. Qed.

Lemma triple_for_each {A} (P : World → Prop) (f : A → M unit) xs :
  (∀ x, x ∈ xs → triple P (f x) (λ _, P)) →
  triple P (for_each xs f) (λ _, P).
Proof.
  induction xs as [|x xs IH]; intros Hf; simpl.
  { by apply triple_ret. }
  eapply triple_bind; [apply Hf, list_elem_of_here|intros ?].
  apply IH. intros y Hy. apply Hf. by apply list_elem_of_further.
Qed.

End Triples.

Section Placement.
Context `{ContourClasses} `{!HostValues}.
Implicit Types (w : World) (l c sel : loc) (ev : Event).

Variable w1 : World.
Hypothesis Hsep1 : separated w1.

Lemma owned_series_valid l : l ∈ owned_series w1 → l < length (paths w1).
Proof.
  intros (e & He & Hl)%elem_of_owned_series.
  destruct (separated_entry _ _ Hsep1 He) as [Hv _]. by eapply Forall_forall in Hv.
Qed.

Lemma tracked_free l : tracked w1 l → l ∉ owned_series w1.
Proof.
  intros [Hin|Hge] Hown.
  - destruct (live_series_exists w1 l Hsep1 Hin) as [p Hp].
    by destruct (live_not_owned w1 l p Hsep1 Hin Hp).
  - apply owned_series_valid in Hown. lia.
Qed.

Lemma fresh_line_free c : length (lines w1) ≤ c → c ∉ owned_lines w1.
Proof. intros Hge Hown%(owned_lines_valid _ _ Hsep1). lia. Qed.

Lemma apart_base : apart_from w1 w1.
Proof.
  split_and!; [apply keeps_cache_refl|by left|].
  intros l p [Hin|Hge] Hp.
  - by destruct (live_not_owned w1 l p Hsep1 Hin Hp).
  - apply lookup_lt_Some in Hp. lia.
Qed.

Lemma apart_lines w c f :
  apart_from w1 w → c ∉ owned_lines w1 →
  apart_from w1 (with_lines (alter f c (lines w)) w).
Proof.
  intros ((Kc & Ks & Kp & Kl & Kps & Kls) & T & C) Hc.
  unfold apart_from, keeps_cache. split_and!; simpl; try done.
  - by rewrite length_alter.
  - intros c' Hc'. rewrite list_lookup_alter_ne; [by apply Kls|]. by intros ->.
Qed.

Lemma apart_paths w l (f : ContourCutSeries loc → ContourCutSeries loc) :
  apart_from w1 w → tracked w1 l →
  (∀ p, Forall (λ c, c ∉ owned_lines w1) (cuts p) →
        Forall (λ c, c ∉ owned_lines w1) (cuts (f p))) →
  apart_from w1 (with_paths (alter f l (paths w)) w).
Proof.
  intros ((Kc & Ks & Kp & Kl & Kps & Kls) & T & C) Hl Hf.
  unfold apart_from, keeps_cache. split_and!; simpl; try done.
  - by rewrite length_alter.
  - intros l' Hl'. rewrite list_lookup_alter_ne; [by apply Kps|].
    intros ->. by apply (tracked_free l').
  - intros l' p' Ht. destruct (decide (l = l')) as [<-|Hne].
    + rewrite list_lookup_alter_eq.
      destruct (paths w !! l) as [p|] eqn:Hp; [|done].
      intros [= <-]. apply Hf. by apply (C l).
    + rewrite list_lookup_alter_ne by done. by apply C.
Qed.

Lemma apart_op w o :
  apart_from w1 w → settings o = settings (op w) →
  (∀ l, l ∈ cut_paths o → tracked w1 l) →
  apart_from w1 (with_op o w).
Proof.
  intros ((Kc & Ks & Kp & Kl & Kps & Kls) & T & C) Hs Ht.
  unfold apart_from, keeps_cache. split_and!; simpl; try done. congruence.
Qed.

Lemma apart_new_series w p0 :
  apart_from w1 w → Forall (λ c, c ∉ owned_lines w1) (cuts p0) →
  apart_from w1 (with_paths (paths w ++ [p0]) w) ∧ tracked w1 (length (paths w)).
Proof.
  intros ((Kc & Ks & Kp & Kl & Kps & Kls) & T & C) Hp0.
  split; [|by right].
  unfold apart_from, keeps_cache. split_and!; simpl; try done.
  - rewrite length_app. lia.
  - intros l Hl. rewrite lookup_app_l; [by apply Kps|].
    apply owned_series_valid in Hl. lia.
  - intros l p Ht [Hp|[Hge [_ <-]%list_lookup_singleton_Some]]%lookup_app_Some.
    + by apply (C l).
    + done.
Qed.

Lemma apart_new_line w (x : ContourCutLine) :
  apart_from w1 w →
  apart_from w1 (with_lines (lines w ++ [x]) w) ∧ length (lines w) ∉ owned_lines w1.
Proof.
  intros ((Kc & Ks & Kp & Kl & Kps & Kls) & T & C).
  split; [|by apply fresh_line_free].
  unfold apart_from, keeps_cache. split_and!; simpl; try done.
  - rewrite length_app. lia.
  - intros c Hc. rewrite lookup_app_l; [by apply Kls|].
    apply (owned_lines_valid _ _ Hsep1) in Hc. lia.
Qed.

(** *** The calls one by one *)

Local Abbreviation I := (apart_from w1).
Local Abbreviation free := (λ c, c ∉ owned_lines w1).

Lemma T_update_line c f :
  c ∉ owned_lines w1 → triple I (update_line c f) (λ _, I).
Proof. intros Hc w a w' HI [= <- <-]. by apply apart_lines. Qed.

Lemma T_update_series l f :
  tracked w1 l →
  (∀ p, Forall free (cuts p) → Forall free (cuts (f p))) →
  triple I (update_series l f) (λ _, I).
Proof. intros Hl Hf w a w' HI [= <- <-]. by apply apart_paths. Qed.

Lemma T_get_series l :
  tracked w1 l → triple I (get_series l) (λ p w, I w ∧ Forall free (cuts p)).
Proof.
  intros Hl w p w' HI. unfold get_series.
  destruct (paths w !! l) as [q|] eqn:Hq; [|done].
  intros [= <- <-]. split; [done|]. destruct HI as (_ & _ & C). by apply (C l).
Qed.

Lemma T_get_line c : triple I (get_line c) (λ _, I).
Proof.
  intros w x w' HI. unfold get_line.
  destruct (lines w !! c); [|done]. by intros [= <- <-].
Qed.

Lemma T_modify_op f :
  (∀ o, settings (f o) = settings o) →
  (∀ o l, l ∈ cut_paths (f o) → l ∈ cut_paths o) →
  triple I (modify_op f) (λ _, I).
Proof.
  intros Hs Hc w a w' HI [= <- <-]. apply apart_op; [done..|].
  intros l Hl%Hc. destruct HI as (_ & T & _). by apply T.
Qed.

Lemma T_append_path l :
  tracked w1 l →
  triple I (modify_op (λ o, with_cut_paths (cut_paths o ++ [l]) o)) (λ _, I).
Proof.
  intros Hl w a w' HI [= <- <-]. apply apart_op; [done..|].
  simpl. intros l' [Hin| ->%list_elem_of_singleton]%elem_of_app; [|done].
  destruct HI as (_ & T & _). by apply T.
Qed.

Lemma T_cut_lines_remove c : triple I (cut_lines_remove c) (λ _, I).
Proof.
  intros w a w' HI. unfold cut_lines_remove.
  destruct (list_remove c (cut_lines (op w))); [|done].
  intros [= <- <-]. apply apart_op; [done..|].
  simpl. destruct HI as (_ & T & _). apply T.
Qed.

Lemma T_new_series p0 :
  Forall free (cuts p0) →
  triple I (new_series p0) (λ l w, I w ∧ tracked w1 l).
Proof. intros Hp0 w a w' HI [= <- <-]. by apply apart_new_series. Qed.

Lemma T_new_line (x : ContourCutLine) :
  triple I (new_line x) (λ c w, I w ∧ c ∉ owned_lines w1).
Proof. intros w a w' HI [= <- <-]. by apply apart_new_line. Qed.

Lemma T_set_selected x : triple I (set_selected x) (λ _, I).
Proof. by apply T_modify_op. Qed.

Lemma T_set_selected_path x : triple I (set_selected_path x) (λ _, I).
Proof. by apply T_modify_op. Qed.

(** *** Methods of the series and of the cut lines *)

Lemma T_for_each_lines cs (g : loc → ContourCutLine → ContourCutLine) :
  Forall free cs →
  triple I (for_each cs (λ c, update_line c (g c))) (λ _, I).
Proof.
  intros Hcs. apply triple_for_each. intros c Hc.
  apply T_update_line. by eapply Forall_forall in Hcs.
Qed.

Lemma T_connect_cuts_to_make_mesh ctx l :
  tracked w1 l → triple I (connect_cuts_to_make_mesh ctx l) (λ _, I).
Proof.
  intros Hl. unfold connect_cuts_to_make_mesh.
  eapply triple_bind; [apply triple_get|intros w0].
  apply triple_pure. intros _. by apply T_update_series.
Qed.

Lemma T_update_visibility ctx l :
  tracked w1 l → triple I (update_visibility ctx l) (λ _, I).
Proof.
  intros Hl. unfold update_visibility.
  eapply triple_bind; [by apply T_get_series|intros p].
  apply triple_pure. intros Hp.
  by apply (T_for_each_lines _ (λ _ x, with_cgeom (visible_geom ctx x) x)).
Qed.

Lemma T_deselect_others (all : list loc) l :
  (∀ x, x ∈ all → tracked w1 x) →
  triple I (for_each all (λ other,
              if bool_decide (other ≠ l) then deselect other else ret tt)) (λ _, I).
Proof.
  intros Hall. apply triple_for_each. intros x Hx.
  case_bool_decide; [|by apply triple_ret].
  apply T_update_series; [by apply Hall|done].
Qed.

Lemma T_for_each_deselect (all : list loc) :
  (∀ x, x ∈ all → tracked w1 x) →
  triple I (for_each all deselect) (λ _, I).
Proof.
  intros Hall. apply triple_for_each. intros x Hx.
  apply T_update_series; [by apply Hall|done].
Qed.

Lemma T_insert_new_cut ctx l sel search :
  tracked w1 l → sel ∉ owned_lines w1 →
  triple I (insert_new_cut ctx l sel search) (λ _, I).
Proof.
  intros Hl Hsel. unfold insert_new_cut.
  eapply triple_bind; [by apply T_get_series|intros p].
  apply triple_pure. intros Hp.
  eapply triple_bind; [apply T_get_line|intros c].
  eapply triple_bind; [apply triple_get|intros w0].
  apply triple_pure. intros _.
  destruct (insertion_place _ _ _ _) as [i|]; [|by apply triple_ret].
  eapply triple_bind;
    [apply T_update_series; [done|]|intros ?; by apply triple_ret].
  intros q Hq.
  assert (Forall free (take i (cuts q) ++ sel :: drop i (cuts q))) as Hins.
  { apply Forall_app. split; [by apply Forall_take|].
    constructor; [done|by apply Forall_drop]. }
  by destruct (ring_lock q).
Qed.

Lemma T_offer_cut ctx sel search (all : list loc) ps :
  (∀ x, x ∈ all → tracked w1 x) → (∀ x, x ∈ ps → tracked w1 x) →
  sel ∉ owned_lines w1 →
  triple I (offer_cut ctx sel search all ps) (λ _, I).
Proof.
  intros Hall Hps Hsel. induction ps as [|path rest IH]; simpl.
  { by apply triple_ret. }
  assert (tracked w1 path) as Hpath by apply Hps, list_elem_of_here.
  eapply triple_bind; [by apply T_insert_new_cut|intros ok].
  destruct ok.
  - eapply triple_bind; [by apply T_connect_cuts_to_make_mesh|intros ?].
    eapply triple_bind; [by apply T_update_visibility|intros ?].
    eapply triple_bind; [by apply T_update_series|intros ?].
    eapply triple_bind; [by apply T_update_series|intros ?].
    eapply triple_bind; [by apply T_update_series|intros ?].
    eapply triple_bind; [apply T_set_selected_path|intros ?].
    eapply triple_bind; [apply T_cut_lines_remove|intros ?].
    eapply triple_bind; [by apply T_deselect_others|intros ?].
    by apply triple_ret.
  - apply IH. intros x Hx. apply Hps. by apply list_elem_of_further.
Qed.

Lemma T_place_in_new_series ctx sel :
  sel ∉ owned_lines w1 → triple I (place_in_new_series ctx sel) (λ _, I).
Proof.
  intros Hsel. unfold place_in_new_series.
  eapply triple_bind; [apply triple_get|intros w0].
  apply triple_pure. intros (_ & T0 & _).
  eapply triple_bind; [by apply T_new_series|intros path].
  apply triple_pure. intros Hpath.
  eapply triple_bind; [by apply T_insert_new_cut|intros ?].
  eapply triple_bind; [by apply T_update_series|intros ?].
  eapply triple_bind; [by apply T_update_series|intros ?].
  eapply triple_bind; [apply T_get_line|intros c].
  eapply triple_bind; [by apply T_update_series|intros ?].
  eapply triple_bind; [by apply T_connect_cuts_to_make_mesh|intros ?].
  eapply triple_bind; [by apply T_update_visibility|intros ?].
  eapply triple_bind; [by apply T_for_each_deselect|intros ?].
  eapply triple_bind; [by apply T_append_path|intros ?].
  eapply triple_bind; [apply T_set_selected_path|intros ?].
  eapply triple_bind; [by apply T_update_series|intros ?].
  eapply triple_bind; [apply T_cut_lines_remove|intros ?].
  by apply T_modify_op.
Qed.

Lemma T_attach_cut ctx sel :
  sel ∉ owned_lines w1 → triple I (attach_cut ctx sel) (λ _, I).
Proof.
  intros Hsel. unfold attach_cut.
  eapply triple_bind; [apply triple_get|intros w0].
  apply triple_pure. intros (_ & T0 & _).
  eapply triple_bind.
  { destruct (_ && _); [by apply T_offer_cut|by apply triple_ret]. }
  intros placed. destruct placed; [by apply triple_ret|].
  by apply T_place_in_new_series.
Qed.

Lemma T_hit_object ctx sel :
  sel ∉ owned_lines w1 → triple I (hit_object ctx sel) (λ _, I).
Proof.
  intros Hsel. unfold hit_object.
  eapply triple_bind; [apply T_get_line|intros x].
  eapply triple_bind; [by apply T_update_line|intros ?].
  by apply triple_ret.
Qed.

(** [release_place_cut] with a selected cut that the cache does not
    own. *)
Lemma T_release_place_cut ctx ev :
  triple (λ w, I w ∧ ∀ c, selected (op w) = Some c → c ∉ owned_lines w1)
    (release_place_cut ctx ev) (λ _, I).
Proof.
  unfold release_place_cut.
  eapply triple_bind; [apply triple_get|intros w0].
  apply (triple_pre (λ w, I w ∧ ∀ c, selected (op w0) = Some c → c ∉ owned_lines w1)).
  { intros w [[HI _] [_ Hfree]]. by split. }
  apply triple_pure. intros Hfree.
  destruct (selected (op w0)) as [sel|]; [|apply triple_raise].
  specialize (Hfree sel eq_refl).
  eapply triple_bind; [apply T_get_line|intros x].
  destruct (tail x); [|apply triple_raise]. cbv zeta.
  eapply triple_bind; [by apply T_update_line|intros ?].
  destruct (head x) as [h|]; [|apply triple_raise].
  destruct (too_short h _).
  { eapply triple_bind; [apply T_cut_lines_remove|intros ?]. apply T_set_selected. }
  eapply triple_bind; [by apply T_hit_object|intros hit].
  destruct hit; simpl.
  - eapply triple_bind; [by apply T_update_line|intros ?].
    eapply triple_bind; [by apply T_update_line|intros ?].
    eapply triple_bind; [by apply T_update_line|intros ?].
    eapply triple_bind; [by apply T_update_line|intros ?].
    eapply triple_bind; [by apply T_update_line|intros ?].
    eapply triple_bind; [apply T_get_line|intros x'].
    destruct (_ || _); [apply T_set_selected|by apply T_attach_cut].
  - eapply triple_bind; [apply T_cut_lines_remove|intros ?]. apply T_set_selected.
Qed.

(** [click_new_cut]: the new cut line is an object of no entry. *)
Lemma T_click_new_cut ev :
  triple I (click_new_cut ev) (λ c w, I w ∧ c ∉ owned_lines w1).
Proof.
  unfold click_new_cut.
  eapply triple_bind; [apply T_new_line|intros new_cut].
  apply triple_pure. intros Hnew.
  eapply triple_bind; [apply triple_get|intros w0].
  apply triple_pure. intros (_ & T0 & _).
  eapply triple_bind.
  { apply triple_for_each. intros path Hpath.
    eapply triple_bind; [by apply T_get_series, T0|intros p].
    apply triple_pure. intros Hp.
    by apply (T_for_each_lines _ (λ _, with_cut_select false)). }
  intros ?.
  eapply triple_bind; [by apply T_update_line|intros ?].
  eapply triple_bind; [by apply T_modify_op|intros ?].
  by apply triple_ret.
Qed.

End Placement.

Section PlacementUndo.
Context `{ContourClasses} `{!HostValues}.
Implicit Types (w : World) (ev : Event).

(** X28.  A cut placement in loop mode is undone by one [undo_action],
    whatever the release does with the cut.  With [undo_depth] not 0: if
    the press on nothing and the release return, be the cut too short,
    off the surface, without a cross-section, taken by a series of
    [cut_paths] or put in a new series, then the next [undo_action]
    returns and [cut_paths] reads as the graph from before the press. *)
Theorem cut_placement_undone ctx ev1 ev2 w w' :
  separated w →
  0 < undo_depth (settings (op w)) →
  (modal_loop_press_cut ev1 ;;; modal_cutting_release ctx ev2) w = Ret tt w' →
  length (contour_undo_cache w') ≤ S (length (contour_undo_cache w))
  ∧ ∃ w'', undo_action w' = Ret tt w'' ∧ live_graph w'' = live_graph w.
Proof.
  intros Hsep Hdepth Hrun.
  set (w1 := take_snapshot "CUTTING" w).
  pose proof (take_snapshot_separated "CUTTING" w Hsep) as Hsep1. fold w1 in Hsep1.
  assert (apart_from w1 w') as (K & _).
  { revert Hrun. unfold modal_loop_press_cut, modal_cutting_release.
    rewrite !bind_assoc, (bind_Ret _ _ _ _ _ (cutting_snapshot w)). fold w1.
    revert w'. cut (triple (apart_from w1)
      (modify_op (with_modal_state CUTTING) ;;;
       (c <- click_new_cut ev1 ;; set_selected (Some c)) ;;;
       release_place_cut ctx ev2 ;;; modify_op (with_modal_state WAITING))
      (λ _, apart_from w1)).
    { intros Ht w' E. eapply Ht; [by apply apart_base|].
      rewrite <-E. by rewrite ?bind_assoc. }
    eapply triple_bind; [by apply T_modify_op|intros ?].
    eapply (triple_bind _ _
              (λ _ w, apart_from w1 w ∧ ∀ c, selected (op w) = Some c → c ∉ owned_lines w1)).
    { eapply triple_bind; [by apply T_click_new_cut|intros c].
      apply triple_pure. intros Hc.
      intros w2 ? w3 HI E. split.
      - by apply (T_set_selected w1 (Some c) w2 _ w3 HI E).
      - injection E as _ <-. simpl. by intros ? [= <-]. }
    intros ?.
    eapply triple_bind; [by apply T_release_place_cut|intros ?].
    by apply T_modify_op. }
  split.
  - destruct K as (-> & _). unfold w1. rewrite take_snapshot_cache. case_bool_decide.
    + rewrite length_drop, length_app. simpl. lia.
    + rewrite length_app. simpl. lia.
  - destruct (undo_after_snapshot "CUTTING" w w' Hsep Hdepth K) as (w'' & ? & ? & _).
    by exists w''.
Qed.

End PlacementUndo.

(** ** The further properties on the concrete geometry *)

Section SessionExamples.
Import Demo.
#[local] Existing Instance demo_types.
#[local] Existing Instance demo_classes.
#[local] Existing Instance demo_host.

(** An equation between computed states. *)
Ltac by_computation := vm_compute; reflexivity.

Lemma world1_snapped_separated depth : separated (world1_snapped depth).
Proof. apply take_snapshot_separated, world1_separated. Qed.

Lemma session_keeps_graphs_apart_witness :
  separated (world1 10 false)
  ∧ separated (run_calls demo_session (world1 10 false)).
Proof.
  split; [apply world1_separated|].
  apply (@session_keeps_graphs_apart demo_types demo_session (world1 10 false)).
  apply world1_separated.
Defined.

Lemma repeated_snapshot_idempotent_witness :
  let w := world1_snapped 10 in
  let w1 := take_snapshot "LOOP_SHIFT" w in
  "LOOP_SHIFT"%string ∈ repeated_actions
  ∧ create_undo_snapshot "LOOP_SHIFT" w = Ret tt w1
  ∧ create_undo_snapshot "LOOP_SHIFT" w1 = Ret tt w1.
Proof.
  intros w w1. split; [apply list_elem_of_here|]. split; [by_computation|].
  apply (@repeated_snapshot_idempotent demo_types "LOOP_SHIFT" w w1).
  - apply list_elem_of_here.
  - by_computation.
Defined.

Lemma gesture_undone_at_once_witness :
  let w := world1_snapped 10 in
  let wn := default w (run_gesture "LOOP_SHIFT" shift_gesture w) in
  separated w
  ∧ coalesced "LOOP_SHIFT" w = false
  ∧ run_gesture "LOOP_SHIFT" shift_gesture w = Some wn
  ∧ lines wn !! 0 = Some (demo_cut 4)
  ∧ length (contour_undo_cache wn) ≤ S (length (contour_undo_cache w))
  ∧ ∃ w', undo_action wn = Ret tt w' ∧ live_graph w' = live_graph w.
Proof.
  intros w wn. split; [apply world1_snapped_separated|].
  split; [by_computation|]. split; [by_computation|]. split; [by_computation|].
  apply (@gesture_undone_at_once demo_types "LOOP_SHIFT" shift_gesture w wn).
  - apply list_elem_of_here.
  - apply world1_snapped_separated.
  - by_computation.
  - change (0 < 10). lia.
  - discriminate.
  - by_computation.
Defined.

Lemma ring_segments_event_undone_witness :
  let w := world1 10 false in
  let ev := demo_event "WHEELUPMOUSE" 0 0 in
  let w' := final (modal_ring_segments tt ev w) in
  separated w
  ∧ modal_ring_segments tt ev w = Ret tt w'
  ∧ (ring_segments <$> paths w' !! 0) = Some 5%Z
  ∧ ∃ w'', undo_action w' = Ret tt w'' ∧ live_graph w'' = live_graph w.
Proof.
  intros w ev w'. split; [apply world1_separated|].
  split; [by_computation|]. split; [by_computation|].
  apply (@ring_segments_event_undone demo_types demo_classes tt ev w 0 w').
  - apply world1_separated.
  - change (0 < 10). lia.
  - by_computation.
  - apply list_elem_of_here.
  - by_computation.
Defined.

Lemma guide_delete_removes_selected_witness :
  let w := world1 10 false in
  let w2 := with_op (with_cut_paths [] (op w)) w in
  (∃ w' a b, modal_guide_delete w = Ret tt w'
     ∧ cut_paths (op w) = a ++ 0 :: b
     ∧ cut_paths (op w') = a ++ b
     ∧ selected_path (op w') = None)
  ∧ modal_guide_delete w2 = Raise ValueError (take_snapshot "DELETE" w2).
Proof.
  intros w w2. split.
  - destruct (proj1 (@guide_delete_removes_selected demo_types w 0 eq_refl))
      as (w' & a & b & E & Hab & _ & Hr & Hs & _).
    + apply list_elem_of_here.
    + by exists w', a, b.
  - apply (proj2 (@guide_delete_removes_selected demo_types w2 0 eq_refl)).
    apply not_elem_of_nil.
Defined.

Lemma guide_delete_undone_witness :
  let w := world1 10 false in
  let w' := final (modal_guide_delete w) in
  separated w
  ∧ modal_guide_delete w = Ret tt w'
  ∧ cut_paths (op w') = []
  ∧ ∃ w'', undo_action w' = Ret tt w'' ∧ live_graph w'' = live_graph w.
Proof.
  intros w w'. split; [apply world1_separated|].
  split; [by_computation|]. split; [by_computation|].
  apply (@guide_delete_undone demo_types w 0 w').
  - apply world1_separated.
  - change (0 < 10). lia.
  - by_computation.
  - by_computation.
Defined.

Lemma guide_arrow_run_undone_witness :
  let w := world1_snapped 10 in
  let evs := [demo_event "LEFT_ARROW" 0 0; demo_event "LEFT_ARROW" 0 0;
              demo_event "RIGHT_ARROW" 0 0] in
  let wn := final (for_each evs (modal_guide_arrow tt) w) in
  separated w
  ∧ for_each evs (modal_guide_arrow tt) w = Ret tt wn
  ∧ (shift <$> lines wn !! 0) = Some 7%Z
  ∧ length (contour_undo_cache wn) ≤ S (length (contour_undo_cache w))
  ∧ ∃ w', undo_action wn = Ret tt w' ∧ live_graph w' = live_graph w.
Proof.
  intros w evs wn. split; [apply world1_snapped_separated|].
  split; [by_computation|]. split; [by_computation|].
  apply (@guide_arrow_run_undone demo_types demo_classes demo_host tt evs w 0 wn).
  - apply world1_snapped_separated.
  - change (0 < 10). lia.
  - by_computation.
  - apply list_elem_of_here.
  - by_computation.
  - discriminate.
  - by_computation.
Defined.

Lemma release_with_snap_none_raises_witness :
  let w := world_snap_none 12 in
  ∃ w', modal_drawing_release tt w = Raise TypeError w'
    ∧ op w' = op w
    ∧ lines w' = lines w
    ∧ ∃ w'', modal_drawing_release tt w' = Raise TypeError w''.
Proof.
  intros w.
  apply (@release_with_snap_none_raises demo_types demo_classes tt w).
  - by_computation.
  - by_computation.
  - change (10 < 12). lia.
  - discriminate.
Defined.

Lemma force_new_twice_breaks_drawing_witness :
  let w := world1 10 false in
  ∃ w', (modal_force_new ;;; modal_force_new ;;;
         modal_guide_press HoverNone ;;;
         for_each (demo_moves 12) modal_drawing_move ;;;
         modal_drawing_release tt) w = Raise TypeError w'
    ∧ modal_state (op w') = DRAWING
    ∧ length (draw_cache (op w')) = 12.
Proof.
  intros w.
  destruct (@force_new_twice_breaks_drawing demo_types demo_classes tt (demo_moves 12) w)
    as (w' & E & Hs & Hd & _).
  - by_computation.
  - by_computation.
  - change (10 < 12). lia.
  - discriminate.
  - exists w'. split_and!; [done|done|]. by rewrite Hd.
Defined.

Lemma locked_path_segments_ignored_witness :
  modal_path_segments tt (demo_event "WHEELUPMOUSE" 0 0) world_seg_locked
  = Ret tt world_seg_locked.
Proof.
  apply (@locked_path_segments_ignored demo_types demo_classes tt
           (demo_event "WHEELUPMOUSE" 0 0) world_seg_locked 0
           (with_seg_lock true (demo_series [0] 4 false)));
    by_computation.
Defined.

Lemma path_segments_on_empty_cache_raises_witness :
  let w := world1 10 false in
  is_path_segments_event (demo_event "WHEELUPMOUSE" 0 0) = true
  ∧ modal_path_segments tt (demo_event "WHEELUPMOUSE" 0 0) w = Raise IndexError w.
Proof.
  intros w. split; [by_computation|].
  apply (@path_segments_on_empty_cache_raises demo_types demo_classes tt
           (demo_event "WHEELUPMOUSE" 0 0) w 0 (demo_series [0] 4 false)).
  - by_computation.
  - by_computation.
  - by_computation.
  - by_computation.
  - discriminate.
Defined.

Lemma unlocked_path_segments_stepped_witness :
  let w := world1_snapped 10 in
  let ev := demo_event "WHEELUPMOUSE" 0 0 in
  ∃ p', paths (final (modal_path_segments tt ev w)) !! 0 = Some p'
    ∧ segments p' = 2%Z
    ∧ ring_segments p' = 4%Z
    ∧ Forall (λ c, length (lines w) ≤ c) (cuts p').
Proof.
  intros w ev.
  destruct (@unlocked_path_segments_stepped demo_types demo_classes tt ev w 0
              (demo_series [0] 4 false)) as (_ & p' & Hp' & Hs & Hr & Hnew & _).
  - by_computation.
  - by_computation.
  - by_computation.
  - left. discriminate.
  - by exists p'.
Defined.

Lemma path_segments_run_undone_witness :
  let w := world1_snapped 10 in
  let evs := [demo_event "WHEELUPMOUSE" 0 0; demo_event "NUMPAD_PLUS" 0 0;
              demo_event "WHEELDOWNMOUSE" 0 0] in
  let wn := final (for_each evs (modal_path_segments tt) w) in
  for_each evs (modal_path_segments tt) w = Ret tt wn
  ∧ (segments <$> paths wn !! 0) = Some 3%Z
  ∧ live_graph wn ≠ live_graph w
  ∧ length (contour_undo_cache wn) ≤ S (length (contour_undo_cache w))
  ∧ ∃ w', undo_action wn = Ret tt w' ∧ live_graph w' = live_graph w.
Proof.
  intros w evs wn.
  split; [by_computation|]. split; [by_computation|]. split; [by vm_compute|].
  eapply (@path_segments_run_undone demo_types demo_classes tt
            (demo_event "WHEELUPMOUSE" 0 0)
            [demo_event "NUMPAD_PLUS" 0 0; demo_event "WHEELDOWNMOUSE" 0 0]
            w 0 (demo_series [0] 4 false)).
  - apply world1_snapped_separated.
  - change (0 < 10). lia.
  - by_computation.
  - apply list_elem_of_here.
  - by_computation.
  - by_computation.
  - by vm_compute.
  - by_computation.
  - by vm_compute.
  - by_computation.
Defined.

Lemma drawn_stroke_appends_series_witness :
  let w := world_drawing 12 in
  ∃ w' p', modal_drawing_release tt w = Ret tt w'
    ∧ cut_paths (op w') = [0; 1]
    ∧ paths w' !! 1 = Some p'
    ∧ select p' = true
    ∧ (select <$> paths w' !! 0) = Some false
    ∧ selected_path (op w') = Some 1
    ∧ draw_cache (op w') = [].
Proof.
  intros w.
  destruct (@drawn_stroke_appends_series demo_types demo_classes tt w) as
    (w' & p' & E & H1 & H2 & H3 & _ & _ & _ & _ & _ & H4 & _ & H5 & _ & _ & _ & _ & H6).
  - left. by_computation.
  - change (10 < 12). lia.
  - discriminate.
  - exists w', p'. split_and!; try done.
    by rewrite (H6 0 (with_select true (demo_series [0] 4 false))
                  (list_elem_of_here _ _) eq_refl).
Defined.

Lemma drawn_stroke_undone_witness :
  let w := world1_snapped 10 in
  ∃ w', (modal_guide_press HoverNone ;;;
         for_each (demo_moves 12) modal_drawing_move ;;;
         modal_drawing_release tt) w = Ret tt w'
    ∧ length (cut_paths (op w')) = 2
    ∧ ∃ w'', undo_action w' = Ret tt w'' ∧ live_graph w'' = live_graph w.
Proof.
  intros w.
  destruct (@drawn_stroke_undone demo_types demo_classes tt (demo_moves 12) w)
    as (w' & E & Hn & _ & Hu).
  - apply world1_snapped_separated.
  - change (0 < 10). lia.
  - left. by_computation.
  - by_computation.
  - change (10 < 12). lia.
  - discriminate.
  - by exists w'.
Defined.

Lemma cut_placement_undone_witness :
  let w := world1 10 false in
  let run := modal_loop_press_cut (demo_event "LEFTMOUSE" 0 0) ;;;
             modal_cutting_release tt (demo_event "LEFTMOUSE" 30 40) in
  let w' := final (run w) in
  run w = Ret tt w'
  ∧ cut_lines (op w') = [2]
  ∧ length (contour_undo_cache w') ≤ 1
  ∧ ∃ w'', undo_action w' = Ret tt w'' ∧ live_graph w'' = live_graph w.
Proof.
  intros w run w'.
  split; [by_computation|]. split; [by_computation|].
  apply (@cut_placement_undone demo_types demo_classes demo_host tt
           (demo_event "LEFTMOUSE" 0 0) (demo_event "LEFTMOUSE" 30 40) w w').
  - apply world1_separated.
  - change (0 < 10). lia.
  - by_computation.
Defined.

Lemma errant_click_places_nothing_witness :
  let w := world1 10 false in
  ∃ w', (modal_loop_press_cut (demo_event "LEFTMOUSE" 0 0) ;;;
         modal_cutting_release tt (demo_event "LEFTMOUSE" 3 4)) w = Ret tt w'
    ∧ cut_lines (op w') = []
    ∧ cut_paths (op w') = [0]
    ∧ selected (op w') = None
    ∧ length (contour_undo_cache w') = 1.
Proof.
  intros w.
  destruct (@errant_click_places_nothing demo_types demo_classes demo_host tt
              (demo_event "LEFTMOUSE" 0 0) (demo_event "LEFTMOUSE" 3 4) w
              (0, 0)%Z (0, 0)%Z) as (w' & E & H1 & H2 & H3 & _ & H5 & _).
  - apply Forall_singleton. by eexists.
  - apply Forall_nil_2.
  - by_computation.
  - by_computation.
  - by_computation.
  - exists w'. split_and!; try done. by rewrite H5.
Defined.

Lemma recover_drops_edge_loop_witness :
  let w := world1_snapped 10 in
  ∃ e w' q, contour_undo_cache w = [e]
    ∧ invoke_state tt (demo_settings 10) true (Some tt) true w = Ret tt w'
    ∧ paths w' !! length (paths w) = Some q
    ∧ existing_head q = Some tt
    ∧ cut_paths (op w') = cut_data e
    ∧ (length (paths w) ∉ cut_paths (op w'))
    ∧ contour_undo_cache w' = [].
Proof.
  intros w.
  destruct (last (contour_undo_cache w)) as [e|] eqn:El; [|discriminate El].
  assert (contour_undo_cache w = [] ++ [e]) as Hc.
  { injection El as <-. reflexivity. }
  destruct (@recover_drops_edge_loop demo_types demo_classes demo_host tt
              (demo_settings 10) tt w [] e (world1_snapped_separated 10) Hc)
    as (w' & q & E & H1 & H2 & H3 & H4 & H5).
  by exists e, w', q.
Defined.

Lemma first_arrow_of_session_raises_witness :
  ∃ w', (invoke_state tt (demo_settings 10) false (Some tt) false ;;;
         modal_loop_tab ;;;
         modal_guide_arrow tt (demo_event "LEFT_ARROW" 0 0)) (world0 10)
        = Raise IndexError w'
    ∧ mode (op w') = GUIDE
    ∧ selected_path (op w') = Some 0
    ∧ cut_paths (op w') = [0].
Proof.
  apply (@first_arrow_of_session_raises demo_types demo_classes demo_host tt
           (demo_settings 10) false tt false (demo_event "LEFT_ARROW" 0 0) (world0 10)).
  by_computation.
Defined.

End SessionExamples.

Section MeshCacheExamples.
Import Demo.
#[local] Existing Instance demo_types.
#[local] Existing Instance demo_host.
#[local] Existing Instance demo_blender.

Lemma written_cache_validates_witness :
  let form := demo_object "form" [1; 2; 3]%Z in
  let s : host * MeshCache := ([], empty_mesh_cache) in
  object_validation form = Value ("form"%string, (3, 0, 0, 0), ([1%Z], [3%Z]), [6%Z])
  ∧ ∃ s', write_mesh_cache form None 7 s = (Value tt, s')
      ∧ is_object_valid form s'.2 = Value true
      ∧ mc_bme s'.2 = Some 7
      ∧ mc_tmp s'.2 = Some None.
Proof.
  intros form s. split; [reflexivity|].
  apply (@written_cache_validates demo_types demo_host demo_blender form None 7 s
           ("form"%string, (3, 0, 0, 0), ([1%Z], [3%Z]), [6%Z])).
  - reflexivity.
  - repeat (apply Forall_cons_2; [reflexivity|]). apply Forall_nil_2.
Defined.

Lemma empty_mesh_cannot_be_validated_witness :
  let ob := demo_object "retopo" [] in
  let s : host * MeshCache :=
    ([], mkMeshCache (Some ("form"%string, (3, 0, 0, 0), ([1%Z], [3%Z]), [6%Z]))
           (Some 7) (Some None)) in
  object_validation ob = Error ValueError
  ∧ write_mesh_cache ob None 8 s = (Error ValueError, clear_mesh_cache s)
  ∧ is_object_valid ob s.2 = Error ValueError.
Proof.
  intros ob s.
  apply (@empty_mesh_cannot_be_validated demo_types demo_host demo_blender ob
           (mkMesh "retopo_mesh" [] 0 0) None 8 s); reflexivity.
Defined.

Lemma valid_cache_has_bme_and_tmp_witness :
  let form := demo_object "form" [1; 2; 3]%Z in
  let s := foldl run_mesh_call ([], empty_mesh_cache)
             [ClearCache; @WriteCache demo_types demo_blender form None 7] in
  is_object_valid form s.2 = Value true
  ∧ is_Some (mc_bme s.2) ∧ is_Some (mc_tmp s.2).
Proof.
  intros form s. split; [reflexivity|].
  apply (@valid_cache_has_bme_and_tmp demo_types demo_host demo_blender
           [ClearCache; @WriteCache demo_types demo_blender form None 7] [] form).
  reflexivity.
Defined.

Lemma poll_grants_edit_mode_target_witness :
  poll demo_context = Value true
  ∧ ∃ dest target, ctx_object demo_context = Some dest
      ∧ edit_mode_target demo_context = Value target
      ∧ ob_name target = "form"%string.
Proof.
  split; [reflexivity|].
  destruct (@poll_grants_edit_mode_target demo_types demo_context)
    as (dest & target & Hd & Ht & _ & _).
  - reflexivity.
  - reflexivity.
  - reflexivity.
  - apply NoDup_cons_2; [|apply NoDup_singleton].
    intros Hin%list_elem_of_singleton. discriminate Hin.
  - exists dest, target. split_and!; [done|done|].
    assert (Value target = Value (demo_object "form" [1; 2; 3]%Z)) as Heq.
    { rewrite <-Ht. reflexivity. }
    by injection Heq as ->.
Defined.

End MeshCacheExamples.
